(** * Verification of the hitkomui/lib browser widgets

    A shallow embedding of the widgets (LoopSlider, MouseStalker, Accordion,
    ScrollProgressAnimation, TextReveal), of the bootstrap function [main]
    and of the asset-naming rules of the build configuration.

    Conventions of the embedding.
    - A JavaScript number is an exact rational ([Q]); rounding, NaN and the
      infinities of IEEE doubles are outside the model.  Equality of numbers
      is [Qeq] ([==]).
    - The browser is an explicit [World]: the DOM store, the pending
      animation frames and timeouts, the registered event listeners and the
      console.  Read-only facts the code asks the browser for (selector
      matches, layout measurements, media queries) are the fields of [Env].
    - A method is a computation in the monad [M]: it threads the instance
      ([this]) and the [World], and completes normally or by throwing. *)

From Stdlib Require Import ZArith QArith Qround Qabs Lqa Lia Ascii.
From Stdlib Require String.
From stdpp Require Import base option list gmap strings.


(** ** JavaScript numbers and truthiness *)

Module Js.

Definition ltb (x y : Q) : bool := negb (Qle_bool y x).
Definition gtb (x y : Q) : bool := ltb y x.

(** [Math.ceil], [Math.abs]. *)
Definition Math_ceil (x : Q) : Q := inject_Z (Qceiling x).
Definition Math_abs (x : Q) : Q := Qabs x.

(** [!x] on a number, and on a number that may still be [null] or
    [undefined]. *)
Definition falsy (x : Q) : bool := Qeq_bool x 0.
Definition falsy_opt (x : option Q) : bool :=
  match x with None => true | Some v => falsy v end.

(** [!s] on a string is true of the empty string only. *)
Definition truthy_string (s : string) : bool := negb (String.eqb s "").

(** [x | 0]: truncate towards zero, then wrap into 32 signed bits. *)
Definition toInt32 (x : Q) : Z :=
  let n := if Qle_bool 0 x then Qfloor x else Qceiling x in
  ((n + 2 ^ 31) mod 2 ^ 32 - 2 ^ 31)%Z.

(** A handle returned by [requestAnimationFrame] or [setTimeout], tested
    with [if (h)]. *)
Definition truthy_handle (h : option nat) : bool :=
  match h with Some (S _) => true | _ => false end.

End Js.

(** ** The DOM store *)

Module Dom.

Definition Elem := nat.

Inductive Target := Window | Document | Node (e : Elem).

#[global] Instance Target_eq_dec : EqDecision Target.
Proof. solve_decision. Defined.

(** The value of a style property: a literal, or one of the two strings the
    widgets build from numbers. *)
Inductive StyleValue :=
| Css (s : string)
| Num (x : Q)
| Px (x : Q)
| Seconds (x : Q)
| Translate3d (x y : Q).

Record Element := mkElement {
  className : list string;
  attrs : gmap string string;
  style : gmap string StyleValue;
  textContent : string;
  parentNode : option Elem
}.

Definition set_className (v : list string) (x : Element) : Element :=
  mkElement v (attrs x) (style x) (textContent x) (parentNode x).
Definition set_attrs (v : gmap string string) (x : Element) : Element :=
  mkElement (className x) v (style x) (textContent x) (parentNode x).
Definition set_style (v : gmap string StyleValue) (x : Element) : Element :=
  mkElement (className x) (attrs x) v (textContent x) (parentNode x).
Definition set_textContent (v : string) (x : Element) : Element :=
  mkElement (className x) (attrs x) (style x) v (parentNode x).
Definition set_parentNode (v : option Elem) (x : Element) : Element :=
  mkElement (className x) (attrs x) (style x) (textContent x) v.

Definition blank : Element := mkElement [] ∅ ∅ "" None.

Abbreviation Store := (gmap Elem Element).

(** Every reference denotes an element; one never written is [blank]. *)
Definition getElem (d : Store) (e : Elem) : Element := default blank (d !! e).
Definition updElem (f : Element → Element) (e : Elem) (d : Store) : Store :=
  <[e := f (getElem d e)]> d.

(** [classList] is an ordered set of tokens. *)
Definition classList_contains (c : string) (el : Element) : bool :=
  bool_decide (c ∈ className el).
Definition classList_add (c : string) (el : Element) : Element :=
  if classList_contains c el then el
  else set_className (className el ++ [c]) el.
Definition classList_remove (c : string) (el : Element) : Element :=
  set_className (filter (λ x, x ≠ c) (className el)) el.
Definition classList_toggle (c : string) (force : bool) (el : Element) : Element :=
  if force then classList_add c el else classList_remove c el.

Definition setAttribute (k v : string) (el : Element) : Element :=
  set_attrs (<[k := v]> (attrs el)) el.
Definition getAttribute (k : string) (el : Element) : option string :=
  attrs el !! k.
Definition setStyle (k : string) (v : StyleValue) (el : Element) : Element :=
  set_style (<[k := v]> (style el)) el.

(** What the code reads from markup and layout it does not own. *)
Record Env := mkEnv {
  hasWindow : bool;
  hasDocument : bool;
  body : option Elem;
  querySelectorAll : option Elem → string → list Elem;
  children : Elem → list Elem;
  childNodes : Elem → list (string + Elem);
  closest : Elem → string → option Elem;
  contains : Elem → Elem → bool;
  dataset : Elem → string → string;
  offsetWidth : Elem → Q;
  computedGap : Elem → option Q;
  matchMedia : string → bool;
  innerWidth : Q;
  innerHeight : Q
}.

(** [querySelector] is the first match of [querySelectorAll]. *)
Definition querySelector (v : Env) (scope : option Elem) (sel : string)
  : option Elem := head (querySelectorAll v scope sel).

End Dom.

(** ** The browser: scheduler, listeners, console *)

Module Browser.
Import Dom.

(** How a call completes. *)
Inductive Completion (A : Type) :=
| Normal (a : A)
| Throw (err : string).
Arguments Normal {A} a.
Arguments Throw {A} err.

(** A computation over a state [S]; the state survives a throw. *)
Definition M (S A : Type) : Type := S → Completion A * S.

Definition ret {S A} (a : A) : M S A := λ s, (Normal a, s).
Definition bind {S A B} (m : M S A) (k : A → M S B) : M S B :=
  λ s, match m s with
       | (Normal a, s') => k a s'
       | (Throw e, s') => (Throw e, s')
       end.
Definition throw {S A} (e : string) : M S A := λ s, (Throw e, s).
Definition get {S} : M S S := λ s, (Normal s, s).
Definition modify {S} (f : S → S) : M S unit := λ s, (Normal tt, f s).

(** [forEach]. *)
Fixpoint forEach {S A} (f : A → M S unit) (l : list A) : M S unit :=
  match l with
  | [] => ret tt
  | x :: l' => bind (f x) (λ _, forEach f l')
  end.

(** [map] with a callback that acts on the state. *)
Fixpoint mapM {S A B} (f : A → M S B) (l : list A) : M S (list B) :=
  match l with
  | [] => ret []
  | x :: l' => bind (f x) (λ y, bind (mapM f l') (λ ys, ret (y :: ys)))
  end.

(** Dereferencing a value that may be [null]. *)
Definition deref {S A} (o : option A) : M S A :=
  match o with
  | Some a => ret a
  | None => throw "TypeError"
  end.

Definition completed {A S} (r : Completion A * S) : bool :=
  match r with (Normal _, _) => true | _ => false end.

(** What a callback is called with. *)
Inductive Arg (P : Type) :=
| NoArg
| Timestamp (t : option Q)
| EventArg (e : P).
Arguments NoArg {P}.
Arguments Timestamp {P} t.
Arguments EventArg {P} e.

(** What the browser does to a page; [P] is the payload of a DOM event. *)
Inductive Event (P : Type) :=
| Tick (d : Q)
| ScrollTo (y : Q)
| Relayout (v : Dom.Env)
| Frame (t : option Q)
| Dispatch (target : Target) (type : string) (e : P).
Arguments Tick {P} d.
Arguments ScrollTo {P} y.
Arguments Relayout {P} v.
Arguments Frame {P} t.
Arguments Dispatch {P} target type e.

Section World.
Context {Cb : Type} `{EqDecision Cb}.

Record Listener := mkListener {
  l_target : Target;
  l_type : string;
  l_cb : Cb;
  l_capture : bool
}.

#[global] Instance Listener_eq_dec : EqDecision Listener.
Proof. solve_decision. Defined.

Record World := mkWorld {
  env : Env;
  now : Q;
  scrollY : Q;
  dom : gmap Elem Element;
  next_elem : Elem;
  frames : list (nat * Cb);
  next_frame : nat;
  timers : list (nat * (Q * Cb));
  next_timer : nat;
  listeners : list Listener;
  console : list (string * string);
  calls : list Cb
}.

Definition set_env (v : Env) (x : World) : World :=
  mkWorld v (now x) (scrollY x) (dom x) (next_elem x) (frames x) (next_frame
    x) (timers x) (next_timer x) (listeners x) (console x) (calls x).
Definition set_now (v : Q) (x : World) : World :=
  mkWorld (env x) v (scrollY x) (dom x) (next_elem x) (frames x) (next_frame
    x) (timers x) (next_timer x) (listeners x) (console x) (calls x).
Definition set_scrollY (v : Q) (x : World) : World :=
  mkWorld (env x) (now x) v (dom x) (next_elem x) (frames x) (next_frame x)
    (timers x) (next_timer x) (listeners x) (console x) (calls x).
Definition set_dom (v : gmap Elem Element) (x : World) : World :=
  mkWorld (env x) (now x) (scrollY x) v (next_elem x) (frames x) (next_frame
    x) (timers x) (next_timer x) (listeners x) (console x) (calls x).
Definition set_next_elem (v : Elem) (x : World) : World :=
  mkWorld (env x) (now x) (scrollY x) (dom x) v (frames x) (next_frame x)
    (timers x) (next_timer x) (listeners x) (console x) (calls x).
Definition set_frames (v : list (nat * Cb)) (x : World) : World :=
  mkWorld (env x) (now x) (scrollY x) (dom x) (next_elem x) v (next_frame x)
    (timers x) (next_timer x) (listeners x) (console x) (calls x).
Definition set_next_frame (v : nat) (x : World) : World :=
  mkWorld (env x) (now x) (scrollY x) (dom x) (next_elem x) (frames x) v
    (timers x) (next_timer x) (listeners x) (console x) (calls x).
Definition set_timers (v : list (nat * (Q * Cb))) (x : World) : World :=
  mkWorld (env x) (now x) (scrollY x) (dom x) (next_elem x) (frames x)
    (next_frame x) v (next_timer x) (listeners x) (console x) (calls x).
Definition set_next_timer (v : nat) (x : World) : World :=
  mkWorld (env x) (now x) (scrollY x) (dom x) (next_elem x) (frames x)
    (next_frame x) (timers x) v (listeners x) (console x) (calls x).
Definition set_listeners (v : list Listener) (x : World) : World :=
  mkWorld (env x) (now x) (scrollY x) (dom x) (next_elem x) (frames x)
    (next_frame x) (timers x) (next_timer x) v (console x) (calls x).
Definition set_console (v : list (string * string)) (x : World) : World :=
  mkWorld (env x) (now x) (scrollY x) (dom x) (next_elem x) (frames x)
    (next_frame x) (timers x) (next_timer x) (listeners x) v (calls x).
Definition set_calls (v : list Cb) (x : World) : World :=
  mkWorld (env x) (now x) (scrollY x) (dom x) (next_elem x) (frames x)
    (next_frame x) (timers x) (next_timer x) (listeners x) (console x) v.

(** *** Scheduling *)

(** Handles are positive and never reused. *)
Definition requestAnimationFrame (cb : Cb) (w : World) : nat * World :=
  let id := S (next_frame w) in
  (id, set_next_frame id (set_frames (frames w ++ [(id, cb)]) w)).

Definition cancelAnimationFrame (id : nat) (w : World) : World :=
  set_frames (filter (λ f, f.1 ≠ id) (frames w)) w.

Definition setTimeout (cb : Cb) (delay : Q) (w : World) : nat * World :=
  let id := S (next_timer w) in
  (id, set_next_timer id
         (set_timers (timers w ++ [(id, ((now w + delay)%Q, cb))]) w)).

Definition clearTimeout (id : nat) (w : World) : World :=
  set_timers (filter (λ t, t.1 ≠ id) (timers w)) w.

(** *** Event listeners *)

(** A listener is identified by target, type, callback and capture flag;
    adding it a second time does nothing. *)
Definition addEventListener (t : Target) (ty : string) (cb : Cb)
    (capture : bool) (w : World) : World :=
  let l := mkListener t ty cb capture in
  if bool_decide (l ∈ listeners w) then w
  else set_listeners (listeners w ++ [l]) w.

Definition removeEventListener (t : Target) (ty : string) (cb : Cb)
    (capture : bool) (w : World) : World :=
  set_listeners (filter (λ l, l ≠ mkListener t ty cb capture) (listeners w)) w.

(** *** The DOM *)

Definition createElement (w : World) : Elem * World :=
  let e := S (next_elem w) in
  (e, set_next_elem e (set_dom (<[e := blank]> (dom w)) w)).

(** [cloneNode(true)]: a detached copy under a fresh reference. *)
Definition cloneNode (src : Elem) (w : World) : Elem * World :=
  let e := S (next_elem w) in
  (e, set_next_elem e
        (set_dom (<[e := set_parentNode None (getElem (dom w) src)]> (dom w)) w)).

Definition update (f : Element → Element) (e : Elem) (w : World) : World :=
  set_dom (updElem f e (dom w)) w.

Definition appendChild (parent child : Elem) (w : World) : World :=
  update (set_parentNode (Some parent)) child w.

Definition removeChild (parent child : Elem) (w : World) : World :=
  update (set_parentNode None) child w.

Definition console_log (level msg : string) (w : World) : World :=
  set_console (console w ++ [(level, msg)]) w.

End World.
Arguments Listener Cb : clear implicits.
Arguments World Cb : clear implicits.

(** *** Methods: computations over the instance and the world *)

Section Method.
Context {Cb T : Type} `{EqDecision Cb}.

Definition Method (A : Type) : Type := M (T * World Cb) A.

Definition this : Method T := λ s, (Normal s.1, s).
Definition world : Method (World Cb) := λ s, (Normal s.2, s).
Definition assign (f : T → T) : Method unit := modify (λ s, (f s.1, s.2)).
Definition effect (f : World Cb → World Cb) : Method unit :=
  modify (λ s, (s.1, f s.2)).
Definition call {A} (f : World Cb → A * World Cb) : Method A :=
  λ s, let r := f s.2 in (Normal r.1, (s.1, r.2)).

End Method.

(** *** The event loop *)

Section Loop.
Context {Cb T P : Type} `{EqDecision Cb}.
(** How the page runs one of its callbacks. *)
Variable invoke : Cb → Arg P → Method (Cb := Cb) (T := T) unit.

(** The browser runs a callback: the call is recorded, and an exception
    that escapes it is reported on the console. *)
Definition run (cb : Cb) (a : Arg P) : Method (Cb := Cb) (T := T) unit :=
  λ st,
    let st := (st.1, set_calls (calls st.2 ++ [cb]) st.2) in
    match invoke cb a st with
    | (Normal _, st') => (Normal tt, st')
    | (Throw e, st') => (Normal tt, (st'.1, console_log "error" e st'.2))
    end.

(** A frame: the callbacks pending when it starts run once each, unless
    cancelled meanwhile; those requested meanwhile wait for the next. *)
Definition runFrame (t : option Q) : Method (Cb := Cb) (T := T) unit :=
  bind world (λ w,
    forEach (λ f : nat * Cb,
      bind world (λ w',
        if bool_decide (f ∈ frames w') then
          bind (effect (cancelAnimationFrame f.1)) (λ _, run f.2 (Timestamp t))
        else ret tt)) (frames w)).

(** The pending timer to run next: the earliest one that is due, the
    older one first among equals. *)
Fixpoint earliest (now : Q) (ts : list (nat * (Q * Cb)))
  : option (nat * (Q * Cb)) :=
  match ts with
  | [] => None
  | t :: ts' =>
      if Qle_bool t.2.1 now then
        match earliest now ts' with
        | Some t' => if Qle_bool t.2.1 t'.2.1 then Some t else Some t'
        | None => Some t
        end
      else earliest now ts'
  end.

Fixpoint runTimers (fuel : nat) : Method (Cb := Cb) (T := T) unit :=
  match fuel with
  | O => ret tt
  | S fuel' =>
      bind world (λ w,
        match earliest (now w) (timers w) with
        | Some t =>
            bind (effect (clearTimeout t.1)) (λ _,
            bind (run t.2.2 NoArg) (λ _, runTimers fuel'))
        | None => ret tt
        end)
  end.

(** Time passes, then the timers that have become due run. *)
Definition tick (d : Q) : Method (Cb := Cb) (T := T) unit :=
  bind (effect (λ w, set_now (now w + d)%Q w)) (λ _,
  bind world (λ w, runTimers (length (timers w)))).

(** A DOM event reaches [target]: the listeners registered there for its
    type run in the order they were added, unless removed meanwhile. *)
Definition dispatch (target : Target) (type : string) (e : P)
  : Method (Cb := Cb) (T := T) unit :=
  bind world (λ w,
    forEach (λ l : Listener Cb,
      bind world (λ w',
        if bool_decide (l ∈ listeners w') then run (l_cb l) (EventArg e)
        else ret tt))
      (filter (λ l, l_target l = target ∧ l_type l = type) (listeners w))).

Definition step (ev : Event P) : Method (Cb := Cb) (T := T) unit :=
  match ev with
  | Tick d => tick d
  | ScrollTo y => effect (set_scrollY y)
  | Relayout v => effect (set_env v)
  | Frame t => runFrame t
  | Dispatch target type e => dispatch target type e
  end.

(** The loop never throws: [step] always completes. *)
Definition steps (evs : list (Event P)) : Method (Cb := Cb) (T := T) unit :=
  forEach step evs.

End Loop.

(** What is said of a computation.  It keeps an observation [π] of the
    state when, whatever it returns or throws, [π] reads the same
    afterwards; it maintains an invariant [I] when [I] holds afterwards
    wherever it held before; it is total when it always completes
    normally. *)
Section Keeps.
Context {S X : Type} (π : S → X).

Definition keeps {A} (m : M S A) : Prop := ∀ s, π (m s).2 = π s.
End Keeps.

Section Maintains.
Context {S : Type} (I : S → Prop).

Definition maintains {A} (m : M S A) : Prop := ∀ s, I s → I (m s).2.
End Maintains.

Section Total.
Context {S : Type}.

Definition total (m : M S unit) : Prop := ∀ s, (m s).1 = Normal tt.
End Total.

(** A method is safe under an invariant of the instance and one of the
    world: started where both hold, it completes normally and both hold
    again. *)
Section Safe.
Context {Cb T : Type} (Ps : T → Prop) (Pw : World Cb → Prop).

Definition safe {A} (m : M (T * World Cb) A) : Prop :=
  ∀ s w, Ps s → Pw w →
    ∃ a s' w', m (s, w) = (Normal a, (s', w')) ∧ Ps s' ∧ Pw w'.
End Safe.

Module Notations.
Declare Scope method_scope.
Delimit Scope method_scope with method.
Notation "x <- m ;; k" := (bind m (λ x, k))
  (at level 100, m at next level, right associativity) : method_scope.
Notation "m ;; k" := (bind m (λ _, k))
  (at level 100, right associativity) : method_scope.
End Notations.

End Browser.

(** ** LoopSlider.js *)

Module LoopSlider.
Import Js Dom Browser Browser.Notations.
Local Open Scope Q_scope.

(** The options object after the defaults are merged in. *)
Record Options := mkOptions {
  speed : Q;
  gap : option Q;
  reverse : bool;
  effect : string;
  scrollSpeed : Q;
  draggable : bool;
  inertia : Q
}.

Definition set_draggable (v : bool) (o : Options) : Options :=
  mkOptions (speed o) (gap o) (reverse o) (effect o) (scrollSpeed o) v
    (inertia o).

(** The options the caller passes: every key may be left out. *)
Record UserOptions := mkUserOptions {
  u_speed : option Q;
  u_gap : option Q;
  u_reverse : option bool;
  u_effect : option string;
  u_scrollSpeed : option Q;
  u_draggable : option bool;
  u_inertia : option Q
}.

Definition merge (u : UserOptions) : Options :=
  {| speed := default 50 (u_speed u);
     gap := u_gap u;
     reverse := default false (u_reverse u);
     effect := default "draggable"%string (u_effect u);
     scrollSpeed := default (1 # 2) (u_scrollSpeed u);
     draggable := default true (u_draggable u);
     inertia := default (95 # 100) (u_inertia u) |}.

Record Slider := mkSlider {
  container : Elem;
  slides : list Elem;
  options : Options;
  baseX : Q;
  dragX : Q;
  isDragging : bool;
  startX : Q;
  currentX : Q;
  animation : option nat;
  wrapper : option Elem;
  resizeTimeout : option nat;
  smoothedScrollY : Q;
  lastSmoothedScrollY : Q;
  velocity : Q;
  lastDragX : Q;
  lastTime : Q;
  startDragX : Q;
  slideWidth : Q;
  totalWidth : Q;
  lastFrameTime : option Q
}.

Definition set_options (v : Options) (x : Slider) : Slider :=
  mkSlider (container x) (slides x) v (baseX x) (dragX x) (isDragging x)
    (startX x) (currentX x) (animation x) (wrapper x) (resizeTimeout x)
    (smoothedScrollY x) (lastSmoothedScrollY x) (velocity x) (lastDragX x)
    (lastTime x) (startDragX x) (slideWidth x) (totalWidth x) (lastFrameTime
    x).
Definition set_baseX (v : Q) (x : Slider) : Slider :=
  mkSlider (container x) (slides x) (options x) v (dragX x) (isDragging x)
    (startX x) (currentX x) (animation x) (wrapper x) (resizeTimeout x)
    (smoothedScrollY x) (lastSmoothedScrollY x) (velocity x) (lastDragX x)
    (lastTime x) (startDragX x) (slideWidth x) (totalWidth x) (lastFrameTime
    x).
Definition set_dragX (v : Q) (x : Slider) : Slider :=
  mkSlider (container x) (slides x) (options x) (baseX x) v (isDragging x)
    (startX x) (currentX x) (animation x) (wrapper x) (resizeTimeout x)
    (smoothedScrollY x) (lastSmoothedScrollY x) (velocity x) (lastDragX x)
    (lastTime x) (startDragX x) (slideWidth x) (totalWidth x) (lastFrameTime
    x).
Definition set_isDragging (v : bool) (x : Slider) : Slider :=
  mkSlider (container x) (slides x) (options x) (baseX x) (dragX x) v (startX
    x) (currentX x) (animation x) (wrapper x) (resizeTimeout x)
    (smoothedScrollY x) (lastSmoothedScrollY x) (velocity x) (lastDragX x)
    (lastTime x) (startDragX x) (slideWidth x) (totalWidth x) (lastFrameTime
    x).
Definition set_startX (v : Q) (x : Slider) : Slider :=
  mkSlider (container x) (slides x) (options x) (baseX x) (dragX x)
    (isDragging x) v (currentX x) (animation x) (wrapper x) (resizeTimeout x)
    (smoothedScrollY x) (lastSmoothedScrollY x) (velocity x) (lastDragX x)
    (lastTime x) (startDragX x) (slideWidth x) (totalWidth x) (lastFrameTime
    x).
Definition set_currentX (v : Q) (x : Slider) : Slider :=
  mkSlider (container x) (slides x) (options x) (baseX x) (dragX x)
    (isDragging x) (startX x) v (animation x) (wrapper x) (resizeTimeout x)
    (smoothedScrollY x) (lastSmoothedScrollY x) (velocity x) (lastDragX x)
    (lastTime x) (startDragX x) (slideWidth x) (totalWidth x) (lastFrameTime
    x).
Definition set_animation (v : option nat) (x : Slider) : Slider :=
  mkSlider (container x) (slides x) (options x) (baseX x) (dragX x)
    (isDragging x) (startX x) (currentX x) v (wrapper x) (resizeTimeout x)
    (smoothedScrollY x) (lastSmoothedScrollY x) (velocity x) (lastDragX x)
    (lastTime x) (startDragX x) (slideWidth x) (totalWidth x) (lastFrameTime
    x).
Definition set_wrapper (v : option Elem) (x : Slider) : Slider :=
  mkSlider (container x) (slides x) (options x) (baseX x) (dragX x)
    (isDragging x) (startX x) (currentX x) (animation x) v (resizeTimeout x)
    (smoothedScrollY x) (lastSmoothedScrollY x) (velocity x) (lastDragX x)
    (lastTime x) (startDragX x) (slideWidth x) (totalWidth x) (lastFrameTime
    x).
Definition set_resizeTimeout (v : option nat) (x : Slider) : Slider :=
  mkSlider (container x) (slides x) (options x) (baseX x) (dragX x)
    (isDragging x) (startX x) (currentX x) (animation x) (wrapper x) v
    (smoothedScrollY x) (lastSmoothedScrollY x) (velocity x) (lastDragX x)
    (lastTime x) (startDragX x) (slideWidth x) (totalWidth x) (lastFrameTime
    x).
Definition set_smoothedScrollY (v : Q) (x : Slider) : Slider :=
  mkSlider (container x) (slides x) (options x) (baseX x) (dragX x)
    (isDragging x) (startX x) (currentX x) (animation x) (wrapper x)
    (resizeTimeout x) v (lastSmoothedScrollY x) (velocity x) (lastDragX x)
    (lastTime x) (startDragX x) (slideWidth x) (totalWidth x) (lastFrameTime
    x).
Definition set_lastSmoothedScrollY (v : Q) (x : Slider) : Slider :=
  mkSlider (container x) (slides x) (options x) (baseX x) (dragX x)
    (isDragging x) (startX x) (currentX x) (animation x) (wrapper x)
    (resizeTimeout x) (smoothedScrollY x) v (velocity x) (lastDragX x)
    (lastTime x) (startDragX x) (slideWidth x) (totalWidth x) (lastFrameTime
    x).
Definition set_velocity (v : Q) (x : Slider) : Slider :=
  mkSlider (container x) (slides x) (options x) (baseX x) (dragX x)
    (isDragging x) (startX x) (currentX x) (animation x) (wrapper x)
    (resizeTimeout x) (smoothedScrollY x) (lastSmoothedScrollY x) v (lastDragX
    x) (lastTime x) (startDragX x) (slideWidth x) (totalWidth x)
    (lastFrameTime x).
Definition set_lastDragX (v : Q) (x : Slider) : Slider :=
  mkSlider (container x) (slides x) (options x) (baseX x) (dragX x)
    (isDragging x) (startX x) (currentX x) (animation x) (wrapper x)
    (resizeTimeout x) (smoothedScrollY x) (lastSmoothedScrollY x) (velocity x)
    v (lastTime x) (startDragX x) (slideWidth x) (totalWidth x) (lastFrameTime
    x).
Definition set_lastTime (v : Q) (x : Slider) : Slider :=
  mkSlider (container x) (slides x) (options x) (baseX x) (dragX x)
    (isDragging x) (startX x) (currentX x) (animation x) (wrapper x)
    (resizeTimeout x) (smoothedScrollY x) (lastSmoothedScrollY x) (velocity x)
    (lastDragX x) v (startDragX x) (slideWidth x) (totalWidth x)
    (lastFrameTime x).
Definition set_startDragX (v : Q) (x : Slider) : Slider :=
  mkSlider (container x) (slides x) (options x) (baseX x) (dragX x)
    (isDragging x) (startX x) (currentX x) (animation x) (wrapper x)
    (resizeTimeout x) (smoothedScrollY x) (lastSmoothedScrollY x) (velocity x)
    (lastDragX x) (lastTime x) v (slideWidth x) (totalWidth x) (lastFrameTime
    x).
Definition set_slideWidth (v : Q) (x : Slider) : Slider :=
  mkSlider (container x) (slides x) (options x) (baseX x) (dragX x)
    (isDragging x) (startX x) (currentX x) (animation x) (wrapper x)
    (resizeTimeout x) (smoothedScrollY x) (lastSmoothedScrollY x) (velocity x)
    (lastDragX x) (lastTime x) (startDragX x) v (totalWidth x) (lastFrameTime
    x).
Definition set_totalWidth (v : Q) (x : Slider) : Slider :=
  mkSlider (container x) (slides x) (options x) (baseX x) (dragX x)
    (isDragging x) (startX x) (currentX x) (animation x) (wrapper x)
    (resizeTimeout x) (smoothedScrollY x) (lastSmoothedScrollY x) (velocity x)
    (lastDragX x) (lastTime x) (startDragX x) (slideWidth x) v (lastFrameTime
    x).
Definition set_lastFrameTime (v : option Q) (x : Slider) : Slider :=
  mkSlider (container x) (slides x) (options x) (baseX x) (dragX x)
    (isDragging x) (startX x) (currentX x) (animation x) (wrapper x)
    (resizeTimeout x) (smoothedScrollY x) (lastSmoothedScrollY x) (velocity x)
    (lastDragX x) (lastTime x) (startDragX x) (slideWidth x) (totalWidth x) v.

(** The functions of an instance that the browser holds on to. *)
Inductive Cb :=
| UpdatePosition
| ResizeTimer
| HandleResize
| OnPointerDown
| OnPointerMove
| OnPointerUp.

#[global] Instance Cb_eq_dec : EqDecision Cb.
Proof. solve_decision. Defined.

(** A mouse or touch event as the handlers read it. *)
Record PointerEvent := mkPointerEvent {
  e_type : string;
  e_clientX : Q;
  e_touches : option (list Q)
}.

(** The first argument of the constructor. *)
Inductive Selector :=
| SelString (s : string)
| SelElement (e : option Elem).

(** What [new LoopSlider(...)] evaluates to: after an early return only the
    fields assigned so far exist. *)
Inductive Instance :=
| NoContainer
| NoSlides (container : Elem)
| Ready (s : Slider).

Section Methods.
Context {C : Type} `{EqDecision C}.
(** [bound f]: the function [f] of this instance as the browser sees it. *)
Variable bound : Cb → C.
(** [Math.pow], which has no rational counterpart. *)
Variable Math_pow : Q → Q → Q.

Local Open Scope method_scope.
Local Abbreviation Method := (Method (Cb := C) (T := Slider)).

Definition pointerX (e : PointerEvent) : Method Q :=
  match e_touches e with
  | Some ts => deref (head ts)
  | None => ret (e_clientX e)
  end.

Definition getGap : Method Q :=
  s <- this ;;
  match gap (options s) with
  | Some g => ret g
  | None =>
      wr <- deref (wrapper s) ;;
      w <- world ;;
      ret (default 0 (computedGap (env w) wr))
  end.

Definition updateDimensions : Method unit :=
  gap <- getGap ;;
  s <- this ;;
  w <- world ;;
  first <- deref (head (slides s)) ;;
  assign (set_slideWidth (offsetWidth (env w) first + gap)) ;;
  s <- this ;;
  assign (set_totalWidth (slideWidth s * inject_Z (Z.of_nat (length (slides s))))) ;;
  s <- this ;;
  if gtb (totalWidth s) 0 then
    let progress := baseX s / totalWidth s in
    assign (set_baseX (progress * totalWidth s))
  else ret tt.

Definition wrapperStyle (o : Options) : list (string * StyleValue) :=
  ([("position", Css "absolute"); ("left", Css "0"); ("top", Css "0");
   ("display", Css "flex"); ("willChange", Css "transform");
   ("backfaceVisibility", Css "hidden");
   ("WebkitBackfaceVisibility", Css "hidden");
   ("perspective", Css "1000px"); ("WebkitPerspective", Css "1000px");
   ("transformStyle", Css "preserve-3d");
   ("WebkitTransformStyle", Css "preserve-3d")]%string
  ++ match gap o with Some g => [("gap"%string, Px g)] | None => [] end)%list.

Definition slideStyle : list (string * StyleValue) :=
  [("flexShrink", Css "0"); ("backfaceVisibility", Css "hidden");
   ("WebkitBackfaceVisibility", Css "hidden");
   ("transform", Css "translateZ(0)")]%string.

Definition assignStyle (e : Elem) (kvs : list (string * StyleValue))
  : Method unit :=
  forEach (λ kv, Browser.effect (update (setStyle kv.1 kv.2) e)) kvs.

Definition setupSlider : Method unit :=
  wr <- call createElement ;;
  assign (set_wrapper (Some wr)) ;;
  Browser.effect (update (set_className ["c-loop-slider__wrapper"%string]) wr) ;;
  s <- this ;;
  forEach (λ slide, Browser.effect (appendChild wr slide)) (slides s) ;;
  clones1 <- mapM (λ slide, call (cloneNode slide)) (slides s) ;;
  forEach (λ clone, Browser.effect (appendChild wr clone)) clones1 ;;
  clones2 <- mapM (λ slide, call (cloneNode slide)) (slides s) ;;
  forEach (λ clone, Browser.effect (appendChild wr clone)) clones2 ;;
  clones3 <- mapM (λ slide, call (cloneNode slide)) (slides s) ;;
  forEach (λ clone, Browser.effect (appendChild wr clone)) clones3 ;;
  Browser.effect (appendChild (container s) wr) ;;
  assignStyle wr (wrapperStyle (options s)) ;;
  let allSlides := (slides s ++ clones1 ++ clones2 ++ clones3)%list in
  forEach (λ slide, assignStyle slide slideStyle) allSlides ;;
  updateDimensions.

Definition setupResize : Method unit :=
  Browser.effect (addEventListener Window "resize" (bound HandleResize) false).

Definition handleResize : Method unit :=
  s <- this ;;
  (if truthy_handle (resizeTimeout s) then
     Browser.effect (clearTimeout (default O (resizeTimeout s)))
   else ret tt) ;;
  id <- call (setTimeout (bound ResizeTimer) 150) ;;
  assign (set_resizeTimeout (Some id)).

(** The arrow function handed to [setTimeout] by [handleResize]. *)
Definition resizeTimer : Method unit := updateDimensions.

(** [x.toFixed(2)]: the nearest multiple of 1/100, halves away from zero. *)
Definition toFixed2 (x : Q) : Q :=
  let scaled := x * 100 in
  let n := if Qle_bool 0 scaled then Qfloor (scaled + (1 # 2))
           else Qceiling (scaled - (1 # 2)) in
  inject_Z n / 100.

(** [direction], fixed when [startAutoScroll] runs; the options do not
    change afterwards. *)
Definition direction (s : Slider) : Q :=
  if reverse (options s) then -1 else 1.

Definition isScroll (s : Slider) : bool :=
  bool_decide (effect (options s) = "scroll"%string).

(** Lines 231-249: bring the total position back into the loop range. *)
Definition loopCorrection (s : Slider) : Slider :=
  let currentX := baseX s + dragX s in
  let loopMin := - totalWidth s * 2 in
  let loopMax := - totalWidth s in
  if ltb currentX loopMin then
    let diff := loopMin - currentX in
    let count := Math_ceil (diff / totalWidth s) in
    set_baseX (baseX s + totalWidth s * count) s
  else if gtb currentX loopMax then
    let diff := currentX - loopMax in
    let count := Math_ceil (diff / totalWidth s) in
    set_baseX (baseX s - totalWidth s * count) s
  else s.

(** Lines 190-200: follow the page scroll with a lerp. *)
Definition scrollFollow : Method Q :=
  s <- this ;;
  if isScroll s then
    w <- world ;;
    let currentScrollY := scrollY w in
    assign (set_smoothedScrollY
              (smoothedScrollY s + (currentScrollY - smoothedScrollY s) * (1 # 10))) ;;
    s <- this ;;
    let diff := smoothedScrollY s - lastSmoothedScrollY s in
    assign (set_lastSmoothedScrollY (smoothedScrollY s)) ;;
    ret (diff * scrollSpeed (options s))
  else ret 0.

(** Lines 202-213. *)
Definition autoScroll (dt scrollMove : Q) (s : Slider) : Slider :=
  if negb (isDragging s) then
    let move := speed (options s) * dt in
    let move := if isScroll s then move + scrollMove else move in
    set_baseX (baseX s - move * direction s) s
  else s.

(** Lines 215-229. *)
Definition inertiaStep (dt : Q) (s : Slider) : Slider :=
  if negb (isDragging s) && gtb (Math_abs (velocity s)) 10 then
    let s := set_dragX (dragX s + velocity s * dt) s in
    let friction := inertia (options s) in
    let timeAdjustedFriction := Math_pow friction (dt * 60) in
    set_velocity (velocity s * timeAdjustedFriction) s
  else if negb (isDragging s) && negb (Qeq_bool (dragX s) 0) then
    let s := set_baseX (baseX s + dragX s) s in
    let s := set_dragX 0 s in
    set_velocity 0 s
  else s.

(** The closure [updatePosition] of [startAutoScroll]; its variable
    [lastFrameTime] is kept with the instance.  The body after the first
    frame is cut in two at line 231: the motion of the frame, then the
    loop correction and the rendering. *)
Definition frameTime (timestamp : option Q) (w : World C) : Q :=
  if falsy_opt timestamp then now w else default 0 timestamp.

(** Lines 184-229. *)
Definition frameMotion (timestamp : Q) : Method unit :=
  s <- this ;;
  let deltaTime := (timestamp - default 0 (lastFrameTime s)) / 1000 in
  assign (set_lastFrameTime (Some timestamp)) ;;
  let dt := if gtb deltaTime (1 # 10) then 1 # 10 else deltaTime in
  scrollMove <- scrollFollow ;;
  assign (autoScroll dt scrollMove) ;;
  assign (inertiaStep dt).

(** Lines 231-256. *)
Definition frameRender : Method unit :=
  assign loopCorrection ;;
  s <- this ;;
  let finalX := baseX s + dragX s in
  wr <- deref (wrapper s) ;;
  Browser.effect (update (setStyle "transform" (Translate3d (toFixed2 finalX) 0)) wr) ;;
  id <- call (requestAnimationFrame (bound UpdatePosition)) ;;
  assign (set_animation (Some id)).

Definition updatePosition (timestamp : option Q) : Method unit :=
  w <- world ;;
  let timestamp := frameTime timestamp w in
  s <- this ;;
  if falsy_opt (lastFrameTime s) then
    assign (set_lastFrameTime (Some timestamp)) ;;
    id <- call (requestAnimationFrame (bound UpdatePosition)) ;;
    assign (set_animation (Some id))
  else
    frameMotion timestamp ;;
    frameRender.

Definition startAutoScroll : Method unit :=
  assign (set_lastFrameTime None) ;;
  s <- this ;;
  assign (set_baseX (- totalWidth s)) ;;
  id <- call (requestAnimationFrame (bound UpdatePosition)) ;;
  assign (set_animation (Some id)).

Definition setCursor (v : string) : Method unit :=
  s <- this ;;
  Browser.effect (update (setStyle "cursor" (Css v)) (container s)).

Definition setupDraggable : Method unit :=
  s <- this ;;
  if negb (draggable (options s)) then setCursor ""
  else
    setCursor "grab" ;;
    Browser.effect (addEventListener (Node (container s)) "mousedown" (bound OnPointerDown) false) ;;
    Browser.effect (addEventListener (Node (container s)) "touchstart" (bound OnPointerDown) false) ;;
    Browser.effect (addEventListener Document "mousemove" (bound OnPointerMove) false) ;;
    Browser.effect (addEventListener Document "touchmove" (bound OnPointerMove) false) ;;
    Browser.effect (addEventListener Document "mouseup" (bound OnPointerUp) false) ;;
    Browser.effect (addEventListener Document "touchend" (bound OnPointerUp) false).

(** [e.preventDefault()] on a mousedown acts on the browser's own default
    handling only and leaves no trace in the world. *)
Definition onPointerDown (e : PointerEvent) : Method unit :=
  assign (set_isDragging true) ;;
  x <- pointerX e ;;
  assign (set_startX x) ;;
  s <- this ;;
  assign (set_startDragX (dragX s)) ;;
  assign (set_velocity 0) ;;
  assign (set_lastDragX (dragX s)) ;;
  w <- world ;;
  assign (set_lastTime (now w)) ;;
  setCursor "grabbing".

Definition onPointerMove (e : PointerEvent) : Method unit :=
  s <- this ;;
  if negb (isDragging s) then ret tt
  else
    x <- pointerX e ;;
    assign (set_currentX x) ;;
    s <- this ;;
    let diff := currentX s - startX s in
    assign (set_dragX (startDragX s + diff)) ;;
    w <- world ;;
    let now := now w in
    s <- this ;;
    let deltaTime := now - lastTime s in
    (if gtb deltaTime 0 then
       let v := ((dragX s - lastDragX s) / deltaTime) * 1000 in
       assign (set_velocity (velocity s * (2 # 10) + v * (8 # 10)))
     else ret tt) ;;
    assign (set_lastDragX (dragX s)) ;;
    assign (set_lastTime now).

Definition onPointerUp : Method unit :=
  s <- this ;;
  if negb (isDragging s) then ret tt
  else
    assign (set_isDragging false) ;;
    setCursor "grab".

Definition destroy : Method unit :=
  s <- this ;;
  (if truthy_handle (animation s) then
     Browser.effect (cancelAnimationFrame (default O (animation s)))
   else ret tt) ;;
  (if truthy_handle (resizeTimeout s) then
     Browser.effect (clearTimeout (default O (resizeTimeout s)))
   else ret tt) ;;
  Browser.effect (removeEventListener Window "resize" (bound HandleResize) false) ;;
  Browser.effect (removeEventListener (Node (container s)) "mousedown" (bound OnPointerDown) false) ;;
  Browser.effect (removeEventListener (Node (container s)) "touchstart" (bound OnPointerDown) false) ;;
  Browser.effect (removeEventListener Document "mousemove" (bound OnPointerMove) false) ;;
  Browser.effect (removeEventListener Document "touchmove" (bound OnPointerMove) false) ;;
  Browser.effect (removeEventListener Document "mouseup" (bound OnPointerUp) false) ;;
  Browser.effect (removeEventListener Document "touchend" (bound OnPointerUp) false).

Definition init : Method unit :=
  setupSlider ;;
  startAutoScroll ;;
  setupDraggable ;;
  setupResize.

(** The fields the constructor assigns before it calls [init]. *)
Definition fresh (c : Elem) (sl : list Elem) (o : Options) (w : World C)
  : Slider :=
  {| container := c; slides := sl; options := o;
     baseX := 0; dragX := 0; isDragging := false; startX := 0; currentX := 0;
     animation := None; wrapper := None; resizeTimeout := None;
     smoothedScrollY := scrollY w; lastSmoothedScrollY := scrollY w;
     velocity := 0; lastDragX := 0; lastTime := 0;
     startDragX := 0; slideWidth := 0; totalWidth := 0;
     lastFrameTime := None |}.

Definition constructor (selector : Selector) (u : UserOptions)
  : M (World C) Instance :=
  λ w,
    let container :=
      match selector with
      | SelString sel => querySelector (env w) None sel
      | SelElement e => e
      end in
    match container with
    | None => (Normal NoContainer, w)
    | Some c =>
        let slides := children (env w) c in
        if bool_decide (length slides = 0%nat) then (Normal (NoSlides c), w)
        else
          let o := merge u in
          let o := if bool_decide (effect o = "scroll"%string)
                   then set_draggable false o else o in
          match init (fresh c slides o w, w) with
          | (Normal _, (s, w')) => (Normal (Ready s), w')
          | (Throw e, (_, w')) => (Throw e, w')
          end
    end.

(** How the browser calls back into the instance. *)
Definition invoke (cb : Cb) (a : Arg PointerEvent) : Method unit :=
  match cb, a with
  | UpdatePosition, Timestamp t => updatePosition t
  | UpdatePosition, _ => updatePosition None
  | ResizeTimer, _ => resizeTimer
  | HandleResize, _ => handleResize
  | OnPointerDown, EventArg e => onPointerDown e
  | OnPointerMove, EventArg e => onPointerMove e
  | OnPointerUp, _ => onPointerUp
  | _, _ => throw "TypeError"
  end.

End Methods.

(** The position a slider shows, and the loop range it is kept in: one
    period, in the negative band. *)
Definition position (s : Slider) : Q := baseX s + dragX s.

Definition inLoopRange (s : Slider) : Prop :=
  - totalWidth s * 2 <= position s ∧ position s <= - totalWidth s.

(** A slider given a numeric gap and at least one slide. *)
Definition wellFormed (s : Slider) : Prop :=
  slides s ≠ [] ∧ is_Some (gap (options s)).

(** *** One slider on a page *)

(** The page runs the slider's callbacks; [Math_pow] stands for
    [Math.pow]. *)
Abbreviation State := (Slider * World Cb)%type.

Definition step (Math_pow : Q → Q → Q) (ev : Event PointerEvent)
  : Method (Cb := Cb) (T := Slider) unit :=
  Browser.step (invoke id Math_pow) ev.

Definition steps (Math_pow : Q → Q → Q) (evs : list (Event PointerEvent))
  : Method (Cb := Cb) (T := Slider) unit :=
  Browser.steps (invoke id Math_pow) evs.

(** A resize event reaches the window. *)
Definition resizeEvent : Event PointerEvent :=
  Dispatch Window "resize" (mkPointerEvent "resize" 0 None).

(** A burst of resize events: the first, then one more after each gap. *)
Definition burst (gaps : list Q) : list (Event PointerEvent) :=
  resizeEvent :: flat_map (λ d, [Tick d; resizeEvent]) gaps.

(** How often the timeout of [handleResize] has fired, that is, how often
    a resize has led to [updateDimensions]. *)
Definition recomputations (w : World Cb) : nat :=
  length (filter (λ cb, cb = ResizeTimer) (calls w)).

(** The state of the scheduler between events, as [init] sets it up: the
    only timeout that can be pending is the one [resizeTimeout] names, and
    the window has the one resize listener. *)
Definition scheduled (st : State) : Prop :=
  (timers st.2 = []
   ∨ ∃ id due, timers st.2 = [(id, (due, ResizeTimer))]
               ∧ resizeTimeout st.1 = Some id ∧ id ≠ O)
  ∧ filter (λ l, l_target l = Window ∧ l_type l = "resize"%string)
      (listeners st.2)
    = [mkListener Window "resize" HandleResize false].

(** The listeners [init] registers for a slider on container [c]. *)
Definition ownListeners (c : Elem) : list (Listener Cb) :=
  [mkListener (Node c) "mousedown" OnPointerDown false;
   mkListener (Node c) "touchstart" OnPointerDown false;
   mkListener Document "mousemove" OnPointerMove false;
   mkListener Document "touchmove" OnPointerMove false;
   mkListener Document "mouseup" OnPointerUp false;
   mkListener Document "touchend" OnPointerUp false;
   mkListener Window "resize" HandleResize false].

(** Between events, all that the browser holds of a slider is known to
    the slider: the one frame [animation] names, the one timeout
    [resizeTimeout] names, and listeners that [init] registered. *)
Definition live (st : State) : Prop :=
  (frames st.2 = []
   ∨ ∃ i, frames st.2 = [(i, UpdatePosition)]
          ∧ animation st.1 = Some i ∧ i ≠ O)
  ∧ (timers st.2 = []
     ∨ ∃ i due, timers st.2 = [(i, (due, ResizeTimer))]
                ∧ resizeTimeout st.1 = Some i ∧ i ≠ O)
  ∧ ∀ l, l ∈ listeners st.2 → l ∈ ownListeners (container st.1).

(** Nothing of the instance is left with the browser. *)
Definition released (st : State) : Prop :=
  frames st.2 = [] ∧ timers st.2 = [] ∧ listeners st.2 = [].

(** What [live] reads. *)
Definition liveView (st : State) :=
  (frames st.2, animation st.1, container st.1,
   timers st.2, resizeTimeout st.1, listeners st.2).

(** The pending timeouts and the resize listeners of the window. *)
Definition resizeSchedule (st : State) :=
  (timers st.2,
   filter (λ l, l_target l = Window ∧ l_type l = "resize"%string)
     (listeners st.2)).

(** What the handlers other than [handleResize] leave alone. *)
Definition resizeView (st : State) :=
  (timers st.2, listeners st.2, resizeTimeout st.1, calls st.2, now st.2).

End LoopSlider.

(** ** vite.config.js *)

Module ViteConfig.

(** The regular expressions of the configuration use literals, grouping,
    alternation and [?] only. *)
Inductive Regex :=
| Eps
| Chr (c : ascii)
| Seq (r1 r2 : Regex)
| Alt (r1 r2 : Regex)
| Opt (r : Regex).

Fixpoint Lit (s : string) : Regex :=
  match s with
  | EmptyString => Eps
  | String c s' => Seq (Chr c) (Lit s')
  end.

(** Every way [r] can match a prefix of [s]: the list of what is left. *)
Fixpoint matchPrefix (r : Regex) (s : string) : list string :=
  match r with
  | Eps => [s]
  | Chr c =>
      match s with
      | String c' s' => if Ascii.eqb c c' then [s'] else []
      | EmptyString => []
      end
  | Seq r1 r2 => flat_map (matchPrefix r2) (matchPrefix r1 s)
  | Alt r1 r2 => matchPrefix r1 s ++ matchPrefix r2 s
  | Opt r' => s :: matchPrefix r' s
  end.

Definition isEmpty (s : string) : bool :=
  match s with EmptyString => true | _ => false end.

(** [r$] at a fixed starting position: some match of [r] uses up the rest
    of the input. *)
Definition matchToEnd (r : Regex) (s : string) : bool :=
  existsb isEmpty (matchPrefix r s).

(** [/r$/.test(s)]: try every starting position from left to right. *)
Fixpoint test (r : Regex) (s : string) : bool :=
  matchToEnd r s
  || match s with
     | EmptyString => false
     | String _ s' => test r s'
     end.

(** [/\.(gif|jpe?g|png|svg|webp)$/] *)
Definition imagePattern : Regex :=
  Seq (Chr ".")
    (Alt (Lit "gif")
      (Alt (Seq (Lit "jp") (Seq (Opt (Chr "e")) (Chr "g")))
        (Alt (Lit "png") (Alt (Lit "svg") (Lit "webp"))))).

(** [/\.css$/] *)
Definition cssPattern : Regex := Seq (Chr ".") (Lit "css").

Definition entryFileNames : string := "assets/js/[name].js".
Definition chunkFileNames : string := "assets/js/[name].js".

(** [name] may be [undefined]; [name ?? ''] *)
Definition assetFileNames (name : option string) : string :=
  if test imagePattern (default "" name) then "assets/image/[name][extname]"
  else if test cssPattern (default "" name) then "assets/scss/[name][extname]"
  else "assets/[name][extname]".

(** The words of the specification: the name ends in one of the listed
    extensions. *)
Definition endsWith (ext name : string) : Prop :=
  ∃ stem, name = String.append stem ext.

Definition imageExtensions : list string :=
  [".gif"; ".jpg"; ".jpeg"; ".png"; ".svg"; ".webp"].

Definition hasImageExtension (name : string) : Prop :=
  ∃ ext, ext ∈ imageExtensions ∧ endsWith ext name.

(** The finite language of a pattern. *)
Fixpoint lang (r : Regex) : list string :=
  match r with
  | Eps => [""]
  | Chr c => [String c ""]
  | Seq r1 r2 =>
      flat_map (λ a, map (String.append a) (lang r2)) (lang r1)
  | Alt r1 r2 => lang r1 ++ lang r2
  | Opt r' => "" :: lang r'
  end.

(** The last character of a name. *)
Fixpoint lastChar (s : string) : option ascii :=
  match s with
  | EmptyString => None
  | String c s' => match lastChar s' with None => Some c | found => found end
  end.

End ViteConfig.

(** ** Accordion.js *)

Module Accordion.
Import Dom Browser Browser.Notations.

Record Options := mkOptions {
  shouldOpenAll : bool;
  triggerSelector : string;
  contentSelector : string;
  itemSelector : string;
  activeClass : string
}.

Record UserOptions := mkUserOptions {
  u_shouldOpenAll : option bool;
  u_triggerSelector : option string;
  u_contentSelector : option string;
  u_itemSelector : option string;
  u_activeClass : option string
}.

Definition merge (u : UserOptions) : Options :=
  {| shouldOpenAll := default false (u_shouldOpenAll u);
     triggerSelector := default ".js-accordion-trigger" (u_triggerSelector u);
     contentSelector := default ".js-accordion-content" (u_contentSelector u);
     itemSelector := default ".js-accordion-item" (u_itemSelector u);
     activeClass := default "is-active" (u_activeClass u) |}.

Record Accordion := mkAccordion {
  containers : list Elem;
  options : Options
}.

(** The click handler made for one item of one container; it closes over
    the item and over the container's list of items. *)
Inductive Cb :=
| Click (container item : Elem) (items : list Elem).

#[global] Instance Cb_eq_dec : EqDecision Cb.
Proof. solve_decision. Defined.

(** The double quote character. *)
Definition quote : string := String (ascii_of_nat 34) "".

Section Methods.
Context {C : Type} `{EqDecision C}.
Variable bound : Cb → C.

Local Open Scope method_scope.
Local Abbreviation Method := (Method (Cb := C) (T := Accordion)).

Definition open (item : Elem) : Method unit :=
  s <- this ;;
  w <- world ;;
  match querySelector (env w) (Some item) (contentSelector (options s)) with
  | Some content =>
      Browser.effect (update (setAttribute "aria-hidden" "false") content)
  | None => ret tt
  end.

Definition close (item : Elem) : Method unit :=
  s <- this ;;
  w <- world ;;
  match querySelector (env w) (Some item) (contentSelector (options s)) with
  | Some content =>
      Browser.effect (update (setAttribute "aria-hidden" "true") content)
  | None => ret tt
  end.

(** The arrow function of the loop that closes the other items. *)
Definition closeOther (s : Accordion) (item otherItem : Elem) : Method unit :=
  if bool_decide (otherItem ≠ item) then
    Browser.effect
      (update (classList_remove (activeClass (options s))) otherItem) ;;
    close otherItem
  else ret tt.

Definition toggle (item : Elem) (allItems : list Elem) : Method unit :=
  s <- this ;;
  w <- world ;;
  let isActive :=
    classList_contains (activeClass (options s)) (getElem (dom w) item) in
  (if negb (shouldOpenAll (options s)) && negb isActive then
     forEach (closeOther s item) allItems
   else ret tt) ;;
  if isActive then
    Browser.effect (update (classList_remove (activeClass (options s))) item) ;;
    close item
  else
    Browser.effect (update (classList_add (activeClass (options s))) item) ;;
    open item.

(** The listener of a trigger; [e.preventDefault()] leaves no trace in the
    world. *)
Definition onClick (cb : Cb) : Method unit :=
  match cb with Click _ item items => toggle item items end.

Definition init : Method unit :=
  s <- this ;;
  forEach (λ container,
    w <- world ;;
    let items := querySelectorAll (env w) (Some container) (itemSelector (options s)) in
    forEach (λ item,
      w <- world ;;
      match querySelector (env w) (Some item) (triggerSelector (options s)) with
      | Some trigger =>
          Browser.effect
            (addEventListener (Node trigger) "click"
               (bound (Click container item items)) false)
      | None => ret tt
      end) items) (containers s).

Definition constructor (selector : string) (u : UserOptions)
  : M (World C) Accordion :=
  λ w,
    let s := mkAccordion (querySelectorAll (env w) None selector) (merge u) in
    if bool_decide (length (containers s) = 0%nat) then
      (Normal s,
       console_log "warn"
         ("Accordion: No elements found for selector "
          +:+ quote +:+ selector +:+ quote) w)
    else
      match init (s, w) with
      | (Normal _, (s', w')) => (Normal s', w')
      | (Throw e, (_, w')) => (Throw e, w')
      end.

(** [e] carries the class [ac]. *)
Definition active (ac : string) (w : World C) (e : Elem) : Prop :=
  classList_contains ac (getElem (dom w) e) = true.

(** At most one element of [l] carries [ac]. *)
Definition atMostOneActive (ac : string) (w : World C) (l : list Elem) : Prop :=
  ∀ x y, x ∈ l → y ∈ l → active ac w x → active ac w y → x = y.

Definition ariaHidden (w : World C) (e : Elem) : option string :=
  getAttribute "aria-hidden" (getElem (dom w) e).

(** Two worlds give every element the same class list. *)
Definition sameClasses (w w' : World C) : Prop :=
  ∀ e, className (getElem (dom w') e) = className (getElem (dom w) e).

End Methods.

End Accordion.

(** ** MouseStalker.js *)

Module MouseStalker.
Import Js Dom Browser Browser.Notations.
Local Open Scope Q_scope.

(** The configuration after the defaults are merged in. *)
Record Config := mkConfig {
  selector : string;
  stalkerClass : string;
  textClass : string;
  defaultText : string;
  alwaysVisible : bool;
  ease : Q;
  minSpeed : Q;
  zIndex : Q;
  pointerEventsNone : bool;
  style : list (string * StyleValue)
}.

Record UserConfig := mkUserConfig {
  u_selector : option string;
  u_stalkerClass : option string;
  u_textClass : option string;
  u_defaultText : option string;
  u_alwaysVisible : option bool;
  u_ease : option Q;
  u_minSpeed : option Q;
  u_zIndex : option Q;
  u_pointerEventsNone : option bool;
  u_style : option (list (string * StyleValue))
}.

Definition merge (u : UserConfig) : Config :=
  {| selector := default "[data-mouse-stalker]" (u_selector u);
     stalkerClass := default "c-mouse-stalker" (u_stalkerClass u);
     textClass := default "c-mouse-stalker__text" (u_textClass u);
     defaultText := default "" (u_defaultText u);
     alwaysVisible := default false (u_alwaysVisible u);
     ease := default (18 # 100) (u_ease u);
     minSpeed := default (1 # 10) (u_minSpeed u);
     zIndex := default 9999 (u_zIndex u);
     pointerEventsNone := default true (u_pointerEventsNone u);
     style := default [] (u_style u) |}.

Record Stalker := mkStalker {
  config : Config;
  prefersReducedMotion : bool;
  pointerFine : bool;
  isEnabled : bool;
  container : option Elem;
  textEl : option Elem;
  activeTarget : option Elem;
  currentText : string;
  posX : Q;
  posY : Q;
  targetX : Q;
  targetY : Q;
  isVisible : bool;
  rafId : option nat;
  isMoving : bool;
  textTimer : option nat
}.

Definition set_isEnabled (v : bool) (x : Stalker) : Stalker :=
  mkStalker (config x) (prefersReducedMotion x) (pointerFine x) v (container
    x) (textEl x) (activeTarget x) (currentText x) (posX x) (posY x) (targetX
    x) (targetY x) (isVisible x) (rafId x) (isMoving x) (textTimer x).
Definition set_container (v : option Elem) (x : Stalker) : Stalker :=
  mkStalker (config x) (prefersReducedMotion x) (pointerFine x) (isEnabled x)
    v (textEl x) (activeTarget x) (currentText x) (posX x) (posY x) (targetX
    x) (targetY x) (isVisible x) (rafId x) (isMoving x) (textTimer x).
Definition set_textEl (v : option Elem) (x : Stalker) : Stalker :=
  mkStalker (config x) (prefersReducedMotion x) (pointerFine x) (isEnabled x)
    (container x) v (activeTarget x) (currentText x) (posX x) (posY x)
    (targetX x) (targetY x) (isVisible x) (rafId x) (isMoving x) (textTimer
    x).
Definition set_activeTarget (v : option Elem) (x : Stalker) : Stalker :=
  mkStalker (config x) (prefersReducedMotion x) (pointerFine x) (isEnabled x)
    (container x) (textEl x) v (currentText x) (posX x) (posY x) (targetX x)
    (targetY x) (isVisible x) (rafId x) (isMoving x) (textTimer x).
Definition set_currentText (v : string) (x : Stalker) : Stalker :=
  mkStalker (config x) (prefersReducedMotion x) (pointerFine x) (isEnabled x)
    (container x) (textEl x) (activeTarget x) v (posX x) (posY x) (targetX x)
    (targetY x) (isVisible x) (rafId x) (isMoving x) (textTimer x).
Definition set_posX (v : Q) (x : Stalker) : Stalker :=
  mkStalker (config x) (prefersReducedMotion x) (pointerFine x) (isEnabled x)
    (container x) (textEl x) (activeTarget x) (currentText x) v (posY x)
    (targetX x) (targetY x) (isVisible x) (rafId x) (isMoving x) (textTimer
    x).
Definition set_posY (v : Q) (x : Stalker) : Stalker :=
  mkStalker (config x) (prefersReducedMotion x) (pointerFine x) (isEnabled x)
    (container x) (textEl x) (activeTarget x) (currentText x) (posX x) v
    (targetX x) (targetY x) (isVisible x) (rafId x) (isMoving x) (textTimer
    x).
Definition set_targetX (v : Q) (x : Stalker) : Stalker :=
  mkStalker (config x) (prefersReducedMotion x) (pointerFine x) (isEnabled x)
    (container x) (textEl x) (activeTarget x) (currentText x) (posX x) (posY
    x) v (targetY x) (isVisible x) (rafId x) (isMoving x) (textTimer x).
Definition set_targetY (v : Q) (x : Stalker) : Stalker :=
  mkStalker (config x) (prefersReducedMotion x) (pointerFine x) (isEnabled x)
    (container x) (textEl x) (activeTarget x) (currentText x) (posX x) (posY
    x) (targetX x) v (isVisible x) (rafId x) (isMoving x) (textTimer x).
Definition set_isVisible (v : bool) (x : Stalker) : Stalker :=
  mkStalker (config x) (prefersReducedMotion x) (pointerFine x) (isEnabled x)
    (container x) (textEl x) (activeTarget x) (currentText x) (posX x) (posY
    x) (targetX x) (targetY x) v (rafId x) (isMoving x) (textTimer x).
Definition set_rafId (v : option nat) (x : Stalker) : Stalker :=
  mkStalker (config x) (prefersReducedMotion x) (pointerFine x) (isEnabled x)
    (container x) (textEl x) (activeTarget x) (currentText x) (posX x) (posY
    x) (targetX x) (targetY x) (isVisible x) v (isMoving x) (textTimer x).
Definition set_isMoving (v : bool) (x : Stalker) : Stalker :=
  mkStalker (config x) (prefersReducedMotion x) (pointerFine x) (isEnabled x)
    (container x) (textEl x) (activeTarget x) (currentText x) (posX x) (posY
    x) (targetX x) (targetY x) (isVisible x) (rafId x) v (textTimer x).
Definition set_textTimer (v : option nat) (x : Stalker) : Stalker :=
  mkStalker (config x) (prefersReducedMotion x) (pointerFine x) (isEnabled x)
    (container x) (textEl x) (activeTarget x) (currentText x) (posX x) (posY
    x) (targetX x) (targetY x) (isVisible x) (rafId x) (isMoving x) v.

(** The functions of an instance that the browser holds on to: the bound
    handlers, and the arrow functions handed to [setTimeout] by [setText],
    [clearText] and [clearMouseStalker]. *)
Inductive Cb :=
| HandlePointerMove
| HandlePointerOver
| HandlePointerOut
| HandlePointerLeave
| HandleWindowBlur
| Update
| TextTimer (text : string)
| ClearTextTimer
| HoverTimer.

#[global] Instance Cb_eq_dec : EqDecision Cb.
Proof. solve_decision. Defined.

(** A pointer event as the handlers read it. *)
Record PointerEvent := mkPointerEvent {
  clientX : Q;
  clientY : Q;
  target : Elem;
  relatedTarget : option Elem
}.

(** What [new MouseStalker(...)] evaluates to: after an early return only
    the fields assigned so far exist. *)
Inductive Instance :=
| NoBrowser (c : Config)
| ReducedMotion (c : Config)
| CoarsePointer (c : Config)
| Ready (s : Stalker).

Section Methods.
Context {C : Type} `{EqDecision C}.
Variable bound : Cb → C.

Local Open Scope method_scope.
Local Abbreviation Method := (Method (Cb := C) (T := Stalker)).

Definition setStyles (e : Elem) (kvs : list (string * StyleValue))
  : Method unit :=
  forEach (λ kv, Browser.effect (update (setStyle kv.1 kv.2) e)) kvs.

Definition cancelTextTimer : Method unit :=
  s <- this ;;
  if truthy_handle (textTimer s) then
    Browser.effect (clearTimeout (default O (textTimer s))) ;;
    assign (set_textTimer None)
  else ret tt.

(** The three assignments that show the stalker. *)
Definition showStyles : Method unit :=
  s <- this ;;
  c <- deref (container s) ;;
  setStyles c [("transition", Css "opacity 0.3s ease, visibility 0s");
               ("visibility", Css "visible"); ("opacity", Css "1")].

(** The three assignments that hide it. *)
Definition hideStyles : Method unit :=
  s <- this ;;
  c <- deref (container s) ;;
  setStyles c [("transition", Css "opacity 0.3s ease, visibility 0s linear 0.3s");
               ("opacity", Css "0"); ("visibility", Css "hidden")].

Definition createStalker : Method unit :=
  s <- this ;;
  w <- world ;;
  (match container s with
   | Some c =>
       match parentNode (getElem (dom w) c) with
       | Some p => Browser.effect (removeChild p c)
       | None => ret tt
       end
   | None => ret tt
   end) ;;
  c <- call createElement ;;
  assign (set_container (Some c)) ;;
  Browser.effect (update (set_className (String.words (stalkerClass (config s)))) c) ;;
  Browser.effect (update (setAttribute "aria-hidden" "true") c) ;;
  let baseStyle :=
    [("position", Css "fixed"); ("top", Css "0"); ("left", Css "0");
     ("zIndex", Num (zIndex (config s)));
     ("pointerEvents",
      Css (if pointerEventsNone (config s) then "none" else "auto"));
     ("willChange", Css "transform"); ("backfaceVisibility", Css "hidden");
     ("transform", Translate3d (posX s) (posY s));
     ("opacity", Css (if alwaysVisible (config s) then "1" else "0"));
     ("transition", Css "opacity 0.3s ease, visibility 0s linear 0.3s");
     ("visibility",
      Css (if alwaysVisible (config s) then "visible" else "hidden"))] in
  setStyles c (baseStyle ++ style (config s)) ;;
  t <- call createElement ;;
  assign (set_textEl (Some t)) ;;
  Browser.effect (update (set_className (String.words (textClass (config s)))) t) ;;
  setStyles t [("transition", Css "opacity 0.3s ease"); ("opacity", Css "0")] ;;
  (if alwaysVisible (config s) && truthy_string (defaultText (config s)) then
     assign (set_currentText (defaultText (config s))) ;;
     Browser.effect (update (set_textContent (defaultText (config s))) t) ;;
     Browser.effect (update (classList_add "has-text") c) ;;
     Browser.effect (update (setStyle "opacity" (Css "1")) t)
   else ret tt) ;;
  Browser.effect (appendChild c t) ;;
  w <- world ;;
  b <- deref (body (env w)) ;;
  Browser.effect (appendChild b c).

Definition bindEvents : Method unit :=
  Browser.effect (addEventListener Document "pointermove" (bound HandlePointerMove) false) ;;
  Browser.effect (addEventListener Document "pointerover" (bound HandlePointerOver) true) ;;
  Browser.effect (addEventListener Document "pointerout" (bound HandlePointerOut) true) ;;
  Browser.effect (addEventListener Document "pointerleave" (bound HandlePointerLeave) false) ;;
  Browser.effect (addEventListener Window "blur" (bound HandleWindowBlur) false).

Definition unbindEvents : Method unit :=
  Browser.effect (removeEventListener Document "pointermove" (bound HandlePointerMove) false) ;;
  Browser.effect (removeEventListener Document "pointerover" (bound HandlePointerOver) true) ;;
  Browser.effect (removeEventListener Document "pointerout" (bound HandlePointerOut) true) ;;
  Browser.effect (removeEventListener Document "pointerleave" (bound HandlePointerLeave) false) ;;
  Browser.effect (removeEventListener Window "blur" (bound HandleWindowBlur) false).

Definition render : Method unit :=
  id <- call (requestAnimationFrame (bound Update)) ;;
  assign (set_rafId (Some id)).

Definition init : Method unit :=
  s <- this ;;
  if isEnabled s then ret tt
  else
    createStalker ;;
    bindEvents ;;
    assign (set_isEnabled true) ;;
    render.

Definition handlePointerMove (event : PointerEvent) : Method unit :=
  assign (set_targetX (clientX event)) ;;
  assign (set_targetY (clientY event)) ;;
  s <- this ;;
  (if negb (isVisible s) && isEnabled s && alwaysVisible (config s) then
     assign (set_isVisible true) ;;
     showStyles
   else ret tt) ;;
  s <- this ;;
  if negb (isMoving s) then
    assign (set_isMoving true) ;;
    id <- call (requestAnimationFrame (bound Update)) ;;
    assign (set_rafId (Some id))
  else ret tt.

(** The arrow function of the timeout in [setText]. *)
Definition textTimerFired (text : string) : Method unit :=
  assign (set_currentText text) ;;
  s <- this ;;
  t <- deref (textEl s) ;;
  Browser.effect (update (set_textContent text) t) ;;
  c <- deref (container s) ;;
  Browser.effect (update (classList_toggle "has-text" (truthy_string text)) c) ;;
  (if truthy_string text then
     Browser.effect (update (setStyle "opacity" (Css "1")) t)
   else ret tt) ;;
  assign (set_textTimer None).

Definition setText (text : string) : Method unit :=
  cancelTextTimer ;;
  s <- this ;;
  if bool_decide (currentText s = text) then
    if truthy_string text then
      t <- deref (textEl s) ;;
      Browser.effect (update (setStyle "opacity" (Css "1")) t) ;;
      c <- deref (container s) ;;
      Browser.effect (update (classList_add "has-text") c)
    else ret tt
  else
    t <- deref (textEl s) ;;
    Browser.effect (update (setStyle "opacity" (Css "0")) t) ;;
    id <- call (setTimeout (bound (TextTimer text)) 200) ;;
    assign (set_textTimer (Some id)).

(** The arrow function of the timeout in [clearText]. *)
Definition clearTextTimerFired : Method unit :=
  assign (set_currentText "") ;;
  s <- this ;;
  t <- deref (textEl s) ;;
  Browser.effect (update (set_textContent "") t) ;;
  c <- deref (container s) ;;
  Browser.effect (update (classList_remove "has-text") c) ;;
  assign (set_textTimer None).

Definition clearText : Method unit :=
  cancelTextTimer ;;
  s <- this ;;
  if negb (truthy_string (currentText s)) then ret tt
  else
    t <- deref (textEl s) ;;
    Browser.effect (update (setStyle "opacity" (Css "0")) t) ;;
    id <- call (setTimeout (bound ClearTextTimer) 200) ;;
    assign (set_textTimer (Some id)).

(** The arrow function of the timeout in [clearMouseStalker]; the handle of
    that timeout is not kept. *)
Definition hoverTimerFired : Method unit :=
  s <- this ;;
  if negb (isVisible s) && negb (bool_decide (is_Some (activeTarget s))) then
    c <- deref (container s) ;;
    Browser.effect (update (classList_remove "is-hover") c)
  else ret tt.

Definition clearMouseStalker : Method unit :=
  assign (set_activeTarget None) ;;
  s <- this ;;
  (if alwaysVisible (config s) && truthy_string (defaultText (config s)) then
     setText (defaultText (config s))
   else clearText) ;;
  if negb (alwaysVisible (config s)) then
    assign (set_isVisible false) ;;
    hideStyles ;;
    _ <- call (setTimeout (bound HoverTimer) 300) ;;
    ret tt
  else
    s <- this ;;
    c <- deref (container s) ;;
    Browser.effect (update (classList_remove "is-hover") c).

Definition handlePointerOver (event : PointerEvent) : Method unit :=
  s <- this ;;
  w <- world ;;
  match closest (env w) (target event) (selector (config s)) with
  | None => ret tt
  | Some tg =>
      if bool_decide (activeTarget s = Some tg) then ret tt
      else
        assign (set_activeTarget (Some tg)) ;;
        let data := dataset (env w) tg "mouseStalker" in
        let text := if truthy_string data then data
                    else defaultText (config s) in
        c <- deref (container s) ;;
        Browser.effect (update (classList_add "is-hover") c) ;;
        if negb (isVisible s) then
          assign (set_isVisible true) ;;
          showStyles ;;
          cancelTextTimer ;;
          assign (set_currentText text) ;;
          t <- deref (textEl s) ;;
          Browser.effect (update (set_textContent text) t) ;;
          Browser.effect (update (classList_toggle "has-text" (truthy_string text)) c) ;;
          Browser.effect
            (update (setStyle "opacity"
                       (Css (if truthy_string text then "1" else "0"))) t)
        else setText text
  end.

Definition handlePointerOut (event : PointerEvent) : Method unit :=
  s <- this ;;
  w <- world ;;
  match activeTarget s with
  | None => ret tt
  | Some tg =>
      match relatedTarget event with
      | Some related =>
          if contains (env w) tg related then ret tt else clearMouseStalker
      | None => clearMouseStalker
      end
  end.

Definition handlePointerLeave : Method unit :=
  s <- this ;;
  if alwaysVisible (config s) then ret tt
  else
    assign (set_isVisible false) ;;
    hideStyles.

Definition handleWindowBlur : Method unit :=
  s <- this ;;
  if alwaysVisible (config s) then ret tt
  else
    assign (set_isVisible false) ;;
    hideStyles.

(** [((p * 100) | 0) / 100] *)
Definition trunc2 (p : Q) : Q := inject_Z (toInt32 (p * 100)) / 100.

Definition update : Method unit :=
  s <- this ;;
  if negb (isEnabled s) then ret tt
  else
    let dx := targetX s - posX s in
    let dy := targetY s - posY s in
    if ltb (Math_abs dx) (minSpeed (config s))
       && ltb (Math_abs dy) (minSpeed (config s)) then
      assign (set_posX (targetX s)) ;;
      assign (set_posY (targetY s)) ;;
      s <- this ;;
      c <- deref (container s) ;;
      Browser.effect (Browser.update (setStyle "transform" (Translate3d (posX s) (posY s))) c) ;;
      assign (set_isMoving false)
    else
      assign (set_posX (posX s + dx * ease (config s))) ;;
      assign (set_posY (posY s + dy * ease (config s))) ;;
      s <- this ;;
      let x := trunc2 (posX s) in
      let y := trunc2 (posY s) in
      c <- deref (container s) ;;
      Browser.effect (Browser.update (setStyle "transform" (Translate3d x y)) c) ;;
      id <- call (requestAnimationFrame (bound Update)) ;;
      assign (set_rafId (Some id)).

Definition disable : Method unit :=
  assign (set_isEnabled false) ;;
  s <- this ;;
  c <- deref (container s) ;;
  Browser.effect (Browser.update (setStyle "display" (Css "none")) c) ;;
  if truthy_handle (rafId s) then
    Browser.effect (cancelAnimationFrame (default O (rafId s)))
  else ret tt.

Definition enable : Method unit :=
  s <- this ;;
  if isEnabled s then ret tt
  else
    assign (set_isEnabled true) ;;
    c <- deref (container s) ;;
    Browser.effect (Browser.update (setStyle "display" (Css "block")) c) ;;
    assign (set_posX (targetX s)) ;;
    assign (set_posY (targetY s)) ;;
    render.

Definition destroy : Method unit :=
  assign (set_isEnabled false) ;;
  s <- this ;;
  (if truthy_handle (rafId s) then
     Browser.effect (cancelAnimationFrame (default O (rafId s)))
   else ret tt) ;;
  (if truthy_handle (textTimer s) then
     Browser.effect (clearTimeout (default O (textTimer s)))
   else ret tt) ;;
  unbindEvents ;;
  w <- world ;;
  (match container s with
   | Some c =>
       match parentNode (getElem (dom w) c) with
       | Some p => Browser.effect (removeChild p c)
       | None => ret tt
       end
   | None => ret tt
   end) ;;
  assign (set_container None) ;;
  assign (set_textEl None).

(** The fields the constructor assigns before it calls [init]. *)
Definition fresh (c : Config) (w : World C) : Stalker :=
  {| config := c; prefersReducedMotion := false; pointerFine := true;
     isEnabled := false; container := None; textEl := None;
     activeTarget := None; currentText := "";
     posX := innerWidth (env w) / 2; posY := innerHeight (env w) / 2;
     targetX := innerWidth (env w) / 2; targetY := innerHeight (env w) / 2;
     isVisible := false; rafId := None; isMoving := false;
     textTimer := None |}.

Definition constructor (u : UserConfig) : M (World C) Instance :=
  λ w,
    let c := merge u in
    if negb (hasWindow (env w)) || negb (hasDocument (env w)) then
      (Normal (NoBrowser c), w)
    else if matchMedia (env w) "(prefers-reduced-motion: reduce)" then
      (Normal (ReducedMotion c), w)
    else if negb (matchMedia (env w) "(pointer: fine)") then
      (Normal (CoarsePointer c), w)
    else
      match init (fresh c w, w) with
      | (Normal _, (s, w')) => (Normal (Ready s), w')
      | (Throw e, (_, w')) => (Throw e, w')
      end.

(** How the browser calls back into the instance. *)
Definition invoke (cb : Cb) (a : Arg PointerEvent) : Method unit :=
  match cb, a with
  | HandlePointerMove, EventArg e => handlePointerMove e
  | HandlePointerOver, EventArg e => handlePointerOver e
  | HandlePointerOut, EventArg e => handlePointerOut e
  | HandlePointerLeave, _ => handlePointerLeave
  | HandleWindowBlur, _ => handleWindowBlur
  | Update, _ => update
  | TextTimer text, _ => textTimerFired text
  | ClearTextTimer, _ => clearTextTimerFired
  | HoverTimer, _ => hoverTimerFired
  | _, _ => throw "TypeError"
  end.

End Methods.

(** *** One stalker on a page *)

Abbreviation State := (Stalker * World Cb)%type.

Definition step (ev : Event PointerEvent)
  : Method (Cb := Cb) (T := Stalker) unit :=
  Browser.step (invoke id) ev.

Definition steps (evs : list (Event PointerEvent))
  : Method (Cb := Cb) (T := Stalker) unit :=
  Browser.steps (invoke id) evs.

End MouseStalker.

(** ** ScrollProgressAnimation.js *)

Module ScrollProgressAnimation.
Import Js Dom Browser Browser.Notations.

(** The callbacks gsap holds for a trigger: the scrubbed tween of the
    progress line, and the two arrow functions made for an item. *)
Inductive Cb :=
| ProgressTween
| OnEnter (item : Elem)
| OnLeaveBack (item : Elem).

#[global] Instance Cb_eq_dec : EqDecision Cb.
Proof. solve_decision. Defined.

(** What [ScrollTrigger.create] returns: the element watched and the
    callbacks registered for it, by kind. *)
Record Trigger := mkTrigger {
  tr_trigger : Elem;
  tr_start : string;
  tr_end : string;
  tr_callbacks : list (string * Cb)
}.

Section Methods.
Context {C : Type} `{EqDecision C}.
Variable bound : Cb → C.

(** A function the caller supplies, called with an item. *)
Definition ItemCallback : Type := Elem → World C → World C.

Record Config := mkConfig {
  containerSelector : string;
  progressSelector : string;
  itemSelector : string;
  start : string;
  end_ : string;
  onItemActive : option ItemCallback;
  onItemInactive : option ItemCallback
}.

Record UserOptions := mkUserOptions {
  u_containerSelector : option string;
  u_progressSelector : option string;
  u_itemSelector : option string;
  u_triggerPosition : option string;
  u_start : option string;
  u_end : option string;
  u_onItemActive : option ItemCallback;
  u_onItemInactive : option ItemCallback
}.

Definition merge (u : UserOptions) : Config :=
  {| containerSelector :=
       default ".js-scroll-progress-container" (u_containerSelector u);
     progressSelector := default ".js-scroll-progress-line" (u_progressSelector u);
     itemSelector := default "[data-scroll-item]" (u_itemSelector u);
     start := default ("top " +:+ default "60%" (u_triggerPosition u)) (u_start u);
     end_ := default ("bottom " +:+ default "60%" (u_triggerPosition u)) (u_end u);
     onItemActive := u_onItemActive u;
     onItemInactive := u_onItemInactive u |}.

Record Animation := mkAnimation {
  config : Config;
  container : option Elem;
  progress : option Elem;
  items : list Elem;
  scrollTriggers : list Trigger
}.

Definition set_scrollTriggers (v : list Trigger) (x : Animation) : Animation :=
  mkAnimation (config x) (container x) (progress x) (items x) v.

Local Open Scope method_scope.
Local Abbreviation Method := (Method (Cb := C) (T := Animation)).

(** [ScrollTrigger.create]: gsap keeps the callbacks with the watched
    element and hands back the trigger. *)
Definition ScrollTrigger_create (el : Elem) (st en : string)
    (cbs : list (string * Cb)) : Method Trigger :=
  forEach (λ kc : string * Cb,
    Browser.effect (addEventListener (Node el) kc.1 (bound kc.2) false)) cbs ;;
  ret (mkTrigger el st en cbs).

(** [trigger.kill()] *)
Definition kill (t : Trigger) : Method unit :=
  forEach (λ kc : string * Cb,
    Browser.effect (removeEventListener (Node (tr_trigger t)) kc.1 (bound kc.2) false))
    (tr_callbacks t).

Definition isValid (s : Animation) : bool :=
  bool_decide (is_Some (container s)) && bool_decide (is_Some (progress s))
  && bool_decide (0 < length (items s)).

Definition animateProgress : Method unit :=
  s <- this ;;
  c <- deref (container s) ;;
  trigger <- ScrollTrigger_create c (start (config s)) (end_ (config s))
               [("ScrollTrigger.animation", ProgressTween)] ;;
  s <- this ;;
  assign (set_scrollTriggers (scrollTriggers s ++ [trigger])).

Definition animateItems : Method unit :=
  s <- this ;;
  forEach (λ item,
    s <- this ;;
    trigger <- ScrollTrigger_create item (start (config s)) (end_ (config s))
                 [("ScrollTrigger.onEnter", OnEnter item);
                  ("ScrollTrigger.onLeaveBack", OnLeaveBack item)] ;;
    s <- this ;;
    assign (set_scrollTriggers (scrollTriggers s ++ [trigger]))) (items s).

(** [init] returns [this]; the instance is the state. *)
Definition init : Method unit :=
  s <- this ;;
  if negb (isValid s) then ret tt
  else
    animateProgress ;;
    animateItems.

Definition destroy : Method unit :=
  s <- this ;;
  forEach kill (scrollTriggers s) ;;
  assign (set_scrollTriggers []).

Definition constructor (u : UserOptions) : M (World C) Animation :=
  λ w,
    let c := merge u in
    (Normal {| config := c;
               container := querySelector (env w) None (containerSelector c);
               progress := querySelector (env w) None (progressSelector c);
               items := querySelectorAll (env w) None (itemSelector c);
               scrollTriggers := [] |}, w).

(** The scrubbed tween: gsap scales the progress line to the fraction of
    the trigger's range that has been scrolled. *)
Definition progressTween (ratio : Q) : Method unit :=
  s <- this ;;
  p <- deref (progress s) ;;
  Browser.effect (update (setStyle "scaleY" (Num ratio)) p).

Definition invoke (cb : Cb) (a : Arg Q) : Method unit :=
  s <- this ;;
  match cb, a with
  | ProgressTween, EventArg ratio => progressTween ratio
  | ProgressTween, _ => throw "TypeError"
  | OnEnter item, _ =>
      match onItemActive (config s) with
      | Some f => Browser.effect (f item)
      | None => ret tt
      end
  | OnLeaveBack item, _ =>
      match onItemInactive (config s) with
      | Some f => Browser.effect (f item)
      | None => ret tt
      end
  end.

End Methods.

End ScrollProgressAnimation.

(** ** TextReveal.js *)

Module TextReveal.
Import Js Dom Browser Browser.Notations.
Local Open Scope Q_scope.

Record Options := mkOptions {
  root : option Elem;
  rootMargin : string;
  threshold : Q;
  duration : Q;
  stagger : Q;
  once : bool;
  resetOnScrollUp : bool;
  effect : string
}.

Record UserOptions := mkUserOptions {
  u_root : option Elem;
  u_rootMargin : option string;
  u_threshold : option Q;
  u_duration : option Q;
  u_stagger : option Q;
  u_once : option bool;
  u_resetOnScrollUp : option bool;
  u_effect : option string
}.

Definition merge (u : UserOptions) : Options :=
  {| root := u_root u;
     rootMargin := default "0px 0px -50% 0px" (u_rootMargin u);
     threshold := default 0 (u_threshold u);
     duration := default (6 # 10) (u_duration u);
     stagger := default (3 # 100) (u_stagger u);
     once := default false (u_once u);
     resetOnScrollUp := default false (u_resetOnScrollUp u);
     effect := default "fade" (u_effect u) |}.

Record Reveal := mkReveal {
  elements : option (list Elem);
  options : Options
}.

Definition set_elements (v : option (list Elem)) (x : Reveal) : Reveal :=
  mkReveal v (options x).

(** The callback of the instance's IntersectionObserver. *)
Inductive Cb :=
| HandleIntersect.

#[global] Instance Cb_eq_dec : EqDecision Cb.
Proof. solve_decision. Defined.

(** An IntersectionObserverEntry as the handlers read it. *)
Record Entry := mkEntry {
  target : Elem;
  isIntersecting : bool;
  top : Q
}.

(** What [new TextReveal(...)] evaluates to. *)
Inductive Instance :=
| NoElements
| Ready (r : Reveal).

(** [s.trim()], and whether it leaves nothing. *)
Fixpoint trimStart (s : string) : string :=
  match s with
  | String c s' => if Ascii.is_space c then trimStart s' else s
  | EmptyString => EmptyString
  end.

Definition trim (s : string) : string :=
  String.rev (trimStart (String.rev (trimStart s))).

Fixpoint chars (s : string) : list ascii :=
  match s with
  | EmptyString => []
  | String c s' => c :: chars s'
  end.

(** The no-break space that [&nbsp;] stands for, as one character. *)
Definition nbsp : string := String (ascii_of_nat 160) "".

Section Methods.
Context {C : Type} `{EqDecision C}.
Variable bound : Cb → C.

Local Open Scope method_scope.
Local Abbreviation Method := (Method (Cb := C) (T := Reveal)).

(** [observer.observe(el)], [observer.unobserve(el)],
    [observer.disconnect()]: the observer keeps its callback with each
    element it watches. *)
Definition observe (el : Elem) : Method unit :=
  Browser.effect
    (addEventListener (Node el) "IntersectionObserver" (bound HandleIntersect) false).

Definition unobserve (el : Elem) : Method unit :=
  Browser.effect
    (removeEventListener (Node el) "IntersectionObserver" (bound HandleIntersect) false).

Definition disconnect : Method unit :=
  Browser.effect (λ w,
    set_listeners
      (filter (λ l, ¬ (l_type l = "IntersectionObserver"
                       ∧ l_cb l = bound HandleIntersect)) (listeners w)) w).

Definition setupElement (el : Elem) : Method unit :=
  w <- world ;;
  (if negb (classList_contains "js-text-reveal" (getElem (dom w) el))
      && negb (classList_contains "js-text-reveal-slide" (getElem (dom w) el))
   then Browser.effect (update (classList_add "js-text-reveal") el)
   else ret tt) ;;
  s <- this ;;
  Browser.effect
    (update (classList_add ("js-text-reveal-effect-" +:+ effect (options s))) el) ;;
  w <- world ;;
  let originalText := trim (textContent (getElem (dom w) el)) in
  if negb (truthy_string (default "" (getAttribute "aria-label" (getElem (dom w) el))))
  then Browser.effect (update (setAttribute "aria-label" originalText) el)
  else ret tt.

Definition createCharSpan (char : ascii) (index : nat) : Method Elem :=
  s <- this ;;
  span <- call createElement ;;
  Browser.effect (update (set_textContent (String char "")) span) ;;
  Browser.effect (update (set_className ["js-text-reveal-char"]) span) ;;
  Browser.effect
    (update (setStyle "transitionDuration" (Seconds (duration (options s)))) span) ;;
  Browser.effect
    (update (setStyle "transitionDelay"
               (Seconds (inject_Z (Z.of_nat index) * stagger (options s)))) span) ;;
  Browser.effect (update (setAttribute "aria-hidden" "true") span) ;;
  (if Ascii.eqb char " " then
     Browser.effect (update (set_textContent nbsp) span)
   else ret tt) ;;
  ret span.

(** One character of a text node; what is returned goes into the
    fragment. *)
Definition splitChar (char : ascii) (charIndex : nat) : Method Elem :=
  s <- this ;;
  span <- createCharSpan char charIndex ;;
  if bool_decide (effect (options s) = "slide") then
    wrapper <- call createElement ;;
    Browser.effect (update (set_className ["js-text-reveal-wrapper"]) wrapper) ;;
    (if Ascii.eqb char " " then
       Browser.effect (update (setStyle "display" (Css "inline")) wrapper)
     else ret tt) ;;
    Browser.effect (appendChild wrapper span) ;;
    ret wrapper
  else ret span.

Fixpoint splitChars (cs : list ascii) (charIndex : nat)
  : Method (list Elem * nat) :=
  match cs with
  | [] => ret ([], charIndex)
  | c :: cs' =>
      e <- splitChar c charIndex ;;
      r <- splitChars cs' (S charIndex) ;;
      ret (e :: r.1, r.2)
  end.

(** The children built for the fragment, as elements (a whitespace-only
    text node is copied as text and has no element), and the running
    character index. *)
Fixpoint splitNodes (nodes : list (string + Elem)) (charIndex : nat)
  : Method (list Elem) :=
  match nodes with
  | [] => ret []
  | inl text :: nodes' =>
      if negb (truthy_string (trim text)) then splitNodes nodes' charIndex
      else
        r <- splitChars (chars text) charIndex ;;
        rest <- splitNodes nodes' r.2 ;;
        ret (r.1 ++ rest)
  | inr node :: nodes' =>
      clone <- call (cloneNode node) ;;
      rest <- splitNodes nodes' charIndex ;;
      ret (clone :: rest)
  end.

Definition splitText (el : Elem) : Method unit :=
  w <- world ;;
  let nodes := childNodes (env w) el in
  fragment <- splitNodes nodes O ;;
  (* the old children are dropped *)
  forEach (λ n : string + Elem,
    match n with
    | inr old => Browser.effect (removeChild el old)
    | inl _ => ret tt
    end) nodes ;;
  forEach (λ e, Browser.effect (appendChild el e)) fragment.

Definition init : Method unit :=
  s <- this ;;
  els <- deref (elements s) ;;
  forEach (λ el,
    w <- world ;;
    if truthy_string
         (default "" (getAttribute "data-text-reveal-initialized" (getElem (dom w) el)))
    then ret tt
    else
      Browser.effect (update (setAttribute "data-text-reveal-initialized" "true") el) ;;
      setupElement el ;;
      splitText el ;;
      observe el) els.

Definition animateIn (tg : Elem) : Method unit :=
  w <- world ;;
  if classList_contains "is-inview" (getElem (dom w) tg) then ret tt
  else
    Browser.effect (update (classList_add "is-inview") tg) ;;
    s <- this ;;
    if once (options s) then unobserve tg else ret tt.

Definition animateOut (entry : Entry) : Method unit :=
  s <- this ;;
  w <- world ;;
  if once (options s) then ret tt
  else if negb (classList_contains "is-inview" (getElem (dom w) (target entry)))
  then ret tt
  else if negb (resetOnScrollUp (options s)) && ltb (top entry) 0 then ret tt
  else Browser.effect (update (classList_remove "is-inview") (target entry)).

Definition handleIntersect (entries : list Entry) : Method unit :=
  forEach (λ entry,
    if isIntersecting entry then animateIn (target entry)
    else animateOut entry) entries.

Definition destroy : Method unit :=
  disconnect ;;
  assign (set_elements None).

Definition constructor (selector : option string) (u : UserOptions)
  : M (World C) Instance :=
  λ w,
    let els := querySelectorAll (env w) None (default ".js-text-reveal" selector) in
    if bool_decide (length els = 0%nat) then (Normal NoElements, w)
    else
      match init (mkReveal (Some els) (merge u), w) with
      | (Normal _, (s, w')) => (Normal (Ready s), w')
      | (Throw e, (_, w')) => (Throw e, w')
      end.

Definition invoke (cb : Cb) (a : Arg Entry) : Method unit :=
  match cb, a with
  | HandleIntersect, EventArg e => handleIntersect [e]
  | HandleIntersect, _ => throw "TypeError"
  end.

End Methods.

End TextReveal.

(** ** main.js *)

Module Main.
Import Js Dom Browser.

(** The option objects of [main]. *)
Definition slider1Options : LoopSlider.UserOptions :=
  LoopSlider.mkUserOptions (Some 50%Q) (Some 20%Q) (Some true) (Some "scroll")
    None None (Some (95 # 100)%Q).

Definition slider2Options : LoopSlider.UserOptions :=
  LoopSlider.mkUserOptions (Some 50%Q) (Some 20%Q) (Some false)
    (Some "draggable") None None (Some (95 # 100)%Q).

Definition stalkerConfig : MouseStalker.UserConfig :=
  MouseStalker.mkUserConfig (Some "[data-mouse-stalker]") None None None
    (Some false) None None None None None.

(** [onItemActive] and [onItemInactive]: the class is put on, or taken
    off, the item, and the enclosing scroll item when the item is a dot. *)
Definition markItem {C} (change : string → Element → Element) (item : Elem)
    (w : World C) : World C :=
  let w := update (change "is-active") item w in
  if classList_contains "c-scroll-dot" (getElem (dom w) item) then
    match closest (env w) item ".c-scroll-item" with
    | Some parent => update (change "is-active") parent w
    | None => w
    end
  else w.

Definition progressOptions {C} : ScrollProgressAnimation.UserOptions (C := C) :=
  ScrollProgressAnimation.mkUserOptions
    (Some ".js-scroll-container") (Some ".js-scroll-progress-line")
    (Some "[data-scroll-item]") (Some "60%") None None
    (Some (markItem classList_add)) (Some (markItem classList_remove)).

Definition revealH3Options : TextReveal.UserOptions :=
  TextReveal.mkUserOptions None (Some "0px 0px -50% 0px") None None None
    (Some false) None (Some "fade").

Definition revealH2Options : TextReveal.UserOptions :=
  TextReveal.mkUserOptions None (Some "0px 0px -50% 0px") None None None
    (Some false) None (Some "slide").

(** A widget on the page: the instance, and the browser as that instance
    has shaped it (its elements, its listeners, its pending frames and
    timeouts).  Handles are opaque to the widgets and each widget writes
    only to elements it has found or made itself, so each instance is kept
    with its own part of the browser. *)
Inductive Component :=
| ASlider (i : LoopSlider.Instance) (w : World LoopSlider.Cb)
| AStalker (i : MouseStalker.Instance) (w : World MouseStalker.Cb)
| AProgress (i : ScrollProgressAnimation.Animation (C := ScrollProgressAnimation.Cb))
    (w : World ScrollProgressAnimation.Cb)
| AReveal (i : TextReveal.Instance) (w : World TextReveal.Cb).

(** The class and the target selector of an instantiation. *)
Definition Key : Type := string * string.

Definition Page : Type := list (Key * Component).

(** The browser before a script has touched it; new elements get
    references above those of the markup. *)
Definition pristine {Cb} (v : Env) (d : Store) : World Cb :=
  {| env := v; now := 0%Q; scrollY := 0%Q; dom := d;
     next_elem := S (max_list (fst <$> map_to_list d));
     frames := []; next_frame := 0; timers := []; next_timer := 0;
     listeners := []; console := []; calls := [] |}.

(** One [new] statement of [main]; an exception ends [main]. *)
Definition instantiate {Cb I} (wrap : I → World Cb → Component) (k : Key)
    (ctor : M (World Cb) I) (v : Env) (d : Store)
    (rest : Completion Page) : Completion Page :=
  match ctor (pristine v d) with
  | (Normal i, w) =>
      match rest with
      | Normal p => Normal ((k, wrap i w) :: p)
      | Throw e => Throw e
      end
  | (Throw e, _) => Throw e
  end.

Definition newProgress (v : Env) (d : Store)
  : Completion (ScrollProgressAnimation.Animation (C := ScrollProgressAnimation.Cb))
    * World ScrollProgressAnimation.Cb :=
  match ScrollProgressAnimation.constructor progressOptions (pristine v d) with
  | (Normal s, w) =>
      match ScrollProgressAnimation.init id (s, w) with
      | (Normal _, (s', w')) => (Normal s', w')
      | (Throw e, (_, w')) => (Throw e, w')
      end
  | (Throw e, w) => (Throw e, w)
  end.

(** [main]: the six [new] statements in their order.  Its first line,
    [console.log('JS Start!!')], writes to the console only and is read by
    no widget. *)
Definition main (v : Env) (d : Store) : Completion Page :=
  instantiate ASlider ("LoopSlider", ".js-loop-slider1")
    (LoopSlider.constructor id (LoopSlider.SelString ".js-loop-slider1") slider1Options) v d
  (instantiate ASlider ("LoopSlider", ".js-loop-slider2")
    (LoopSlider.constructor id (LoopSlider.SelString ".js-loop-slider2") slider2Options) v d
  (instantiate AStalker ("MouseStalker", "[data-mouse-stalker]")
    (MouseStalker.constructor id stalkerConfig) v d
  (instantiate AProgress ("ScrollProgressAnimation", ".js-scroll-container")
    (λ _, newProgress v d) v d
  (instantiate AReveal ("TextReveal", "h3")
    (TextReveal.constructor id (Some "h3") revealH3Options) v d
  (instantiate AReveal ("TextReveal", "h2")
    (TextReveal.constructor id (Some "h2") revealH2Options) v d
  (Normal [])))))).

(** What the browser does to the page after [main]. *)
Inductive PageEvent :=
| Tick (d : Q)
| ScrollTo (y : Q)
| Relayout (v : Env)
| Frame (t : option Q)
| Mouse (target : Target) (type : string) (e : LoopSlider.PointerEvent)
| Pointer (target : Target) (type : string) (e : MouseStalker.PointerEvent)
| Scrolled (target : Target) (kind : string) (ratio : Q)
| Intersected (e : TextReveal.Entry).

(** The event as one kind of widget receives it. *)
Definition shared {P} (ev : PageEvent) : option (Event P) :=
  match ev with
  | Tick d => Some (Browser.Tick d)
  | ScrollTo y => Some (Browser.ScrollTo y)
  | Relayout v => Some (Browser.Relayout v)
  | Frame t => Some (Browser.Frame t)
  | _ => None
  end.

Definition forSlider (ev : PageEvent) : option (Event LoopSlider.PointerEvent) :=
  match ev with
  | Mouse target type e => Some (Dispatch target type e)
  | _ => shared ev
  end.

Definition forStalker (ev : PageEvent) : option (Event MouseStalker.PointerEvent) :=
  match ev with
  | Pointer target type e => Some (Dispatch target type e)
  | _ => shared ev
  end.

Definition forProgress (ev : PageEvent) : option (Event Q) :=
  match ev with
  | Scrolled target kind ratio => Some (Dispatch target kind ratio)
  | _ => shared ev
  end.

Definition forReveal (ev : PageEvent) : option (Event TextReveal.Entry) :=
  match ev with
  | Intersected e =>
      Some (Dispatch (Node (TextReveal.target e)) "IntersectionObserver" e)
  | _ => shared ev
  end.

(** An instance that returned early has registered nothing: its part of
    the browser only sees time pass. *)
Definition idle {Cb P} `{EqDecision Cb} (ev : option (Event P)) (w : World Cb)
  : World Cb :=
  match ev with
  | Some ev => (Browser.step (T := unit) (λ _ _, throw "TypeError") ev (tt, w)).2.2
  | None => w
  end.

Section Step.
Variable Math_pow : Q → Q → Q.

Definition stepComponent (ev : PageEvent) (c : Component) : Component :=
  match c with
  | ASlider (LoopSlider.Ready s) w =>
      match forSlider ev with
      | Some ev' =>
          let st := (LoopSlider.step Math_pow ev' (s, w)).2 in
          ASlider (LoopSlider.Ready st.1) st.2
      | None => c
      end
  | ASlider i w => ASlider i (idle (forSlider ev) w)
  | AStalker (MouseStalker.Ready s) w =>
      match forStalker ev with
      | Some ev' =>
          let st := (MouseStalker.step ev' (s, w)).2 in
          AStalker (MouseStalker.Ready st.1) st.2
      | None => c
      end
  | AStalker i w => AStalker i (idle (forStalker ev) w)
  | AProgress s w =>
      match forProgress ev with
      | Some ev' =>
          let st := (Browser.step (ScrollProgressAnimation.invoke (C := ScrollProgressAnimation.Cb)) ev' (s, w)).2 in
          AProgress st.1 st.2
      | None => c
      end
  | AReveal (TextReveal.Ready s) w =>
      match forReveal ev with
      | Some ev' =>
          let st := (Browser.step (TextReveal.invoke id) ev' (s, w)).2 in
          AReveal (TextReveal.Ready st.1) st.2
      | None => c
      end
  | AReveal i w => AReveal i (idle (forReveal ev) w)
  end.

(** Every widget sees the event. *)
Definition step (ev : PageEvent) (p : Page) : Page :=
  map (λ kc : Key * Component, (kc.1, stepComponent ev kc.2)) p.

Definition run (evs : list PageEvent) (p : Page) : Page :=
  foldl (λ p ev, step ev p) p evs.

End Step.

(** The instantiations [main] is written to make, in order. *)
Definition configured : list Key :=
  [("LoopSlider", ".js-loop-slider1"); ("LoopSlider", ".js-loop-slider2");
   ("MouseStalker", "[data-mouse-stalker]");
   ("ScrollProgressAnimation", ".js-scroll-container");
   ("TextReveal", "h3"); ("TextReveal", "h2")].

(** Two pages agree on every widget but, possibly, the [k]-th. *)
Definition agreeExcept (k : nat) (p p' : Page) : Prop :=
  length p = length p' ∧ ∀ j, j ≠ k → p !! j = p' !! j.

End Main.

(** ** A sample page *)

Module Samples.
Import Dom Browser.

(** Markup: a slider container [10] with slides [11], [12], [13], each 100
    pixels wide; an accordion container [20] with items [21], [22], [23],
    whose triggers are [31], [32], [33] and whose contents are [41], [42],
    [43]; a second slider container [15] with slides [16], [17]; a link
    [50] with [data-mouse-stalker="VIEW"]; a heading [60] reading "Hi"; a
    scroll container [70] with the progress line [71] and the items [72],
    [73]; [document.body] is [1]. *)
Definition select (scope : option Elem) (sel : string) : list Elem :=
  match scope with
  | None =>
      if bool_decide (sel = ".js-loop-slider1") then [10]
      else if bool_decide (sel = ".js-loop-slider2") then [15]
      else if bool_decide (sel = ".js-accordion") then [20]
      else if bool_decide (sel = "h3") then [60]
      else if bool_decide (sel = ".js-scroll-container") then [70]
      else if bool_decide (sel = ".js-scroll-progress-line") then [71]
      else if bool_decide (sel = "[data-scroll-item]") then [72; 73]
      else []
  | Some e =>
      if bool_decide (e = 20 ∧ sel = ".js-accordion-item") then [21; 22; 23]
      else if bool_decide (21 ≤ e ≤ 23 ∧ sel = ".js-accordion-trigger")
      then [e + 10]
      else if bool_decide (21 ≤ e ≤ 23 ∧ sel = ".js-accordion-content")
      then [e + 20]
      else []
  end.

Definition env : Env :=
  {| hasWindow := true; hasDocument := true; body := Some 1;
     querySelectorAll := select;
     children := λ e,
       if bool_decide (e = 10) then [11; 12; 13]
       else if bool_decide (e = 15) then [16; 17] else [];
     childNodes := λ e, if bool_decide (e = 60) then [inl "Hi"] else [];
     closest := λ e sel,
       if bool_decide (e = 50 ∧ sel = "[data-mouse-stalker]") then Some 50
       else None;
     contains := λ _ _, false;
     dataset := λ e k,
       if bool_decide (e = 50 ∧ k = "mouseStalker") then "VIEW" else "";
     offsetWidth := λ _, 100%Q;
     computedGap := λ _, None;
     matchMedia := λ q, bool_decide (q = "(pointer: fine)");
     innerWidth := 1024%Q; innerHeight := 768%Q |}.

(** The page before any script has run. *)
Definition page {Cb : Type} : World Cb :=
  {| Browser.env := env; now := 0%Q; scrollY := 0%Q; dom := ∅; next_elem := 100;
     frames := []; next_frame := 0; timers := []; next_timer := 0;
     listeners := []; console := []; calls := [] |}.

(** A stand-in for [Math.pow] on the sample runs. *)
Definition pow (x y : Q) : Q := x.

(** A slider on container [10], as its constructor leaves it with the
    options of [main], and after its first frame at 16 ms. *)
Definition sliderOptions : LoopSlider.UserOptions :=
  LoopSlider.mkUserOptions (Some 50%Q) (Some 20%Q) (Some false)
    (Some "draggable") None None (Some (95 # 100)%Q).

Definition sliderLoaded : LoopSlider.Slider * World LoopSlider.Cb :=
  Eval vm_compute in
  match LoopSlider.constructor id (LoopSlider.SelString ".js-loop-slider1")
          sliderOptions page with
  | (Normal (LoopSlider.Ready s), w) => (s, w)
  | (_, w) => (LoopSlider.fresh 10 [] (LoopSlider.merge sliderOptions) w, w)
  end.

Definition sliderRunning : LoopSlider.Slider * World LoopSlider.Cb :=
  Eval vm_compute in
  (LoopSlider.updatePosition id pow (Some 16%Q) sliderLoaded).2.

(** An accordion with the default options and all three items carrying
    the active class in the markup. *)
Definition accordion : Accordion.Accordion :=
  Accordion.mkAccordion [20] (Accordion.merge
    (Accordion.mkUserOptions None None None None None)).

Definition activeItem : Element :=
  set_className ["js-accordion-item"; "is-active"] blank.

Definition allOpen : World Accordion.Cb :=
  set_dom (<[21 := activeItem]> (<[22 := activeItem]> (<[23 := activeItem]> ∅)))
    page.

(** The same page for a user who prefers reduced motion. *)
Definition reducedMotionEnv : Env :=
  {| hasWindow := true; hasDocument := true; body := Some 1;
     querySelectorAll := select;
     children := children env; childNodes := childNodes env;
     closest := closest env; contains := contains env; dataset := dataset env;
     offsetWidth := offsetWidth env; computedGap := computedGap env;
     matchMedia := λ q, true;
     innerWidth := 1024%Q; innerHeight := 768%Q |}.

(** A stalker with the configuration of [main], as its constructor leaves
    it. *)
Definition stalkerConfig : MouseStalker.UserConfig :=
  MouseStalker.mkUserConfig (Some "[data-mouse-stalker]") None None None
    (Some false) None None None None None.

Definition stalkerLoaded : MouseStalker.State :=
  Eval vm_compute in
  match MouseStalker.constructor id stalkerConfig page with
  | (Normal (MouseStalker.Ready s), w) => (s, w)
  | (_, w) => (MouseStalker.fresh (MouseStalker.merge stalkerConfig) w, w)
  end.

(** The pointer enters the link [50] and leaves it again. *)
Definition hoverAndLeave : list (Event MouseStalker.PointerEvent) :=
  [Dispatch Document "pointerover" (MouseStalker.mkPointerEvent 40 40 50 None);
   Dispatch Document "pointerout" (MouseStalker.mkPointerEvent 40 40 50 None)].

(** [destroy()] is called right after the pointer has left. *)
Definition stalkerDestroyed : MouseStalker.State :=
  Eval vm_compute in
  (MouseStalker.destroy id (MouseStalker.steps hoverAndLeave stalkerLoaded).2).2.

(** The pointer moves before the first frame, then [destroy()] is called. *)
Definition stalkerMovedDestroyed : MouseStalker.State :=
  Eval vm_compute in
  (MouseStalker.destroy id
     (MouseStalker.step
        (Dispatch Document "pointermove"
           (MouseStalker.mkPointerEvent 40 40 50 None)) stalkerLoaded).2).2.

(** The elements of the markup. *)
Definition markup : Store :=
  list_to_map
    ((λ e, (e, blank)) <$>
     [1; 10; 11; 12; 13; 15; 16; 17; 20; 21; 22; 23; 31; 32; 33; 41; 42; 43;
      50; 60; 70; 71; 72; 73]).

(** Two of the widgets of [main] on the page: the slider and the
    stalker, as their constructors leave them. *)
Definition loaded : Main.Page :=
  [(("LoopSlider", ".js-loop-slider1"),
    Main.ASlider (LoopSlider.Ready sliderLoaded.1) sliderLoaded.2);
   (("MouseStalker", "[data-mouse-stalker]"),
    Main.AStalker (MouseStalker.Ready stalkerLoaded.1) stalkerLoaded.2)].

(** The same page with the slider elsewhere in its loop and in the middle
    of a drag. *)
Definition loadedMoved : Main.Page :=
  [(("LoopSlider", ".js-loop-slider1"),
    Main.ASlider
      (LoopSlider.Ready
         (LoopSlider.set_isDragging true
            (LoopSlider.set_dragX 35
               (LoopSlider.set_baseX (-500) sliderLoaded.1))))
      sliderLoaded.2);
   (("MouseStalker", "[data-mouse-stalker]"),
    Main.AStalker (MouseStalker.Ready stalkerLoaded.1) stalkerLoaded.2)].

(** Some activity on the page. *)
Definition activity : list Main.PageEvent :=
  [Main.Frame (Some 16%Q); Main.ScrollTo 120;
   Main.Pointer Document "pointermove" (MouseStalker.mkPointerEvent 40 40 50 None);
   Main.Frame (Some 32%Q);
   Main.Mouse Window "resize" (LoopSlider.mkPointerEvent "resize" 0 None);
   Main.Intersected (TextReveal.mkEntry 60 true 10);
   Main.Scrolled (Node 72) "ScrollTrigger.onEnter" 0;
   Main.Tick 200; Main.Frame (Some 48%Q)].

End Samples.
Module BrowserWp.
Import Dom Browser.

(** [wp m Q s]: started in [s], [m] completes normally with a result and a
    state that satisfy [Q]. *)
Definition wp {S A} (m : M S A) (Q : A → S → Prop) (s : S) : Prop :=
  match m s with
  | (Normal a, s') => Q a s'
  | (Throw _, _) => False
  end.

End BrowserWp.

Module DomSpec.
Import Dom Browser.

(** The element a reference denotes on a page. *)
Definition elemAt {C} (w : World C) (e : Elem) : Element := getElem (dom w) e.

(** Several style properties written to one element, one after the
    other. *)
Definition styleAll {C} (e : Elem) (kvs : list (string * StyleValue))
    (w : World C) : World C :=
  foldl (λ w kv, update (setStyle kv.1 kv.2) e w) w kvs.

(** What the scheduler, the listeners and the console of two worlds have
    in common when only the DOM store has been written to. *)
Definition quiet {C} (w w' : World C) : Prop :=
  env w' = env w ∧ now w' = now w ∧ scrollY w' = scrollY w
  ∧ frames w' = frames w ∧ next_frame w' = next_frame w
  ∧ timers w' = timers w ∧ next_timer w' = next_timer w
  ∧ listeners w' = listeners w ∧ console w' = console w ∧ calls w' = calls w.

End DomSpec.

Module LoopSliderSpec.
Import Js Dom Browser LoopSlider.
Local Open Scope Q_scope.

(** What [getGap] returns for a slider whose wrapper exists: the numeric
    option, else the computed gap of the wrapper, else 0. *)
Definition gapOf (s : Slider) (v : Env) : Q :=
  match gap (options s) with
  | Some g => g
  | None =>
      match wrapper s with
      | Some wr => default 0 (computedGap v wr)
      | None => 0
      end
  end.

(** The listeners [setupDraggable] registers on container [c]. *)
Definition dragListeners (c : Elem) : list (Listener Cb) :=
  [mkListener (Node c) "mousedown" OnPointerDown false;
   mkListener (Node c) "touchstart" OnPointerDown false;
   mkListener Document "mousemove" OnPointerMove false;
   mkListener Document "touchmove" OnPointerMove false;
   mkListener Document "mouseup" OnPointerUp false;
   mkListener Document "touchend" OnPointerUp false].

Definition resizeListener : Listener Cb :=
  mkListener Window "resize" HandleResize false.

End LoopSliderSpec.

Module LoopSliderSpec2.
Import Js Dom Browser LoopSlider LoopSliderSpec.
Local Open Scope Q_scope.

(** The element the first argument of the constructor denotes. *)
Definition containerOf (v : Env) (selector : Selector) : option Elem :=
  match selector with
  | SelString sel => querySelector v None sel
  | SelElement e => e
  end.

(** The options a slider ends up with: the merged options, with dragging
    switched off under the scroll effect. *)
Definition effective (u : UserOptions) : Options :=
  if bool_decide (effect (merge u) = "scroll"%string)
  then set_draggable false (merge u) else merge u.

End LoopSliderSpec2.

Module LoopSliderSpec3.
Import Js Dom Browser LoopSlider LoopSliderSpec.
Local Open Scope Q_scope.

(** A live slider whose animation loop is going: the wrapper exists and
    one frame is pending. *)
Definition running (st : State) : Prop :=
  live st ∧ frames st.2 ≠ [] ∧ is_Some (wrapper st.1).

(** A slider that cannot be dragged and has not been: only the resize
    listener is registered, and the drag offset and the velocity are
    zero. *)
Definition undraggable (st : State) : Prop :=
  live st ∧ listeners st.2 = [resizeListener]
  ∧ isDragging st.1 = false ∧ dragX st.1 = 0 ∧ velocity st.1 = 0.

End LoopSliderSpec3.

Module LoopSliderDrag.
Import Js Dom Browser LoopSlider LoopSliderSpec.
Local Open Scope Q_scope.

(** Mouse events as the browser delivers them to a slider on container
    [c]. *)
Definition mouseDown (c : Elem) (x : Q) : Event PointerEvent :=
  Dispatch (Node c) "mousedown" (mkPointerEvent "mousedown" x None).
Definition mouseMove (x : Q) : Event PointerEvent :=
  Dispatch Document "mousemove" (mkPointerEvent "mousemove" x None).
Definition mouseUp (x : Q) : Event PointerEvent :=
  Dispatch Document "mouseup" (mkPointerEvent "mouseup" x None).

(** What may happen while the button is held: time passes, frames run,
    the page scrolls or is laid out again, and the mouse moves. *)
Definition whileHeld (ev : Event PointerEvent) : Prop :=
  match ev with
  | Dispatch target type e =>
      target = Document ∧ type = "mousemove"%string ∧ e_touches e = None
  | _ => True
  end.

(** Where the pointer is after an event, if it was at [x] before. *)
Definition pointerAfter (x : Q) (ev : Event PointerEvent) : Q :=
  match ev with
  | Dispatch _ _ e => e_clientX e
  | _ => x
  end.

(** A drag in progress: the button went down at [x0] when the drag offset
    was [d0], and the pointer is at [x] now. *)
Definition dragging (c : Elem) (x0 d0 x : Q) (st : State) : Prop :=
  live st
  ∧ listeners st.2 = dragListeners c ++ [resizeListener]
  ∧ isDragging st.1 = true ∧ startX st.1 = x0 ∧ startDragX st.1 = d0
  ∧ dragX st.1 == d0 + (x - x0).

End LoopSliderDrag.

Module MouseStalkerSpec.
Import Js Dom Browser MouseStalker.
Local Open Scope Q_scope.

(** The listeners [bindEvents] registers, in order. *)
Definition boundListeners : list (Listener Cb) :=
  [mkListener Document "pointermove" HandlePointerMove false;
   mkListener Document "pointerover" HandlePointerOver true;
   mkListener Document "pointerout" HandlePointerOut true;
   mkListener Document "pointerleave" HandlePointerLeave false;
   mkListener Window "blur" HandleWindowBlur false].

(** The guards of the constructor let it through. *)
Definition supported (v : Env) : Prop :=
  hasWindow v = true ∧ hasDocument v = true
  ∧ matchMedia v "(prefers-reduced-motion: reduce)" = false
  ∧ matchMedia v "(pointer: fine)" = true.

(** The stalker is within [minSpeed] of its target on both axes. *)
Definition near (s : Stalker) : bool :=
  ltb (Math_abs (targetX s - posX s)) (minSpeed (config s))
  && ltb (Math_abs (targetY s - posY s)) (minSpeed (config s)).

(** The stalker has come to rest on its target. *)
Definition atRest (s : Stalker) : Prop :=
  posX s = targetX s ∧ posY s = targetY s ∧ isMoving s = false.

(** [n] frames of the update loop with no pointer event in between. *)
Definition updates (n : nat) (st : State) : State :=
  Nat.iter n (λ st, (update id st).2) st.

(** The follow loop after [k] frames towards the target [(tx, ty)], from a
    distance of [D] at most on each axis: at rest, or within
    [D / (1 + k ease)] of the target. *)
Definition closing (c : Elem) (cfg : Config) (tx ty D : Q) (k : nat) (st : State)
  : Prop :=
  isEnabled st.1 = true ∧ container st.1 = Some c ∧ config st.1 = cfg
  ∧ targetX st.1 = tx ∧ targetY st.1 = ty
  ∧ (atRest st.1
     ∨ (Qabs (tx - posX st.1) * (1 + inject_Z (Z.of_nat k) * ease cfg) <= D
        ∧ Qabs (ty - posY st.1) * (1 + inject_Z (Z.of_nat k) * ease cfg) <= D)).

(** The timeouts of [setText] and [clearText]. *)
Definition isTextTimer (cb : Cb) : bool :=
  match cb with
  | TextTimer _ | ClearTextTimer => true
  | _ => false
  end.

Definition textPending (w : World Cb) : list (nat * (Q * Cb)) :=
  filter (λ t, isTextTimer t.2.2 = true) (timers w).

(** At most one text timeout is pending, and [textTimer] names it. *)
Definition textTracked (st : State) : Prop :=
  textPending st.2 = []
  ∨ ∃ i due cb, textPending st.2 = [(i, (due, cb))]
                ∧ textTimer st.1 = Some i ∧ i ≠ O.

End MouseStalkerSpec.

Module MouseStalkerSpec2.
Import Js Dom Browser MouseStalker MouseStalkerSpec.

(** An instance after [destroy()], on a page whose DOM store is [d]: it is
    switched off, has let go of its two elements, and listens to
    nothing. *)
Definition gone (d : Store) (st : State) : Prop :=
  isEnabled st.1 = false ∧ container st.1 = None ∧ textEl st.1 = None
  ∧ listeners st.2 = [] ∧ dom st.2 = d.

End MouseStalkerSpec2.

Module TextRevealSpec.
Import Js Dom Browser DomSpec TextReveal.

(** The element carries the class that starts its transition. *)
Definition inview {C} (w : World C) (e : Elem) : Prop :=
  classList_contains "is-inview" (elemAt w e) = true.

(** The events of a page as one TextReveal instance sees them. *)
Definition steps (evs : list (Event Entry))
  : Method (Cb := Cb) (T := Reveal) unit :=
  Browser.steps (invoke id) evs.

End TextRevealSpec.

Module ScrollProgressSpec.
Import Js Dom Browser ScrollProgressAnimation.

Section Triggers.
Context {C : Type}.

(** The trigger [animateProgress] creates for the container. *)
Definition progressTrigger (s : Animation (C := C)) (c : Elem) : Trigger :=
  mkTrigger c (start (config s)) (end_ (config s))
    [("ScrollTrigger.animation", ProgressTween)].

(** The trigger [animateItems] creates for one item. *)
Definition itemTrigger (s : Animation (C := C)) (item : Elem) : Trigger :=
  mkTrigger item (start (config s)) (end_ (config s))
    [("ScrollTrigger.onEnter", OnEnter item);
     ("ScrollTrigger.onLeaveBack", OnLeaveBack item)].

End Triggers.
End ScrollProgressSpec.

(** ** More of the sample page *)

Module Scenarios.
Import Dom Browser Samples.

(** The sample page as a script in the head finds it: the document has no
    body yet. *)
Definition headEnv : Env :=
  {| hasWindow := true; hasDocument := true; body := None;
     querySelectorAll := querySelectorAll env;
     children := children env; childNodes := childNodes env;
     closest := closest env; contains := contains env; dataset := dataset env;
     offsetWidth := offsetWidth env; computedGap := computedGap env;
     matchMedia := matchMedia env;
     innerWidth := 1024%Q; innerHeight := 768%Q |}.

Definition headPage {Cb : Type} : World Cb := set_env headEnv page.

(** The first slider of [main], which follows the scroll, as its
    constructor leaves it. *)
Definition scrollSliderLoaded : LoopSlider.Slider * World LoopSlider.Cb :=
  Eval vm_compute in
  match LoopSlider.constructor id (LoopSlider.SelString ".js-loop-slider1")
          Main.slider1Options page with
  | (Normal (LoopSlider.Ready s), w) => (s, w)
  | (_, w) => (LoopSlider.fresh 10 [] (LoopSlider.merge Main.slider1Options) w, w)
  end.

(** The stalker after the pointer has moved to [(40, 40)]. *)
Definition stalkerMoved : MouseStalker.State :=
  Eval vm_compute in
  (MouseStalker.step
     (Dispatch Document "pointermove" (MouseStalker.mkPointerEvent 40 40 50 None))
     stalkerLoaded).2.

(** An accordion that lets several items be open. *)
Definition openAllAccordion : Accordion.Accordion :=
  Accordion.mkAccordion [20] (Accordion.merge
    (Accordion.mkUserOptions (Some true) None None None None)).

(** A TextReveal on the heading [60] that plays once, and the page with
    the heading in view. *)
Definition onceReveal : TextReveal.Reveal :=
  TextReveal.mkReveal (Some [60]) (TextReveal.merge
    (TextReveal.mkUserOptions None None None None None (Some true) None None)).

Definition inviewPage : World TextReveal.Cb :=
  update (classList_add "is-inview") 60 page.

(** The ScrollProgressAnimation of [main] before [init]. *)
Definition progressBuilt
  : ScrollProgressAnimation.Animation (C := ScrollProgressAnimation.Cb) :=
  match (ScrollProgressAnimation.constructor Main.progressOptions page).1 with
  | Normal s => s
  | Throw _ =>
      ScrollProgressAnimation.mkAnimation
        (ScrollProgressAnimation.merge Main.progressOptions) None None [] []
  end.

End Scenarios.


(** * Theorems *)

Module JsFacts.
Import Js.

Lemma ltb_lt x y : ltb x y = true ↔ (x < y)%Q.
Proof.
  unfold ltb. rewrite negb_true_iff, <- not_true_iff_false, Qle_bool_iff.
  split; [apply Qnot_le_lt | apply Qlt_not_le].
Qed.

Lemma ltb_ge x y : ltb x y = false ↔ (y <= x)%Q.
Proof. unfold ltb. rewrite negb_false_iff. apply Qle_bool_iff. Qed.

(** [Math.ceil(d / w)] is the least number of steps of [w] that cover [d]. *)
Lemma ceil_div_covers (d w : Q) :
  (0 < w)%Q → (d <= w * Math_ceil (d / w))%Q.
Proof.
  intros Hw. unfold Math_ceil.
  pose proof (Qle_ceiling (d / w)) as Hc.
  apply (Qmult_le_l _ _ w Hw) in Hc.
  assert (w * (d / w) == d)%Q as E by (field; lra).
  rewrite E in Hc. exact Hc.
Qed.

Lemma ceil_div_tight (d w : Q) :
  (0 < w)%Q → (w * Math_ceil (d / w) < d + w)%Q.
Proof.
  intros Hw. unfold Math_ceil.
  pose proof (Qceiling_lt (d / w)) as Hc.
  unfold Z.sub in Hc. rewrite inject_Z_plus, inject_Z_opp in Hc.
  apply (Qmult_lt_l _ _ w Hw) in Hc.
  assert (w * (d / w) == d)%Q as E by (field; lra).
  rewrite E in Hc. change (inject_Z 1) with 1%Q in Hc. lra.
Qed.

End JsFacts.

(** The equations of the method monad. *)
Module MethodFacts.
Import Browser.

Section Laws.
Context {S A B : Type}.

Lemma bind_normal (m : M S A) (k : A → M S B) s a s' :
  m s = (Normal a, s') → bind m k s = k a s'.
Proof. unfold bind. intros ->. reflexivity. Qed.

Lemma bind_throw (m : M S A) (k : A → M S B) s e s' :
  m s = (Throw e, s') → bind m k s = (Throw e, s').
Proof. unfold bind. intros ->. reflexivity. Qed.

Lemma bind_ret (a : A) (k : A → M S B) s : bind (ret a) k s = k a s.
Proof. reflexivity. Qed.

Lemma bind_ret_tt (m : M S unit) s : bind m (λ _, ret tt) s = m s.
Proof. unfold bind. destruct (m s) as [[[]|e] s']; reflexivity. Qed.

Lemma bind_modify (f : S → S) (k : unit → M S B) s :
  bind (modify f) k s = k tt (f s).
Proof. reflexivity. Qed.

End Laws.

Section MethodLaws.
Context {Cb T B : Type}.
Local Abbreviation St := (T * World Cb)%type.

Lemma bind_this (k : T → M St B) s : bind this k s = k s.1 s.
Proof. reflexivity. Qed.

Lemma bind_world (k : World Cb → M St B) s : bind world k s = k s.2 s.
Proof. reflexivity. Qed.

Lemma bind_assign (f : T → T) (k : unit → M St B) s :
  bind (assign f) k s = k tt (f s.1, s.2).
Proof. reflexivity. Qed.

Lemma bind_effect (f : World Cb → World Cb) (k : unit → M St B) s :
  bind (Browser.effect f) k s = k tt (s.1, f s.2).
Proof. reflexivity. Qed.

Lemma bind_call {A} (f : World Cb → A * World Cb) (k : A → M St B) s :
  bind (call f) k s = k (f s.2).1 (s.1, (f s.2).2).
Proof. reflexivity. Qed.

End MethodLaws.

(** A computation keeps an observation [π] of the state: whatever it
    returns or throws, [π] reads the same afterwards. *)
Section Keeps.
Context {S X : Type} (π : S → X).

Local Abbreviation keeps := (Browser.keeps π).

Lemma keeps_ret {A} (a : A) : keeps (ret a).
Proof. intros s. reflexivity. Qed.

Lemma keeps_throw {A} e : keeps (throw (A := A) e).
Proof. intros s. reflexivity. Qed.

Lemma keeps_get : keeps get.
Proof. intros s. reflexivity. Qed.

Lemma keeps_deref {A} (o : option A) : keeps (deref o).
Proof. destruct o; [apply keeps_ret|apply keeps_throw]. Qed.

Lemma keeps_bind {A B} (m : M S A) (k : A → M S B) :
  keeps m → (∀ a, keeps (k a)) → keeps (bind m k).
Proof.
  intros Hm Hk s. unfold bind. specialize (Hm s).
  destruct (m s) as [[a|e] s']; cbn [snd] in *.
  - rewrite Hk. exact Hm.
  - exact Hm.
Qed.

Lemma keeps_modify (f : S → S) : (∀ s, π (f s) = π s) → keeps (modify f).
Proof. intros Hf s. apply Hf. Qed.

Lemma keeps_forEach {A} (f : A → M S unit) (l : list A) :
  (∀ a, keeps (f a)) → keeps (forEach f l).
Proof.
  intros Hf. induction l as [|x l IH]; cbn [forEach].
  - apply keeps_ret.
  - apply keeps_bind; [apply Hf|intros _; exact IH].
Qed.

Lemma keeps_mapM {A B} (f : A → M S B) (l : list A) :
  (∀ a, keeps (f a)) → keeps (mapM f l).
Proof.
  intros Hf. induction l as [|x l IH]; cbn [mapM].
  - apply keeps_ret.
  - apply keeps_bind; [apply Hf|intros y].
    apply keeps_bind; [exact IH|intros ys; apply keeps_ret].
Qed.

End Keeps.

Section KeepsMethod.
Context {Cb T X : Type} (π : T * World Cb → X).

Lemma keeps_this : keeps π this.
Proof. intros s. reflexivity. Qed.

Lemma keeps_world : keeps π world.
Proof. intros s. reflexivity. Qed.

Lemma keeps_assign (f : T → T) :
  (∀ s w, π (f s, w) = π (s, w)) → keeps π (assign f).
Proof. intros Hf [s w]. apply Hf. Qed.

Lemma keeps_effect (f : World Cb → World Cb) :
  (∀ s w, π (s, f w) = π (s, w)) → keeps π (Browser.effect f).
Proof. intros Hf [s w]. apply Hf. Qed.

Lemma keeps_call {A} (f : World Cb → A * World Cb) :
  (∀ s w, π (s, (f w).2) = π (s, w)) → keeps π (call f).
Proof. intros Hf [s w]. apply Hf. Qed.

End KeepsMethod.

(** A computation maintains an invariant [I] of the state, and a
    computation always completes normally. *)
Section Maintains.
Context {S : Type} (I : S → Prop).

Local Abbreviation maintains := (Browser.maintains I).

Lemma maintains_ret {A} (a : A) : maintains (ret a).
Proof. intros s Hs. exact Hs. Qed.

Lemma maintains_bind {A B} (m : M S A) (k : A → M S B) :
  maintains m → (∀ a, maintains (k a)) → maintains (bind m k).
Proof.
  intros Hm Hk s Hs. unfold bind. specialize (Hm s Hs).
  destruct (m s) as [[a|e] s']; cbn [snd] in *.
  - apply Hk. exact Hm.
  - exact Hm.
Qed.

Lemma maintains_modify (f : S → S) : (∀ s, I s → I (f s)) → maintains (modify f).
Proof. intros Hf s Hs. apply Hf, Hs. Qed.

Lemma maintains_forEach {A} (f : A → M S unit) (l : list A) :
  (∀ a, maintains (f a)) → maintains (forEach f l).
Proof.
  intros Hf. induction l as [|x l IH]; cbn [forEach].
  - apply maintains_ret.
  - apply maintains_bind; [apply Hf|intros _; exact IH].
Qed.

(** An invariant that reads the state through [π] only is maintained by
    what keeps [π]. *)
Lemma maintains_keeps {X A} (π : S → X) (m : M S A) :
  (∀ s s', π s = π s' → I s → I s') → keeps π m → maintains m.
Proof. intros Hπ Hk s Hs. apply (Hπ s); [symmetry; apply Hk|exact Hs]. Qed.

End Maintains.

Section Total.
Context {S : Type}.

Local Abbreviation total := (Browser.total (S := S)).

Lemma total_ret : total (ret tt).
Proof. intros s. reflexivity. Qed.

Lemma total_modify (f : S → S) : total (modify f).
Proof. intros s. reflexivity. Qed.

Lemma total_bind (m k : M S unit) : total m → total k → total (bind m (λ _, k)).
Proof.
  intros Hm Hk s. unfold bind. specialize (Hm s).
  destruct (m s) as [[[]|e] s']; cbn [fst] in *; [apply Hk|discriminate].
Qed.

Lemma total_forEach {A} (f : A → M S unit) (l : list A) :
  (∀ a, total (f a)) → total (forEach f l).
Proof.
  intros Hf. induction l as [|x l IH]; cbn [forEach].
  - apply total_ret.
  - apply total_bind; [apply Hf|exact IH].
Qed.

(** A total computation followed by another. *)
Lemma bind_total {B} (m : M S unit) (k : unit → M S B) s :
  total m → bind m k s = k tt (m s).2.
Proof.
  intros Hm. unfold bind. specialize (Hm s).
  destruct (m s) as [[[]|e] s']; cbn [fst snd] in *; [reflexivity|discriminate].
Qed.

Lemma forEach_app {A} (f : A → M S unit) (l1 l2 : list A) s :
  (∀ a, total (f a)) →
  forEach f (l1 ++ l2) s = forEach f l2 (forEach f l1 s).2.
Proof.
  intros Hf. revert s. induction l1 as [|x l1 IH]; intros s; cbn [forEach app].
  - reflexivity.
  - rewrite !(bind_total _ _ _ (Hf x)). apply IH.
Qed.

End Total.

(** A method is safe under an invariant of the instance and one of the
    world: started where both hold, it completes normally and both hold
    again. *)
Section Safe.
Context {Cb T : Type} (Ps : T → Prop) (Pw : World Cb → Prop).

Local Abbreviation safe := (Browser.safe Ps Pw).

Lemma safe_ret {A} (a : A) : safe (ret a).
Proof. intros s w Hs Hw. eexists _, _, _. split; [reflexivity|]. split; assumption. Qed.

Lemma safe_bind {A B} (m : M (T * World Cb) A) (k : A → M (T * World Cb) B) :
  safe m → (∀ a, safe (k a)) → safe (bind m k).
Proof.
  intros Hm Hk s w Hs Hw. destruct (Hm s w Hs Hw) as (a & s1 & w1 & E & Hs1 & Hw1).
  rewrite (bind_normal _ _ _ _ _ E). apply Hk; assumption.
Qed.

Lemma safe_bind_this {B} (k : T → M (T * World Cb) B) :
  (∀ s0, Ps s0 → safe (k s0)) → safe (bind this k).
Proof. intros Hk s w Hs Hw. rewrite bind_this. apply Hk; assumption. Qed.

Lemma safe_bind_world {B} (k : World Cb → M (T * World Cb) B) :
  (∀ w0, Pw w0 → safe (k w0)) → safe (bind world k).
Proof. intros Hk s w Hs Hw. rewrite bind_world. apply Hk; assumption. Qed.

Lemma safe_assign (f : T → T) : (∀ s, Ps s → Ps (f s)) → safe (assign f).
Proof.
  intros Hf s w Hs Hw. eexists _, _, _. split; [reflexivity|].
  split; [apply Hf, Hs|exact Hw].
Qed.

Lemma safe_effect (f : World Cb → World Cb) :
  (∀ w, Pw w → Pw (f w)) → safe (Browser.effect f).
Proof.
  intros Hf s w Hs Hw. eexists _, _, _. split; [reflexivity|].
  split; [exact Hs|apply Hf, Hw].
Qed.

Lemma safe_call {A} (f : World Cb → A * World Cb) :
  (∀ w, Pw w → Pw (f w).2) → safe (call f).
Proof.
  intros Hf s w Hs Hw. eexists _, _, _. split; [reflexivity|].
  split; [exact Hs|apply Hf, Hw].
Qed.

Lemma safe_deref {A} (o : option A) : is_Some o → safe (deref o).
Proof. intros [a ->]. apply safe_ret. Qed.

Lemma safe_forEach {A} (f : A → M (T * World Cb) unit) (l : list A) :
  (∀ a, safe (f a)) → safe (forEach f l).
Proof.
  intros Hf. induction l as [|x l IH]; cbn [forEach].
  - apply safe_ret.
  - apply safe_bind; [apply Hf|intros _; exact IH].
Qed.

Lemma safe_mapM {A B} (f : A → M (T * World Cb) B) (l : list A) :
  (∀ a, safe (f a)) → safe (mapM f l).
Proof.
  intros Hf. induction l as [|x l IH]; cbn [mapM].
  - apply safe_ret.
  - apply safe_bind; [apply Hf|intros y].
    apply safe_bind; [exact IH|intros ys; apply safe_ret].
Qed.

End Safe.

Ltac safe_step :=
  lazymatch goal with
  | |- safe _ _ (bind this _) => apply safe_bind_this; intros ? ?
  | |- safe _ _ (bind world _) => apply safe_bind_world; intros ? ?
  | |- safe _ _ (bind _ _) => apply safe_bind; [|intros ?]
  | |- safe _ _ (ret _) => apply safe_ret
  | |- safe _ _ (forEach _ _) => apply safe_forEach; intros ?
  | |- safe _ _ (mapM _ _) => apply safe_mapM; intros ?
  | |- safe _ _ (assign _) => apply safe_assign; intros ? ?; try assumption
  | |- safe _ _ (Browser.effect _) =>
      apply safe_effect; intros ? ?; try assumption
  | |- safe _ _ (call _) => apply safe_call; intros ? ?; try assumption
  | |- safe _ _ (if ?b then _ else _) => destruct b eqn:?
  | |- safe _ _ (match ?x with _ => _ end) => destruct x eqn:?
  | |- safe _ _ _ => progress cbv zeta
  end.

Ltac safe_auto := repeat safe_step.

(** Walk through a method body, leaving the assignments and effects that
    are not obviously harmless. *)
Ltac keeps_step :=
  lazymatch goal with
  | |- keeps _ (bind _ _) => apply keeps_bind; [|intros ?]
  | |- keeps _ (ret _) => apply keeps_ret
  | |- keeps _ (throw _) => apply keeps_throw
  | |- keeps _ this => apply keeps_this
  | |- keeps _ world => apply keeps_world
  | |- keeps _ (deref _) => apply keeps_deref
  | |- keeps _ (forEach _ _) => apply keeps_forEach; intros ?
  | |- keeps _ (mapM _ _) => apply keeps_mapM; intros ?
  | |- keeps _ (assign _) => apply keeps_assign; intros ? ?; try reflexivity
  | |- keeps _ (Browser.effect _) => apply keeps_effect; intros ? ?; try reflexivity
  | |- keeps _ (call _) => apply keeps_call; intros ? ?; try reflexivity
  | |- keeps _ (if ?b then _ else _) => destruct b
  | |- keeps _ (match ?x with _ => _ end) => destruct x
  | |- keeps _ _ => progress cbv zeta
  end.

Ltac keeps_auto := repeat keeps_step.

End MethodFacts.

Module LoopSliderFacts.
Import Js JsFacts Dom Browser LoopSlider.
Local Open Scope Q_scope.

Lemma loopCorrection_totalWidth s : totalWidth (loopCorrection s) = totalWidth s.
Proof.
  unfold loopCorrection.
  destruct (ltb _ _); [reflexivity|]. destruct (gtb _ _); reflexivity.
Qed.

Lemma loopCorrection_dragX s : dragX (loopCorrection s) = dragX s.
Proof.
  unfold loopCorrection.
  destruct (ltb _ _); [reflexivity|]. destruct (gtb _ _); reflexivity.
Qed.

Lemma loopCorrection_wrapper s : wrapper (loopCorrection s) = wrapper s.
Proof.
  unfold loopCorrection.
  destruct (ltb _ _); [reflexivity|]. destruct (gtb _ _); reflexivity.
Qed.

Lemma loopCorrection_inLoopRange s :
  0 < totalWidth s → inLoopRange (loopCorrection s).
Proof.
  intros Hw. unfold inLoopRange, position.
  rewrite loopCorrection_totalWidth, loopCorrection_dragX.
  unfold loopCorrection.
  destruct (ltb _ _) eqn:Hlo.
  - apply ltb_lt in Hlo. cbn [baseX set_baseX].
    pose proof (ceil_div_covers (- totalWidth s * 2 - (baseX s + dragX s)) _ Hw).
    pose proof (ceil_div_tight (- totalWidth s * 2 - (baseX s + dragX s)) _ Hw).
    lra.
  - apply ltb_ge in Hlo. unfold gtb. destruct (ltb _ _) eqn:Hhi.
    + apply ltb_lt in Hhi. cbn [baseX set_baseX].
      pose proof (ceil_div_covers (baseX s + dragX s - - totalWidth s) _ Hw).
      pose proof (ceil_div_tight (baseX s + dragX s - - totalWidth s) _ Hw).
      lra.
    + apply ltb_ge in Hhi. lra.
Qed.

End LoopSliderFacts.

Module LoopSliderFrame.
Import Js JsFacts Dom Browser MethodFacts LoopSlider LoopSliderFacts.
Local Open Scope Q_scope.

Section Frame.
Context {C : Type} `{EqDecision C} (bound : Cb → C) (Math_pow : Q → Q → Q).

Lemma frameRender_slider (s : Slider) (w : World C) :
  ∃ a, (frameRender bound (s, w)).2.1 = set_animation a (loopCorrection s).
Proof.
  unfold frameRender, bind, assign, modify, this, deref, Browser.effect, call.
  cbn. rewrite loopCorrection_wrapper. destruct (wrapper s); cbn.
  - eexists. reflexivity.
  - exists (animation (loopCorrection s)). destruct (loopCorrection s); reflexivity.
Qed.

Lemma autoScroll_totalWidth dt m s : totalWidth (autoScroll dt m s) = totalWidth s.
Proof. unfold autoScroll. destruct (negb _); reflexivity. Qed.

Lemma inertiaStep_totalWidth dt s :
  totalWidth (inertiaStep Math_pow dt s) = totalWidth s.
Proof.
  unfold inertiaStep.
  destruct (_ && _); [reflexivity|]. destruct (_ && _); reflexivity.
Qed.

(** The motion of a frame completes normally and keeps the dimensions. *)
Lemma frameMotion_normal t (s : Slider) (w : World C) :
  (frameMotion Math_pow t (s, w)).1 = Normal tt.
Proof.
  unfold frameMotion, scrollFollow, bind, assign, modify, this, world, ret.
  cbn. destruct (isScroll _); reflexivity.
Qed.

Lemma frameMotion_totalWidth t (s : Slider) (w : World C) :
  totalWidth (frameMotion Math_pow t (s, w)).2.1 = totalWidth s.
Proof.
  unfold frameMotion, scrollFollow, bind, assign, modify, this, world, ret.
  cbn. destruct (isScroll _); cbn;
    rewrite inertiaStep_totalWidth, autoScroll_totalWidth; reflexivity.
Qed.

(** After the first frame, a frame is its motion followed by the
    correction and the rendering. *)
Lemma updatePosition_later ts (s : Slider) (w : World C) :
  falsy_opt (lastFrameTime s) = false →
  updatePosition bound Math_pow ts (s, w)
  = frameRender bound (frameMotion Math_pow (frameTime ts w) (s, w)).2.
Proof.
  intros Hl. unfold updatePosition.
  rewrite bind_world, bind_this. cbn [fst snd]. rewrite Hl.
  pose proof (frameMotion_normal (frameTime ts w) s w) as Hn.
  destruct (frameMotion _ _ _) as [r st] eqn:E. cbn [fst snd] in *. subst r.
  exact (bind_normal _ (λ _, frameRender bound) _ _ _ E).
Qed.


Lemma loopCorrection_shift s :
  ∃ k : Z, baseX (loopCorrection s) == baseX s + inject_Z k * totalWidth s.
Proof.
  unfold loopCorrection, Math_ceil.
  destruct (ltb _ _).
  - eexists. cbn [baseX set_baseX]. rewrite Qmult_comm. reflexivity.
  - destruct (gtb _ _).
    + eexists (- _)%Z. cbn [baseX set_baseX]. rewrite inject_Z_opp. ring.
    + exists 0%Z. ring.
Qed.


End Frame.
End LoopSliderFrame.

Module LoopSliderResize.
Import Js JsFacts Dom Browser MethodFacts LoopSlider.
Local Open Scope Q_scope.

Section Dimensions.
Context {C : Type} `{EqDecision C}.

(** [getGap] reads only. *)
Lemma getGap_pure (s : Slider) (w : World C) :
  (∃ g, getGap (s, w) = (Normal g, (s, w)))
  ∨ (∃ e, getGap (s, w) = (Throw e, (s, w))).
Proof.
  unfold getGap. rewrite bind_this. cbn [fst].
  destruct (gap (options s)); [left; eexists; reflexivity|].
  destruct (wrapper s); [left|right]; eexists; reflexivity.
Qed.

(** What [updateDimensions] leaves behind, by cases on how far it gets:
    it stops at a [null] wrapper or at a missing first slide before
    anything is assigned; otherwise the widths are recomputed and [baseX]
    is divided and multiplied by the new [totalWidth] when that is
    positive. *)
Lemma updateDimensions_cases (s : Slider) (w : World C) :
  let s' := (updateDimensions (s, w)).2.1 in
  s' = s
  ∨ (baseX s' = baseX s ∧ ¬ 0 < totalWidth s')
  ∨ (baseX s' = baseX s / totalWidth s' * totalWidth s' ∧ 0 < totalWidth s').
Proof.
  unfold updateDimensions.
  destruct (getGap_pure s w) as [[g Hg]|[e Hg]].
  2:{ rewrite (bind_throw _ _ _ _ _ Hg). left; reflexivity. }
  rewrite (bind_normal _ _ _ _ _ Hg), bind_this, bind_world. cbn [fst snd].
  destruct (slides s) as [|first rest] eqn:Hs; [left; reflexivity|].
  cbn [head deref].
  rewrite bind_ret, bind_assign, bind_this, bind_assign, bind_this.
  cbn [fst snd]. cbn [totalWidth set_totalWidth].
  match goal with |- context [gtb ?W 0] => destruct (gtb W 0) eqn:Hpos end.
  - right; right. cbn. apply ltb_lt in Hpos. split; [reflexivity|exact Hpos].
  - right; left. cbn. apply ltb_ge in Hpos. split; [reflexivity|].
    intros Hlt. exact (Qlt_not_le _ _ Hlt Hpos).
Qed.


End Dimensions.
End LoopSliderResize.

Module ViteConfigFacts.
Import ViteConfig.

Lemma append_nil (b : string) : String.append "" b = b.
Proof. reflexivity. Qed.

Lemma append_cons (x : ascii) (a b : string) :
  String.append (String x a) b = String x (String.append a b).
Proof. reflexivity. Qed.

Lemma append_assoc (a b c : string) :
  String.append (String.append a b) c = String.append a (String.append b c).
Proof.
  induction a as [|x a IH]; [reflexivity|].
  rewrite !append_cons, IH. reflexivity.
Qed.

Lemma append_empty_r (a : string) : String.append a "" = a.
Proof.
  induction a as [|x a IH]; [reflexivity|].
  rewrite append_cons, IH. reflexivity.
Qed.

(** The matcher returns exactly the remainders left by the words of the
    pattern's language. *)
Lemma matchPrefix_lang (r : Regex) :
  ∀ s rest, In rest (matchPrefix r s) ↔ ∃ m, In m (lang r) ∧ s = String.append m rest.
Proof.
  induction r as [|c|r1 IH1 r2 IH2|r1 IH1 r2 IH2|r IH]; intros s rest; cbn [matchPrefix lang].
  - split.
    + intros [->|[]]. exists "". split; [left; reflexivity|reflexivity].
    + intros (m & [<-|[]] & ->). left. reflexivity.
  - split.
    + destruct s as [|c' s']; [intros []|].
      destruct (Ascii.eqb c c') eqn:E; [|intros []].
      apply Ascii.eqb_eq in E. subst c'. intros [->|[]].
      exists (String c ""). split; [left; reflexivity|reflexivity].
    + intros (m & [<-|[]] & ->). rewrite append_cons, append_nil.
      rewrite Ascii.eqb_refl. left. reflexivity.
  - rewrite in_flat_map. split.
    + intros (mid & H1 & H2). apply IH1 in H1 as (a & Ha & ->).
      apply IH2 in H2 as (b & Hb & ->).
      exists (String.append a b). split; [|symmetry; apply append_assoc].
      apply in_flat_map. exists a. split; [exact Ha|]. apply in_map. exact Hb.
    + intros (m & Hm & ->). apply in_flat_map in Hm as (a & Ha & Hm).
      apply in_map_iff in Hm as (b & <- & Hb).
      exists (String.append b rest). split.
      * apply IH1. exists a. split; [exact Ha|apply append_assoc].
      * apply IH2. exists b. split; [exact Hb|reflexivity].
  - rewrite in_app_iff, IH1, IH2. split.
    + intros [(m & Hm & ->)|(m & Hm & ->)]; exists m; (split; [|reflexivity]);
        apply in_app_iff; [left|right]; exact Hm.
    + intros (m & Hm & ->). apply in_app_iff in Hm as [Hm|Hm]; [left|right];
        exists m; (split; [exact Hm|reflexivity]).
  - cbn [In]. rewrite IH. split.
    + intros [->|(m & Hm & ->)].
      * exists "". split; [left; reflexivity|reflexivity].
      * exists m. split; [right; exact Hm|reflexivity].
    + intros (m & [<-|Hm] & ->); [left; reflexivity|].
      right. exists m. split; [exact Hm|reflexivity].
Qed.

Lemma matchToEnd_lang (r : Regex) (s : string) :
  matchToEnd r s = true ↔ In s (lang r).
Proof.
  unfold matchToEnd. rewrite existsb_exists. split.
  - intros (rest & Hin & He). destruct rest; [|discriminate].
    apply matchPrefix_lang in Hin as (m & Hm & ->).
    rewrite append_empty_r. exact Hm.
  - intros Hin. exists "". split; [|reflexivity].
    apply matchPrefix_lang. exists s. split; [exact Hin|].
    symmetry. apply append_empty_r.
Qed.

(** [test] holds exactly of the names that end in a word of the language. *)
Lemma test_endsWith (r : Regex) (s : string) :
  test r s = true ↔ ∃ m, In m (lang r) ∧ endsWith m s.
Proof.
  induction s as [|c s IH]; cbn [test]; rewrite orb_true_iff, matchToEnd_lang.
  - split.
    + intros [H|H]; [|discriminate]. exists "". split; [exact H|]. exists "". reflexivity.
    + intros (m & Hm & stem & E). left.
      destruct stem; [rewrite append_nil in E; subst m; exact Hm|].
      rewrite append_cons in E. discriminate.
  - rewrite IH. split.
    + intros [H|(m & Hm & stem & ->)].
      * exists (String c s). split; [exact H|]. exists "". reflexivity.
      * exists m. split; [exact Hm|]. exists (String c stem). reflexivity.
    + intros (m & Hm & stem & E). destruct stem as [|c' stem].
      * left. rewrite append_nil in E. subst m. exact Hm.
      * right. rewrite append_cons in E. injection E as -> ->.
        exists m. split; [exact Hm|]. exists stem. reflexivity.
Qed.

(** The last character of a name decides between the two patterns. *)
Lemma lastChar_append (stem ext : string) :
  ext ≠ "" → lastChar (String.append stem ext) = lastChar ext.
Proof.
  intros Hne. induction stem as [|c stem IH]; [reflexivity|].
  rewrite append_cons. cbn [lastChar]. rewrite IH.
  destruct ext as [|d ext]; [contradiction|].
  cbn. destruct (lastChar ext); reflexivity.
Qed.

Lemma image_not_css (name : string) :
  hasImageExtension name → endsWith ".css" name → False.
Proof.
  intros (ext & Hext & stem1 & E1) (stem2 & E2).
  assert (lastChar name = Some "s"%char) as Hs
    by (rewrite E2, lastChar_append; [reflexivity|discriminate]).
  rewrite E1 in Hs. unfold imageExtensions in Hext.
  repeat (apply elem_of_cons in Hext as [->|Hext];
          [rewrite lastChar_append in Hs; [discriminate Hs|discriminate]|]).
  inversion Hext.
Qed.

Lemma lang_imagePattern : lang imagePattern = imageExtensions.
Proof. reflexivity. Qed.

Lemma lang_cssPattern : lang cssPattern = [".css"].
Proof. reflexivity. Qed.

Lemma test_image (name : string) :
  test imagePattern name = true ↔ hasImageExtension name.
Proof.
  rewrite test_endsWith, lang_imagePattern. unfold hasImageExtension.
  split; intros (m & Hm & He); exists m; (split; [|exact He]).
  - apply list_elem_of_In. exact Hm.
  - apply list_elem_of_In. exact Hm.
Qed.

Lemma test_css (name : string) :
  test cssPattern name = true ↔ endsWith ".css" name.
Proof.
  rewrite test_endsWith, lang_cssPattern. split.
  - intros (m & [<-|[]] & He). exact He.
  - intros He. exists ".css". split; [left; reflexivity|exact He].
Qed.

(** C4: the output path of an asset depends only on how its name ends:
    an image extension gives the image directory, [.css] the scss
    directory, anything else (a missing name too) the assets directory;
    entry and chunk scripts go to the js directory. *)
Theorem asset_paths_by_extension :
  (∀ name, hasImageExtension name →
     assetFileNames (Some name) = "assets/image/[name][extname]")
  ∧ (∀ name, endsWith ".css" name →
       assetFileNames (Some name) = "assets/scss/[name][extname]")
  ∧ (∀ name, ¬ hasImageExtension name → ¬ endsWith ".css" name →
       assetFileNames (Some name) = "assets/[name][extname]")
  ∧ assetFileNames None = "assets/[name][extname]"
  ∧ entryFileNames = "assets/js/[name].js"
  ∧ chunkFileNames = "assets/js/[name].js".
Proof.
  repeat split.
  - intros name H. apply test_image in H. unfold assetFileNames.
    change (default "" (Some name)) with name.
    rewrite H. reflexivity.
  - intros name H. unfold assetFileNames.
    change (default "" (Some name)) with name.
    destruct (test imagePattern name) eqn:Ei.
    + exfalso. apply test_image in Ei. exact (image_not_css name Ei H).
    + apply test_css in H. rewrite H. reflexivity.
  - intros name Hi Hc. unfold assetFileNames.
    change (default "" (Some name)) with name.
    destruct (test imagePattern name) eqn:Ei.
    + exfalso. apply Hi, test_image, Ei.
    + destruct (test cssPattern name) eqn:Ec; [|reflexivity].
      exfalso. apply Hc, test_css, Ec.
Qed.

End ViteConfigFacts.

(** Reading the DOM store after a write. *)
Module DomFacts.
Import Dom Browser.

Section Store.
Context {Cb : Type}.
Implicit Types (w : World Cb) (e : Elem) (f : Element → Element).

Lemma getElem_update_same f e w :
  getElem (dom (update f e w)) e = f (getElem (dom w) e).
Proof.
  unfold update, updElem, getElem. cbn [dom set_dom].
  rewrite lookup_insert_eq. reflexivity.
Qed.

Lemma getElem_update_other f e e' w :
  e' ≠ e → getElem (dom (update f e w)) e' = getElem (dom w) e'.
Proof.
  intros Hne. unfold update, updElem, getElem. cbn [dom set_dom].
  rewrite lookup_insert_ne by congruence. reflexivity.
Qed.

(** A write that keeps the class list of the element it touches keeps
    every class list. *)
Lemma className_update f e e' w :
  (∀ el, className (f el) = className el) →
  className (getElem (dom (update f e w)) e') = className (getElem (dom w) e').
Proof.
  intros Hf. destruct (decide (e' = e)) as [->|Hne].
  - rewrite getElem_update_same. apply Hf.
  - rewrite getElem_update_other by exact Hne. reflexivity.
Qed.

End Store.

Lemma contains_add c el : classList_contains c (classList_add c el) = true.
Proof.
  unfold classList_add. destruct (classList_contains c el) eqn:E; [exact E|].
  unfold classList_contains. cbn. apply bool_decide_eq_true.
  apply elem_of_app. right. apply list_elem_of_singleton. reflexivity.
Qed.

Lemma contains_remove c el : classList_contains c (classList_remove c el) = false.
Proof.
  unfold classList_contains, classList_remove. cbn.
  apply bool_decide_eq_false. intros Hin.
  apply list_elem_of_filter in Hin as [Hne _]. apply Hne. reflexivity.
Qed.

End DomFacts.

Module AccordionFacts.
Import Dom Browser MethodFacts DomFacts Accordion.

Section Toggle.
Context {C : Type} `{EqDecision C}.
Implicit Types (s : Accordion) (w : World C) (e item : Elem).

Lemma sameClasses_active ac w w' e :
  sameClasses w w' → (active ac w' e ↔ active ac w e).
Proof. intros Hs. unfold active, classList_contains. rewrite Hs. reflexivity. Qed.

Lemma setAria_sameClasses v e w :
  sameClasses w (update (setAttribute "aria-hidden" v) e w).
Proof. intros e'. apply className_update. reflexivity. Qed.

(** [open] and [close] complete, keep the instance, the environment and
    every class list. *)
Lemma open_spec item s w :
  ∃ w', open item (s, w) = (Normal tt, (s, w'))
        ∧ sameClasses w w' ∧ env w' = env w.
Proof.
  unfold open. rewrite bind_this, bind_world. cbn [fst snd].
  destruct (querySelector _ _ _) as [content|].
  - eexists. split; [reflexivity|]. split; [apply setAria_sameClasses|reflexivity].
  - exists w. split; [reflexivity|]. split; [intros e; reflexivity|reflexivity].
Qed.

Lemma close_spec item s w :
  ∃ w', close item (s, w) = (Normal tt, (s, w'))
        ∧ sameClasses w w' ∧ env w' = env w.
Proof.
  unfold close. rewrite bind_this, bind_world. cbn [fst snd].
  destruct (querySelector _ _ _) as [content|].
  - eexists. split; [reflexivity|]. split; [apply setAria_sameClasses|reflexivity].
  - exists w. split; [reflexivity|]. split; [intros e; reflexivity|reflexivity].
Qed.

Lemma active_remove_other ac x e w :
  e ≠ x → (active ac (update (classList_remove ac) x w) e ↔ active ac w e).
Proof. intros Hne. unfold active. rewrite getElem_update_other by exact Hne. reflexivity. Qed.

Lemma active_remove_same ac x w : ¬ active ac (update (classList_remove ac) x w) x.
Proof.
  unfold active. rewrite getElem_update_same, contains_remove. discriminate.
Qed.

Lemma closeOther_spec s item x w :
  let ac := activeClass (options s) in
  ∃ w', closeOther s item x (s, w) = (Normal tt, (s, w'))
        ∧ (x ≠ item → ¬ active ac w' x)
        ∧ (∀ e, e ≠ x ∨ x = item → (active ac w' e ↔ active ac w e))
        ∧ (∀ e, ¬ active ac w e → ¬ active ac w' e).
Proof.
  intros ac. unfold closeOther. fold ac. case_bool_decide as Hx.
  - rewrite bind_effect. cbn [fst snd].
    destruct (close_spec x s (update (classList_remove ac) x w)) as (w' & -> & Hs & _).
    exists w'. split; [reflexivity|].
    assert (∀ e, active ac w' e ↔ active ac (update (classList_remove ac) x w) e) as Hw'
      by (intros e; apply sameClasses_active, Hs).
    split; [|split].
    + intros _. rewrite Hw'. apply active_remove_same.
    + intros e [Hne|Heq]; [|contradiction].
      rewrite Hw'. apply active_remove_other. exact Hne.
    + intros e Hn. rewrite Hw'. destruct (decide (e = x)) as [->|Hne].
      * apply active_remove_same.
      * rewrite active_remove_other by exact Hne. exact Hn.
  - exists w. split; [reflexivity|]. split; [|split].
    + intros Hne. contradiction.
    + intros e _. reflexivity.
    + intros e Hn. exact Hn.
Qed.

Lemma closeOthers_spec s item (l : list Elem) w :
  let ac := activeClass (options s) in
  ∃ w', forEach (closeOther s item) l (s, w) = (Normal tt, (s, w'))
        ∧ (∀ e, e ∈ l → e ≠ item → ¬ active ac w' e)
        ∧ (active ac w' item ↔ active ac w item)
        ∧ (∀ e, ¬ active ac w e → ¬ active ac w' e).
Proof.
  intros ac. revert w. induction l as [|x l IH]; intros w.
  - exists w. split; [reflexivity|]. split; [|split].
    + intros e Hin. inversion Hin.
    + reflexivity.
    + intros e Hn. exact Hn.
  - cbn [forEach].
    destruct (closeOther_spec s item x w) as (w1 & E1 & Hx & Hkeep & Hmono).
    rewrite (bind_normal _ _ _ _ _ E1).
    destruct (IH w1) as (w' & E & Hl & Hitem & Hmono').
    exists w'. split; [exact E|]. split; [|split].
    + intros e Hin Hne. apply elem_of_cons in Hin as [->|Hin].
      * apply Hmono', Hx, Hne.
      * apply Hl; assumption.
    + rewrite Hitem. apply Hkeep. destruct (decide (item = x)); [right|left]; congruence.
    + intros e Hn. apply Hmono', Hmono, Hn.
Qed.

Lemma toggle_unfold item allItems s w :
  toggle item allItems (s, w)
  = let ac := activeClass (options s) in
    let isActive := classList_contains ac (getElem (dom w) item) in
    bind (if negb (shouldOpenAll (options s)) && negb isActive
          then forEach (closeOther s item) allItems else ret tt)
      (λ _, if isActive
            then bind (Browser.effect (update (classList_remove ac) item))
                   (λ _, close item)
            else bind (Browser.effect (update (classList_add ac) item))
                   (λ _, open item)) (s, w).
Proof. reflexivity. Qed.

(** A call on an item that does not carry the class: the others are
    closed, then the item is opened. *)
Lemma toggle_opening item allItems s w :
  shouldOpenAll (options s) = false →
  ¬ active (activeClass (options s)) w item →
  ∃ w', toggle item allItems (s, w) = (Normal tt, (s, w'))
        ∧ active (activeClass (options s)) w' item
        ∧ ∀ e, e ∈ allItems → e ≠ item → ¬ active (activeClass (options s)) w' e.
Proof.
  intros Hall Hinactive. rewrite toggle_unfold. cbv zeta.
  set (ac := activeClass (options s)).
  apply not_true_is_false in Hinactive. unfold active in Hinactive. fold ac in Hinactive.
  rewrite Hinactive, Hall. cbn [negb andb].
  destruct (closeOthers_spec s item allItems w) as (w1 & E1 & Hl & _ & _).
  rewrite (bind_normal _ _ _ _ _ E1), bind_effect. cbn [fst snd].
  destruct (open_spec item s (update (classList_add ac) item w1)) as (w' & E & Hs & _).
  exists w'. split; [exact E|].
  assert (∀ e, active ac w' e ↔ active ac (update (classList_add ac) item w1) e) as Hw'
    by (intros e; apply sameClasses_active, Hs).
  split.
  - rewrite Hw'. unfold active. rewrite getElem_update_same. apply contains_add.
  - intros e Hin Hne. rewrite Hw'. unfold active.
    rewrite getElem_update_other by exact Hne. apply Hl; assumption.
Qed.

(** A call on an item that carries the class: only that item changes. *)
Lemma toggle_closing item allItems s w :
  active (activeClass (options s)) w item →
  ∃ w', toggle item allItems (s, w) = (Normal tt, (s, w'))
        ∧ ¬ active (activeClass (options s)) w' item
        ∧ ∀ e, e ≠ item →
            (active (activeClass (options s)) w' e
             ↔ active (activeClass (options s)) w e).
Proof.
  intros Hactive. rewrite toggle_unfold. cbv zeta.
  set (ac := activeClass (options s)).
  unfold active in Hactive. fold ac in Hactive.
  rewrite Hactive, andb_false_r, bind_ret, bind_effect. cbn [fst snd].
  destruct (close_spec item s (update (classList_remove ac) item w)) as (w' & E & Hs & _).
  exists w'. split; [exact E|].
  assert (∀ e, active ac w' e ↔ active ac (update (classList_remove ac) item w) e) as Hw'
    by (intros e; apply sameClasses_active, Hs).
  split.
  - rewrite Hw'. apply active_remove_same.
  - intros e Hne. rewrite Hw'. apply active_remove_other. exact Hne.
Qed.

Lemma active_dec ac w e : active ac w e ∨ ¬ active ac w e.
Proof. unfold active. destruct (classList_contains _ _); [left|right]; congruence. Qed.


End Toggle.
End AccordionFacts.

Module EarlyReturn.
Import Js Dom Browser MethodFacts.

Section Guards.
Context {C : Type} `{EqDecision C}.

(** C10: with reduced motion preferred, or a pointer that is not fine, or
    no [window] or [document], the MouseStalker constructor completes
    without building an instance and the world (DOM store, listeners,
    pending frames and timers) is the one it started from. *)
Theorem stalker_constructor_guarded (bound : MouseStalker.Cb → C)
    (u : MouseStalker.UserConfig) (w : World C) :
  matchMedia (env w) "(prefers-reduced-motion: reduce)" = true
  ∨ matchMedia (env w) "(pointer: fine)" = false
  ∨ hasWindow (env w) = false
  ∨ hasDocument (env w) = false →
  (MouseStalker.constructor bound u w).2 = w
  ∧ ∃ i, (MouseStalker.constructor bound u w).1 = Normal i
         ∧ ∀ s, i ≠ MouseStalker.Ready s.
Proof.
  intros Hguard. unfold MouseStalker.constructor.
  destruct (hasWindow (env w)) eqn:Hw, (hasDocument (env w)) eqn:Hd; cbn [negb orb];
    try (split; [reflexivity|eexists; split; [reflexivity|intros s; discriminate]]).
  destruct (matchMedia (env w) "(prefers-reduced-motion: reduce)") eqn:Hr;
    try (split; [reflexivity|eexists; split; [reflexivity|intros s; discriminate]]).
  destruct (matchMedia (env w) "(pointer: fine)") eqn:Hp; cbn [negb];
    try (split; [reflexivity|eexists; split; [reflexivity|intros s; discriminate]]).
  destruct Hguard as [?|[?|[?|?]]]; discriminate.
Qed.


End Guards.
End EarlyReturn.

(** The event loop. *)
Module LoopFacts.
Import Dom Browser MethodFacts.

Section Loop.
Context {Cb T P : Type} `{EqDecision Cb}.
Variable invoke : Cb → Arg P → Method (Cb := Cb) (T := T) unit.
Local Abbreviation St := (T * World Cb)%type.

Lemma run_total cb a : total (run invoke cb a).
Proof.
  intros st. unfold run.
  destruct (invoke cb a _) as [[[]|e] st']; reflexivity.
Qed.

(** What does not read the record of calls or the console is kept by
    [run] when the callback keeps it. *)
Lemma run_keeps {X} (π : St → X) cb a :
  (∀ s w c, π (s, set_calls c w) = π (s, w)) →
  (∀ s w l m, π (s, console_log l m w) = π (s, w)) →
  keeps π (invoke cb a) → keeps π (run invoke cb a).
Proof.
  intros Hcalls Hconsole Hk [s w]. unfold run. cbn [fst snd].
  specialize (Hk (s, set_calls (calls w ++ [cb]) w)).
  destruct (invoke cb a _) as [[[]|e] [s' w']]; cbn [fst snd] in *.
  - rewrite Hk. apply Hcalls.
  - rewrite Hconsole, Hk. apply Hcalls.
Qed.

Lemma effect_total (f : World Cb → World Cb) : total (Browser.effect (T := T) f).
Proof. intros st. reflexivity. Qed.

Lemma runFrame_total t : total (runFrame invoke t).
Proof.
  intros st. unfold runFrame. rewrite bind_world.
  apply total_forEach. intros f st'. rewrite bind_world.
  destruct (bool_decide _); [|reflexivity].
  apply total_bind; [apply effect_total|apply run_total].
Qed.

Lemma runTimers_total fuel : total (runTimers invoke fuel).
Proof.
  induction fuel as [|fuel IH]; intros st; cbn [runTimers]; [reflexivity|].
  rewrite bind_world. destruct (earliest _ _) as [t|]; [|reflexivity].
  apply total_bind; [apply effect_total|].
  apply total_bind; [apply run_total|exact IH].
Qed.

Lemma tick_total d : total (tick invoke d).
Proof.
  intros st. unfold tick. rewrite bind_effect, bind_world. apply runTimers_total.
Qed.

Lemma dispatch_total target type e : total (dispatch invoke target type e).
Proof.
  intros st. unfold dispatch. rewrite bind_world.
  apply total_forEach. intros l st'. rewrite bind_world.
  destruct (bool_decide _); [apply run_total|reflexivity].
Qed.

Lemma step_total ev : total (step invoke ev).
Proof.
  destruct ev; cbn [step].
  - apply tick_total.
  - apply effect_total.
  - apply effect_total.
  - apply runFrame_total.
  - apply dispatch_total.
Qed.

Lemma steps_total evs : total (steps invoke evs).
Proof. apply total_forEach, step_total. Qed.

Lemma steps_cons ev evs st :
  steps invoke (ev :: evs) st = steps invoke evs (step invoke ev st).2.
Proof.
  unfold steps. cbn [forEach].
  exact (bind_total (step invoke ev) (λ _, forEach (step invoke) evs) st
           (step_total ev)).
Qed.

Lemma steps_app evs1 evs2 st :
  steps invoke (evs1 ++ evs2) st = steps invoke evs2 (steps invoke evs1 st).2.
Proof. apply forEach_app, step_total. Qed.

(** An invariant that every callback maintains, and that does not read
    the clock, the scroll offset, the environment or the pending frames and
    timers except through [cancel] and [clear], holds after every event. *)
Section Invariant.
Variable I : St → Prop.
Hypothesis I_run : ∀ cb a, maintains I (run invoke cb a).
Hypothesis I_now : ∀ v s w, I (s, w) → I (s, set_now v w).
Hypothesis I_scroll : ∀ v s w, I (s, w) → I (s, set_scrollY v w).
Hypothesis I_env : ∀ v s w, I (s, w) → I (s, set_env v w).
Hypothesis I_cancel : ∀ id s w, I (s, w) → I (s, cancelAnimationFrame id w).
Hypothesis I_clear : ∀ id s w, I (s, w) → I (s, clearTimeout id w).

Lemma maintains_effect (f : World Cb → World Cb) :
  (∀ s w, I (s, w) → I (s, f w)) → maintains I (Browser.effect (T := T) f).
Proof. intros Hf [s w] Hs. apply Hf, Hs. Qed.

Lemma runTimers_maintains fuel : maintains I (runTimers invoke fuel).
Proof using All.
  induction fuel as [|fuel IH]; cbn [runTimers]; [apply maintains_ret|].
  intros st Hs. rewrite bind_world. destruct (earliest _ _) as [t|]; [|exact Hs].
  revert st Hs. apply maintains_bind; [apply maintains_effect, I_clear|intros _].
  apply maintains_bind; [apply I_run|intros _; exact IH].
Qed.

Lemma step_maintains ev : maintains I (step invoke ev).
Proof using All.
  destruct ev as [d|y|v|t|target type e]; cbn [step].
  - unfold tick. apply maintains_bind; [apply maintains_effect; intros; apply I_now; assumption|intros _].
    intros st Hs. rewrite bind_world. apply runTimers_maintains, Hs.
  - apply maintains_effect. intros. apply I_scroll. assumption.
  - apply maintains_effect. intros. apply I_env. assumption.
  - unfold runFrame. intros st Hs. rewrite bind_world. revert Hs.
    apply maintains_forEach. intros f st' Hs'. rewrite bind_world.
    destruct (bool_decide _); [|exact Hs']. revert st' Hs'.
    apply maintains_bind; [apply maintains_effect, I_cancel|intros _; apply I_run].
  - unfold dispatch. intros st Hs. rewrite bind_world. revert Hs.
    apply maintains_forEach. intros l st' Hs'. rewrite bind_world.
    destruct (bool_decide _); [|exact Hs']. apply I_run, Hs'.
Qed.

Lemma steps_maintains evs : maintains I (steps invoke evs).
Proof using All. apply maintains_forEach, step_maintains. Qed.

End Invariant.

Lemma earliest_elem now (ts : list (nat * (Q * Cb))) t :
  earliest now ts = Some t → t ∈ ts.
Proof.
  revert t. induction ts as [|x ts IH]; intros t; cbn [earliest]; [discriminate|].
  destruct (Qle_bool x.2.1 now).
  - destruct (earliest now ts) as [t'|].
    + destruct (Qle_bool x.2.1 t'.2.1); intros [= <-].
      * apply elem_of_cons. left. reflexivity.
      * apply elem_of_cons. right. apply IH. reflexivity.
    + intros [= <-]. apply elem_of_cons. left. reflexivity.
  - intros H. apply elem_of_cons. right. apply IH, H.
Qed.

(** An invariant maintained by each callback where the browser can call
    it: a pending frame or timeout once it is taken off the list, a
    listener while it is registered. *)
Section Pending.
Variable I : St → Prop.
Hypothesis I_frame : ∀ f t s w,
  I (s, w) → f ∈ frames w →
  I (run invoke f.2 (Timestamp t) (s, cancelAnimationFrame f.1 w)).2.
Hypothesis I_timer : ∀ tm s w,
  I (s, w) → tm ∈ timers w →
  I (run invoke tm.2.2 NoArg (s, clearTimeout tm.1 w)).2.
Hypothesis I_listener : ∀ l e s w,
  I (s, w) → l ∈ listeners w → I (run invoke (l_cb l) (EventArg e) (s, w)).2.
Hypothesis I_now : ∀ v s w, I (s, w) → I (s, set_now v w).
Hypothesis I_scroll : ∀ v s w, I (s, w) → I (s, set_scrollY v w).
Hypothesis I_env : ∀ v s w, I (s, w) → I (s, set_env v w).

Lemma runTimers_pending fuel : maintains I (runTimers invoke fuel).
Proof using All.
  induction fuel as [|fuel IH]; cbn [runTimers]; [apply maintains_ret|].
  intros [s w] Hs. rewrite bind_world. cbn [snd].
  destruct (earliest _ _) as [t|] eqn:E; [|exact Hs].
  apply earliest_elem in E. rewrite bind_effect. cbn [fst snd].
  rewrite (bind_total (run invoke t.2.2 NoArg) (λ _, runTimers invoke fuel) _
             (run_total _ _)).
  apply IH, I_timer; assumption.
Qed.

Lemma step_pending ev : maintains I (step invoke ev).
Proof using All.
  destruct ev as [d|y|v|t|target type e]; cbn [step].
  - unfold tick. intros [s w] Hs. rewrite bind_effect, bind_world.
    apply runTimers_pending. apply I_now, Hs.
  - intros [s w] Hs. apply I_scroll, Hs.
  - intros [s w] Hs. apply I_env, Hs.
  - unfold runFrame. intros st Hs. rewrite bind_world. revert Hs.
    apply maintains_forEach. intros f [s w] Hs'. rewrite bind_world. cbn [snd].
    case_bool_decide as Hin; [|exact Hs'].
    rewrite bind_effect. apply I_frame; assumption.
  - unfold dispatch. intros st Hs. rewrite bind_world. revert Hs.
    apply maintains_forEach. intros l [s w] Hs'. rewrite bind_world. cbn [snd].
    case_bool_decide as Hin; [|exact Hs'].
    apply I_listener; assumption.
Qed.

Lemma steps_pending evs : maintains I (steps invoke evs).
Proof using All. apply maintains_forEach, step_pending. Qed.

End Pending.

(** With no frame or timeout pending and no listener registered, no event
    runs a callback, and the instance stays as it is. *)
Lemma released_forever evs (s : T) (w : World Cb) :
  frames w = [] → timers w = [] → listeners w = [] →
  let st' := (steps invoke evs (s, w)).2 in
  st'.1 = s ∧ calls st'.2 = calls w
  ∧ frames st'.2 = [] ∧ timers st'.2 = [] ∧ listeners st'.2 = [].
Proof.
  intros Hf Ht Hl.
  apply (steps_pending
           (λ st, st.1 = s ∧ calls st.2 = calls w
                  ∧ frames st.2 = [] ∧ timers st.2 = [] ∧ listeners st.2 = [])).
  - intros f t s0 w0 (_ & _ & Hf0 & _) Hin. cbn [snd] in Hf0.
    rewrite Hf0 in Hin. inversion Hin.
  - intros tm s0 w0 (_ & _ & _ & Ht0 & _) Hin. cbn [snd] in Ht0.
    rewrite Ht0 in Hin. inversion Hin.
  - intros l e s0 w0 (_ & _ & _ & _ & Hl0) Hin. cbn [snd] in Hl0.
    rewrite Hl0 in Hin. inversion Hin.
  - intros v s0 w0 H. exact H.
  - intros v s0 w0 H. exact H.
  - intros v s0 w0 H. exact H.
  - cbn. repeat split; assumption.
Qed.

End Loop.
End LoopFacts.

Module LoopSliderSchedule.
Import Js JsFacts Dom Browser MethodFacts LoopFacts LoopSlider.
Local Open Scope Q_scope.

Section Schedule.
Variable Math_pow : Q → Q → Q.

Lemma updateDimensions_keeps : keeps resizeView (updateDimensions (C := Cb)).
Proof. unfold updateDimensions, getGap. keeps_auto. Qed.

Lemma updatePosition_keeps t : keeps resizeView (updatePosition id Math_pow t).
Proof.
  unfold updatePosition, frameMotion, frameRender, scrollFollow. keeps_auto.
  all: unfold resizeView, autoScroll, inertiaStep, loopCorrection; cbn [fst snd];
    repeat match goal with
           | |- context [if ?b then _ else _] => destruct b
           end; reflexivity.
Qed.

Lemma onPointerDown_keeps e : keeps resizeView (onPointerDown (C := Cb) e).
Proof. unfold onPointerDown, pointerX, setCursor. keeps_auto. Qed.

Lemma onPointerMove_keeps e : keeps resizeView (onPointerMove (C := Cb) e).
Proof. unfold onPointerMove, pointerX. keeps_auto. Qed.

Lemma onPointerUp_keeps : keeps resizeView (onPointerUp (C := Cb)).
Proof. unfold onPointerUp, setCursor. keeps_auto. Qed.

(** [handleResize] cancels whatever was pending and schedules one
    recomputation 150 ms ahead. *)
Lemma handleResize_spec (st : State) :
  (timers st.2 = []
   ∨ ∃ i due, timers st.2 = [(i, (due, ResizeTimer))]
              ∧ resizeTimeout st.1 = Some i ∧ i ≠ O) →
  ∃ st', handleResize id st = (Normal tt, st')
         ∧ timers st'.2
           = [(S (next_timer st.2), (now st.2 + 150, ResizeTimer))]
         ∧ resizeTimeout st'.1 = Some (S (next_timer st.2))
         ∧ listeners st'.2 = listeners st.2
         ∧ calls st'.2 = calls st.2
         ∧ now st'.2 = now st.2.
Proof.
  destruct st as [s w]. intros Hpending. cbn [fst snd] in *.
  unfold handleResize. rewrite bind_this. cbn [fst snd].
  assert (filter (λ t : nat * (Q * Cb), t.1 ≠ default O (resizeTimeout s)) (timers w) = []
          ∨ (truthy_handle (resizeTimeout s) = false ∧ timers w = [])) as Hclear.
  { destruct Hpending as [->|(i & due & -> & -> & Hi)].
    - left. reflexivity.
    - left. cbn. rewrite decide_False by (intros Hne; apply Hne; reflexivity).
      reflexivity. }
  destruct (truthy_handle (resizeTimeout s)) eqn:Htruthy.
  - destruct Hclear as [Hclear|[? _]]; [|discriminate].
    rewrite bind_effect, bind_call. cbn [fst snd].
    eexists. split; [reflexivity|]. cbn. rewrite Hclear. repeat split.
  - assert (timers w = []) as Hnone.
    { destruct Hpending as [->|(i & due & _ & Hr & Hi)]; [reflexivity|].
      rewrite Hr in Htruthy. destruct i; [contradiction|discriminate]. }
    rewrite bind_ret, bind_call. cbn [fst snd].
    eexists. split; [reflexivity|]. cbn. rewrite Hnone. repeat split.
Qed.

Lemma invoke_keeps cb a :
  cb ≠ HandleResize → keeps resizeView (invoke id Math_pow cb a).
Proof.
  intros Hcb. destruct cb, a; cbn [invoke]; try contradiction;
    first [apply updatePosition_keeps | apply updateDimensions_keeps
          | apply onPointerDown_keeps | apply onPointerMove_keeps
          | apply onPointerUp_keeps | apply keeps_throw].
Qed.

(** The browser runs a callback other than the resize handler: the call is
    recorded and the scheduler is as before. *)
Lemma run_other cb a (st : State) :
  cb ≠ HandleResize →
  let st' := (run (invoke id Math_pow) cb a st).2 in
  timers st'.2 = timers st.2 ∧ listeners st'.2 = listeners st.2
  ∧ resizeTimeout st'.1 = resizeTimeout st.1
  ∧ calls st'.2 = calls st.2 ++ [cb] ∧ now st'.2 = now st.2.
Proof.
  intros Hcb. unfold run.
  pose proof (invoke_keeps cb a Hcb (st.1, set_calls (calls st.2 ++ [cb]) st.2)) as Hk.
  destruct (invoke _ _ _ _ _) as [[[]|e] st1]; cbn [snd fst] in *;
    unfold resizeView in Hk; cbn [fst snd] in Hk; cbn;
    injection Hk as -> -> -> -> ->; repeat split.
Qed.

(** The browser runs the resize handler. *)
Lemma run_handleResize a (st : State) :
  scheduled st →
  let st' := (run (invoke id Math_pow) HandleResize a st).2 in
  timers st'.2 = [(S (next_timer st.2), (now st.2 + 150, ResizeTimer))]
  ∧ resizeTimeout st'.1 = Some (S (next_timer st.2))
  ∧ listeners st'.2 = listeners st.2
  ∧ calls st'.2 = calls st.2 ++ [HandleResize] ∧ now st'.2 = now st.2.
Proof.
  intros Hs. unfold run.
  assert (scheduled (st.1, set_calls (calls st.2 ++ [HandleResize]) st.2)) as Hs0
    by exact Hs.
  destruct (handleResize_spec _ (proj1 Hs0)) as (st1 & E & Ht & Hr & Hl & Hc & Hn).
  assert (invoke id Math_pow HandleResize a
            (st.1, set_calls (calls st.2 ++ [HandleResize]) st.2)
          = (Normal tt, st1)) as -> by (destruct a; exact E).
  cbn [snd]. repeat split; assumption.
Qed.

Lemma scheduled_timers_listeners (st st' : State) :
  timers st'.2 = timers st.2 → listeners st'.2 = listeners st.2 →
  resizeTimeout st'.1 = resizeTimeout st.1 →
  scheduled st → scheduled st'.
Proof. unfold scheduled. intros -> -> ->. tauto. Qed.

Lemma run_scheduled cb a : maintains scheduled (run (invoke id Math_pow) cb a).
Proof.
  intros st Hs. destruct (decide (cb = HandleResize)) as [->|Hcb].
  - destruct (run_handleResize a st Hs) as (Ht & Hr & Hl & _).
    destruct Hs as [_ Hls]. unfold scheduled. rewrite Ht, Hr, Hl. split.
    + right. eexists _, _. split; [reflexivity|]. split; [reflexivity|discriminate].
    + exact Hls.
  - destruct (run_other cb a st Hcb) as (Ht & Hl & Hr & _).
    exact (scheduled_timers_listeners st _ Ht Hl Hr Hs).
Qed.

Lemma clearTimeout_scheduled i s (w : World Cb) :
  scheduled (s, w) → scheduled (s, clearTimeout i w).
Proof.
  intros [Hp Hl]. split; [|exact Hl]. cbn [fst snd] in *.
  unfold clearTimeout. cbn [timers set_timers].
  destruct Hp as [->|(j & due & -> & Hr & Hj)]; [left; reflexivity|].
  cbn. destruct (decide (j ≠ i)); [|left; reflexivity].
  right. eexists _, _. repeat split; [exact Hr|exact Hj].
Qed.

(** The scheduler invariant holds after every event. *)
Lemma steps_scheduled evs : maintains scheduled (steps Math_pow evs).
Proof.
  apply steps_maintains.
  - apply run_scheduled.
  - intros v s w Hs. exact Hs.
  - intros v s w Hs. exact Hs.
  - intros v s w Hs. exact Hs.
  - intros i s w Hs. exact Hs.
  - apply clearTimeout_scheduled.
Qed.

Lemma scheduled_at_most_one (st : State) :
  scheduled st → (length (timers st.2) ≤ 1)%nat.
Proof. intros [[->|(i & due & -> & _)] _]; cbn; lia. Qed.

(** A resize event: the handler runs once. *)
Lemma step_resize (st : State) :
  scheduled st →
  let st' := (step Math_pow resizeEvent st).2 in
  timers st'.2 = [(S (next_timer st.2), (now st.2 + 150, ResizeTimer))]
  ∧ resizeTimeout st'.1 = Some (S (next_timer st.2))
  ∧ listeners st'.2 = listeners st.2
  ∧ calls st'.2 = calls st.2 ++ [HandleResize] ∧ now st'.2 = now st.2.
Proof.
  intros Hs. pose proof Hs as [_ Hl].
  unfold step, resizeEvent. cbn [Browser.step]. unfold dispatch.
  rewrite bind_world. cbn [snd]. rewrite Hl. cbn [forEach].
  rewrite bind_ret_tt, bind_world. cbn [snd].
  rewrite bool_decide_eq_true_2.
  2:{ apply (list_elem_of_filter (λ l : Listener Cb,
               l_target l = Window ∧ l_type l = "resize"%string) (listeners st.2)).
      rewrite Hl. apply list_elem_of_singleton. reflexivity. }
  cbn [l_cb]. apply run_handleResize, Hs.
Qed.

(** Time passes while the one pending timeout is not yet due. *)
Lemma tick_early d i due cb (st : State) :
  timers st.2 = [(i, (due, cb))] → now st.2 + d < due →
  (step Math_pow (Tick d) st).2 = (st.1, set_now (now st.2 + d) st.2).
Proof.
  intros Ht Hd. unfold step. cbn [Browser.step]. unfold tick.
  rewrite bind_effect, bind_world. cbn [fst snd timers set_now].
  rewrite Ht. cbn [length runTimers]. rewrite bind_world.
  cbn [snd timers set_now now]. rewrite Ht. cbn [earliest fst snd].
  destruct (Qle_bool due (now st.2 + d)) eqn:E; [|reflexivity].
  apply Qle_bool_iff in E. lra.
Qed.

(** Time passes until the pending recomputation is due: it runs. *)
Lemma tick_due d i due (st : State) :
  timers st.2 = [(i, (due, ResizeTimer))] → due <= now st.2 + d →
  let st' := (step Math_pow (Tick d) st).2 in
  timers st'.2 = [] ∧ calls st'.2 = calls st.2 ++ [ResizeTimer]
  ∧ listeners st'.2 = listeners st.2
  ∧ resizeTimeout st'.1 = resizeTimeout st.1.
Proof.
  intros Ht Hd. unfold step. cbn [Browser.step]. unfold tick.
  rewrite bind_effect, bind_world. cbn [fst snd timers set_now].
  rewrite Ht. cbn [length runTimers]. rewrite bind_world.
  cbn [snd timers set_now now]. rewrite Ht. cbn [earliest fst snd].
  apply Qle_bool_iff in Hd. rewrite Hd.
  rewrite bind_effect. cbn [fst snd].
  rewrite bind_ret_tt.
  match goal with |- context [run _ _ _ ?st0] =>
    destruct (run_other ResizeTimer NoArg st0 ltac:(discriminate))
      as (Ht' & Hl' & Hr' & Hc' & _)
  end.
  rewrite Ht', Hl', Hr', Hc'. cbn. rewrite Ht. cbn.
  rewrite decide_False by (intros Hne; apply Hne; reflexivity).
  repeat split.
Qed.

Lemma slider_steps_cons ev evs (st : State) :
  steps Math_pow (ev :: evs) st = steps Math_pow evs (step Math_pow ev st).2.
Proof. apply steps_cons. Qed.

Lemma slider_steps_app evs1 evs2 (st : State) :
  steps Math_pow (evs1 ++ evs2) st
  = steps Math_pow evs2 (steps Math_pow evs1 st).2.
Proof. apply steps_app. Qed.

Lemma slider_steps_nil (st : State) : steps Math_pow [] st = (Normal tt, st).
Proof. reflexivity. Qed.

Lemma step_scheduled ev : maintains scheduled (step Math_pow ev).
Proof.
  intros st Hs. pose proof (steps_scheduled [ev] st Hs) as H.
  rewrite slider_steps_cons in H. exact H.
Qed.

Lemma recomputations_snoc (w w' : World Cb) cb :
  calls w' = calls w ++ [cb] →
  recomputations w'
  = (recomputations w + if decide (cb = ResizeTimer) then 1 else 0)%nat.
Proof.
  unfold recomputations. intros ->. rewrite filter_app, length_app.
  cbn. destruct (decide (cb = ResizeTimer)); reflexivity.
Qed.

(** The rest of a burst, from a state where a recomputation has just been
    scheduled: it ends the same way, and nothing has been recomputed. *)
Lemma burst_rest gaps (st : State) i :
  scheduled st →
  timers st.2 = [(i, (now st.2 + 150, ResizeTimer))] →
  Forall (λ d, 0 <= d ∧ d < 150) gaps →
  let st' := (steps Math_pow (flat_map (λ d, [Tick d; resizeEvent]) gaps) st).2 in
  scheduled st'
  ∧ (∃ j, timers st'.2 = [(j, (now st'.2 + 150, ResizeTimer))])
  ∧ recomputations st'.2 = recomputations st.2.
Proof.
  intros Hs Ht Hgaps. revert st i Hs Ht.
  induction Hgaps as [|d gaps [Hd0 Hd] _ IH]; intros st i Hs Ht.
  - cbn. split; [exact Hs|]. split; [exists i; exact Ht|reflexivity].
  - cbn [flat_map app]. rewrite !slider_steps_cons.
    assert (now st.2 + d < now st.2 + 150) as Hearly by lra.
    rewrite (tick_early d i _ _ st Ht Hearly).
    set (st1 := (st.1, set_now (now st.2 + d) st.2)).
    assert (scheduled st1) as Hs1 by exact Hs.
    destruct (step_resize st1 Hs1) as (Ht2 & _ & _ & Hc2 & Hn2).
    pose proof (step_scheduled resizeEvent st1 Hs1) as Hs2.
    set (st2 := (step Math_pow resizeEvent st1).2) in *.
    assert (timers st2.2 = [(S (next_timer st1.2), (now st2.2 + 150, ResizeTimer))]) as Ht2'
      by (rewrite Hn2; exact Ht2).
    destruct (IH st2 _ Hs2 Ht2') as (Hs' & Hj & Hrec).
    split; [exact Hs'|]. split; [exact Hj|].
    rewrite Hrec.
    rewrite (recomputations_snoc st1.2 st2.2 HandleResize Hc2).
    rewrite decide_False by discriminate. unfold recomputations. cbn. lia.
Qed.

(** Adding a listener elsewhere does not change the resize listeners of
    the window. *)
Lemma resizeSchedule_add t ty cb c s (w : World Cb) :
  ¬ (t = Window ∧ ty = "resize"%string) →
  resizeSchedule (s, addEventListener t ty cb c w) = resizeSchedule (s, w).
Proof.
  intros Hother. unfold resizeSchedule, addEventListener. cbn [fst snd].
  destruct (bool_decide _); [reflexivity|]. cbn [timers listeners set_listeners].
  rewrite filter_app. cbn. rewrite decide_False by exact Hother.
  rewrite app_nil_r. reflexivity.
Qed.

Lemma init_prefix_keeps :
  keeps resizeSchedule
    (bind (setupSlider (C := Cb)) (λ _, bind (startAutoScroll id) (λ _, setupDraggable id))).
Proof.
  unfold setupSlider, startAutoScroll, setupDraggable, updateDimensions, getGap,
    assignStyle, setCursor.
  keeps_auto.
  all: apply resizeSchedule_add; intros [? ?]; discriminate.
Qed.

(** On a page with no timeout pending and no resize listener yet, the
    constructor leaves the scheduler as [scheduled] describes. *)
Lemma constructor_scheduled selector u (w w' : World Cb) s :
  timers w = [] →
  filter (λ l, l_target l = Window ∧ l_type l = "resize"%string) (listeners w) = [] →
  constructor id selector u w = (Normal (Ready s), w') →
  scheduled (s, w').
Proof.
  intros Ht Hl. unfold constructor.
  destruct (match selector with SelString sel => _ | SelElement e => e end) as [c|];
    [|discriminate].
  destruct (bool_decide _); [discriminate|].
  match goal with |- context [init id ?st] => set (st0 := st) end.
  unfold init.
  pose proof (init_prefix_keeps st0) as Hk.
  assert (∀ (m : Method (Cb := Cb) (T := Slider) unit) st,
            bind (setupSlider (C := Cb))
              (λ _, bind (startAutoScroll id) (λ _, bind (setupDraggable id) (λ _, m))) st
            = bind (bind (setupSlider (C := Cb))
                      (λ _, bind (startAutoScroll id) (λ _, setupDraggable id)))
                (λ _, m) st) as Hassoc.
  { intros m st. unfold bind.
    destruct (setupSlider st) as [[[]|e] st1]; [|reflexivity].
    destruct (startAutoScroll id st1) as [[[]|e] st2]; reflexivity. }
  rewrite Hassoc. unfold bind at 1.
  destruct (bind setupSlider _ st0) as [[[]|e] [s1 w1]]; [|discriminate].
  unfold setupResize, Browser.effect, modify. cbn [fst snd].
  intros [= <- <-]. unfold resizeSchedule in Hk. cbn [fst snd] in Hk.
  injection Hk as Ht1 Hl1. split; cbn [fst snd].
  - left. unfold addEventListener.
    destruct (bool_decide (_ ∈ _)); cbn; rewrite Ht1; exact Ht.
  - unfold addEventListener. case_bool_decide as Hin.
    + exfalso. rewrite Hl in Hl1.
      assert (mkListener Window "resize" HandleResize false
              ∈ filter (λ l : Listener Cb, l_target l = Window ∧ l_type l = "resize"%string)
                  (listeners w1)) as Hin'
        by (apply list_elem_of_filter; split; [split; reflexivity|exact Hin]).
      rewrite Hl1 in Hin'. inversion Hin'.
    + cbn [listeners set_listeners]. rewrite filter_app, Hl1, Hl. reflexivity.
Qed.


End Schedule.
End LoopSliderSchedule.

Module MouseStalkerFacts.
Import Dom Browser Samples MouseStalker.

(** C5, on the sample page: the pointer enters the link and leaves it,
    and [destroy()] is called at once.  The frame and the text timeout the
    instance kept handles of are cancelled and its listeners are removed,
    but the 300 ms timeout of [clearMouseStalker] is still pending; when it
    fires, the callback of the destroyed instance runs and throws on the
    [null] container. *)
Theorem destroy_leaves_hover_timeout :
  frames stalkerDestroyed.2 = []
  ∧ listeners stalkerDestroyed.2 = []
  ∧ container stalkerDestroyed.1 = None
  ∧ timers stalkerDestroyed.2 = [(2, (300%Q, HoverTimer))]
  ∧ calls (step (Tick 300) stalkerDestroyed).2.2
    = calls stalkerDestroyed.2 ++ [HoverTimer]
  ∧ console (step (Tick 300) stalkerDestroyed).2.2 = [("error", "TypeError")].
Proof. vm_compute. repeat split. Qed.

(** The same instance destroyed after a pointer move that came before
    its first frame: the frame requested by [render] is still pending,
    because [rafId] names the later request only; when the frame comes the
    callback runs, and returns at once. *)
Lemma destroy_leaves_first_frame :
  frames stalkerMovedDestroyed.2 = [(1, Update)]
  ∧ calls (step (Frame (Some 16%Q)) stalkerMovedDestroyed).2.2
    = calls stalkerMovedDestroyed.2 ++ [Update]
  ∧ frames (step (Frame (Some 16%Q)) stalkerMovedDestroyed).2.2 = [].
Proof. vm_compute. repeat split. Qed.

End MouseStalkerFacts.

Module LoopSliderDestroy.
Import Js JsFacts Dom Browser MethodFacts LoopFacts LoopSlider
  LoopSliderFrame LoopSliderSchedule.
Local Open Scope Q_scope.

Section Destroy.
Variable Math_pow : Q → Q → Q.

Lemma live_view (st st' : State) : liveView st = liveView st' → live st → live st'.
Proof.
  unfold liveView, live. intros [= Hf Ha Hc Ht Hr Hl].
  rewrite Hf, Ha, Hc, Ht, Hr, Hl. tauto.
Qed.

Lemma updateDimensions_liveView : keeps liveView (updateDimensions (C := Cb)).
Proof. unfold updateDimensions, getGap. keeps_auto. Qed.

Lemma onPointerDown_liveView e : keeps liveView (onPointerDown (C := Cb) e).
Proof. unfold onPointerDown, pointerX, setCursor. keeps_auto. Qed.

Lemma onPointerMove_liveView e : keeps liveView (onPointerMove (C := Cb) e).
Proof. unfold onPointerMove, pointerX. keeps_auto. Qed.

Lemma onPointerUp_liveView : keeps liveView (onPointerUp (C := Cb)).
Proof. unfold onPointerUp, setCursor. keeps_auto. Qed.

(** What a frame leaves alone, and what [handleResize] leaves alone. *)
Lemma updatePosition_rest t :
  keeps (λ st : State, (container st.1, timers st.2, resizeTimeout st.1, listeners st.2))
    (updatePosition id Math_pow t).
Proof.
  unfold updatePosition, frameMotion, frameRender, scrollFollow. keeps_auto.
  all: unfold autoScroll, inertiaStep, loopCorrection; cbn [fst snd];
    repeat match goal with
           | |- context [if ?b then _ else _] => destruct b
           end; reflexivity.
Qed.

Lemma handleResize_rest :
  keeps (λ st : State, (frames st.2, animation st.1, container st.1, listeners st.2))
    (handleResize id).
Proof. unfold handleResize. keeps_auto. Qed.

Lemma frameMotion_frames t : keeps (λ st : State, frames st.2) (frameMotion Math_pow t).
Proof.
  unfold frameMotion, scrollFollow. keeps_auto.
Qed.

(** A frame that starts with no other frame pending ends with at most the
    one it has requested, which [animation] names. *)
Lemma updatePosition_frames t (s : Slider) (w : World Cb) :
  frames w = [] →
  let st' := (updatePosition id Math_pow t (s, w)).2 in
  frames st'.2 = []
  ∨ ∃ i, frames st'.2 = [(i, UpdatePosition)] ∧ animation st'.1 = Some i ∧ i ≠ O.
Proof.
  intros Hf. destruct (falsy_opt (lastFrameTime s)) eqn:Hfirst.
  - unfold updatePosition. rewrite bind_world, bind_this. cbn [fst snd].
    rewrite Hfirst, bind_assign, bind_call. cbn. rewrite Hf.
    right. eexists. repeat split. discriminate.
  - cbv zeta. rewrite (updatePosition_later id Math_pow t s w Hfirst).
    pose proof (frameMotion_frames (frameTime t w) (s, w)) as Hk.
    destruct (frameMotion _ _ _) as [r [s1 w1]]. cbn [fst snd] in *.
    rewrite Hf in Hk. unfold frameRender.
    rewrite bind_assign, bind_this. cbn [fst snd].
    destruct (wrapper (loopCorrection s1)) as [wr|]; cbn [deref].
    + rewrite bind_ret, bind_effect, bind_call. cbn. rewrite Hk.
      right. eexists. repeat split. discriminate.
    + left. cbn. exact Hk.
Qed.

Lemma run_liveView cb a :
  keeps liveView (invoke id Math_pow cb a) →
  keeps liveView (run (invoke id Math_pow) cb a).
Proof. apply run_keeps; reflexivity. Qed.

(** The browser runs the frame it has just taken off the list. *)
Lemma live_frame f t (s : Slider) (w : World Cb) :
  live (s, w) → f ∈ frames w →
  live (run (invoke id Math_pow) f.2 (Timestamp t) (s, cancelAnimationFrame f.1 w)).2.
Proof.
  intros (Hf & Ht & Hl) Hin. cbn [fst snd] in *.
  destruct Hf as [Hf|(i & Hf & Ha & Hi)]; [rewrite Hf in Hin; inversion Hin|].
  rewrite Hf in Hin. apply list_elem_of_singleton in Hin. subst f. cbn [fst snd].
  set (w0 := cancelAnimationFrame i w).
  assert (frames w0 = []) as Hf0.
  { unfold w0, cancelAnimationFrame. cbn. rewrite Hf. cbn.
    rewrite decide_False by (intros Hne; apply Hne; reflexivity). reflexivity. }
  unfold run. cbn [fst snd invoke].
  set (w1 := set_calls (calls w0 ++ [UpdatePosition]) w0).
  pose proof (updatePosition_frames t s w1 Hf0) as Hframes.
  pose proof (updatePosition_rest t (s, w1)) as Hrest.
  destruct (updatePosition id Math_pow t (s, w1)) as [[[]|e] [s' w']];
    cbn [fst snd] in *; injection Hrest as Hc' Ht' Hr' Hl';
    unfold live, console_log; cbn [fst snd frames timers listeners set_console];
    (split; [exact Hframes|]);
    rewrite ?Hc', ?Ht', ?Hr', ?Hl'; (split; [exact Ht|exact Hl]).
Qed.

(** The browser runs the timeout it has just taken off the list. *)
Lemma live_timer tm (s : Slider) (w : World Cb) :
  live (s, w) → tm ∈ timers w →
  live (run (invoke id Math_pow) tm.2.2 NoArg (s, clearTimeout tm.1 w)).2.
Proof.
  intros (Hf & Ht & Hl) Hin. cbn [fst snd] in *.
  destruct Ht as [Ht|(i & due & Ht & Hr & Hi)]; [rewrite Ht in Hin; inversion Hin|].
  rewrite Ht in Hin. apply list_elem_of_singleton in Hin. subst tm. cbn [fst snd].
  apply (live_view (s, clearTimeout i w)).
  - symmetry. apply run_liveView. cbn [invoke]. apply updateDimensions_liveView.
  - split; [exact Hf|]. split; [|exact Hl]. left. cbn [fst snd].
    unfold clearTimeout. cbn. rewrite Ht. cbn.
    rewrite decide_False by (intros Hne; apply Hne; reflexivity). reflexivity.
Qed.

(** The browser runs a registered listener. *)
Lemma live_listener l e (s : Slider) (w : World Cb) :
  live (s, w) → l ∈ listeners w →
  live (run (invoke id Math_pow) (l_cb l) (EventArg e) (s, w)).2.
Proof.
  intros Hlive Hin. pose proof Hlive as (Hf & Ht & Hl). cbn [fst snd] in *.
  assert (l_cb l = HandleResize ∨ keeps liveView (invoke id Math_pow (l_cb l) (EventArg e)))
    as [Hcb|Hk].
  { specialize (Hl l Hin). unfold ownListeners in Hl.
    repeat (apply elem_of_cons in Hl as [->|Hl];
            [cbn [l_cb invoke];
             first [left; reflexivity
                   | right; apply onPointerDown_liveView
                   | right; apply onPointerMove_liveView
                   | right; apply onPointerUp_liveView]|]).
    inversion Hl. }
  - rewrite Hcb. unfold run. cbn [fst snd invoke].
    set (w1 := set_calls (calls w ++ [HandleResize]) w).
    destruct (handleResize_spec (s, w1) Ht) as (st1 & E & Ht1 & Hr1 & _).
    pose proof (handleResize_rest (s, w1)) as Hrest. rewrite E in *.
    cbn [fst snd] in *. injection Hrest as Hf' Ha' Hc' Hl'.
    split; [rewrite Hf', Ha'; exact Hf|]. split.
    + right. eexists _, _. split; [exact Ht1|]. split; [exact Hr1|discriminate].
    + rewrite Hc', Hl'. exact Hl.
  - apply (live_view (s, w)); [|exact Hlive].
    symmetry. apply run_liveView, Hk.
Qed.

(** [live] holds after every event. *)
Lemma steps_live evs : maintains live (steps Math_pow evs).
Proof.
  apply steps_pending.
  - apply live_frame.
  - apply live_timer.
  - apply live_listener.
  - intros v s w H. exact H.
  - intros v s w H. exact H.
  - intros v s w H. exact H.
Qed.

Lemma removed_all (c : Elem) (L : list (Listener Cb)) :
  (∀ l, l ∈ L → l ∈ ownListeners c) →
  filter (λ l, l ≠ mkListener Document "touchend" OnPointerUp false)
    (filter (λ l, l ≠ mkListener Document "mouseup" OnPointerUp false)
      (filter (λ l, l ≠ mkListener Document "touchmove" OnPointerMove false)
        (filter (λ l, l ≠ mkListener Document "mousemove" OnPointerMove false)
          (filter (λ l, l ≠ mkListener (Node c) "touchstart" OnPointerDown false)
            (filter (λ l, l ≠ mkListener (Node c) "mousedown" OnPointerDown false)
              (filter (λ l, l ≠ mkListener Window "resize" HandleResize false) L))))))
  = [].
Proof.
  intros Hown. apply elem_of_nil_inv. intros l Hin.
  repeat (apply list_elem_of_filter in Hin as [? Hin]).
  specialize (Hown l Hin). unfold ownListeners in Hown.
  repeat (apply elem_of_cons in Hown as [->|Hown]; [contradiction|]).
  inversion Hown.
Qed.

(** [destroy] on a live slider completes and leaves nothing of it with
    the browser. *)
Lemma destroy_released (st : State) :
  live st → (destroy id st).1 = Normal tt ∧ released (destroy id st).2.
Proof.
  destruct st as [s w]. intros (Hf & Ht & Hl). cbn [fst snd] in *.
  unfold destroy. rewrite bind_this. cbn [fst snd].
  assert (frames (if truthy_handle (animation s)
                  then cancelAnimationFrame (default O (animation s)) w else w) = [])
    as Hf'.
  { destruct Hf as [Hf|(i & Hf & -> & Hi)].
    - destruct (truthy_handle (animation s)); [unfold cancelAnimationFrame; cbn|];
        rewrite Hf; reflexivity.
    - destruct i; [contradiction|]. cbn. rewrite Hf. cbn.
      rewrite decide_False by (intros Hne; apply Hne; reflexivity). reflexivity. }
  assert (timers (if truthy_handle (resizeTimeout s)
                  then clearTimeout (default O (resizeTimeout s)) w else w) = [])
    as Ht'.
  { destruct Ht as [Ht|(i & due & Ht & -> & Hi)].
    - destruct (truthy_handle (resizeTimeout s)); [unfold clearTimeout; cbn|];
        rewrite Ht; reflexivity.
    - destruct i; [contradiction|]. cbn. rewrite Ht. cbn.
      rewrite decide_False by (intros Hne; apply Hne; reflexivity). reflexivity. }
  destruct (truthy_handle (animation s)), (truthy_handle (resizeTimeout s));
    rewrite ?bind_effect, ?bind_ret; cbn [fst snd];
    rewrite ?bind_effect, ?bind_ret; cbn [fst snd];
    (split; [reflexivity|]); unfold released; cbn [fst snd];
    (split; [exact Hf'|]); (split; [exact Ht'|]);
    exact (removed_all (container s) (listeners w) Hl).
Qed.

Ltac in_own :=
  unfold ownListeners;
  repeat (apply elem_of_cons; first [left; reflexivity | right]).

Lemma add_own c t ty cb cap (w : World Cb) :
  mkListener t ty cb cap ∈ ownListeners c →
  (∀ l, l ∈ listeners w → l ∈ ownListeners c) →
  ∀ l, l ∈ listeners (addEventListener t ty cb cap w) → l ∈ ownListeners c.
Proof.
  intros Hnew Hold l. unfold addEventListener.
  destruct (bool_decide _); [apply Hold|]. cbn [listeners set_listeners].
  intros Hin. apply elem_of_app in Hin as [Hin|Hin]; [apply Hold, Hin|].
  apply list_elem_of_singleton in Hin. subst l. exact Hnew.
Qed.

Lemma setupSlider_keeps :
  keeps (λ st : State, (frames st.2, timers st.2, listeners st.2, container st.1))
    (setupSlider (C := Cb)).
Proof.
  unfold setupSlider, updateDimensions, getGap, assignStyle. keeps_auto.
Qed.

Lemma startAutoScroll_spec (s : Slider) (w : World Cb) :
  startAutoScroll id (s, w)
  = (Normal tt,
     (set_animation (Some (S (next_frame w)))
        (set_baseX (- totalWidth s) (set_lastFrameTime None s)),
      (requestAnimationFrame UpdatePosition w).2)).
Proof. reflexivity. Qed.

Lemma setupDraggable_spec (s : Slider) (w : World Cb) :
  ∃ w', setupDraggable id (s, w) = (Normal tt, (s, w'))
        ∧ frames w' = frames w ∧ timers w' = timers w
        ∧ ((∀ l, l ∈ listeners w → l ∈ ownListeners (container s)) →
           ∀ l, l ∈ listeners w' → l ∈ ownListeners (container s)).
Proof.
  assert (∀ v, setCursor v (s, w)
               = (Normal tt, (s, update (setStyle "cursor" (Css v)) (container s) w)))
    as Hcursor by reflexivity.
  unfold setupDraggable. rewrite bind_this. cbn [fst snd].
  destruct (draggable (options s)); cbn [negb].
  - rewrite (bind_normal _ _ _ _ _ (Hcursor _)), !bind_effect. cbn [fst snd].
    eexists. split; [reflexivity|].
    assert (∀ t ty cb cap (w0 : World Cb),
              frames (addEventListener t ty cb cap w0) = frames w0
              ∧ timers (addEventListener t ty cb cap w0) = timers w0) as Hadd
      by (intros; unfold addEventListener; destruct (bool_decide _); split; reflexivity).
    split; [|split].
    + unfold Browser.effect, modify. cbn [fst snd].
      rewrite !(proj1 (Hadd _ _ _ _ _)). reflexivity.
    + unfold Browser.effect, modify. cbn [fst snd].
      rewrite !(proj2 (Hadd _ _ _ _ _)). reflexivity.
    + intros Hown. unfold Browser.effect, modify. cbn [fst snd].
      repeat (apply add_own; [in_own|]).
      exact Hown.
  - rewrite Hcursor.
    eexists. split; [reflexivity|]. split; [reflexivity|]. split; [reflexivity|].
    intros Hown. exact Hown.
Qed.

(** On a page where nothing is pending or registered, [init] leaves a
    live slider. *)
Lemma init_live (s0 s : Slider) (w0 w : World Cb) :
  frames w0 = [] → timers w0 = [] → listeners w0 = [] →
  init id (s0, w0) = (Normal tt, (s, w)) →
  live (s, w).
Proof.
  intros Hf Ht Hl. unfold init.
  pose proof (setupSlider_keeps (s0, w0)) as Hk.
  destruct (setupSlider (s0, w0)) as [[[]|e] [s1 w1]] eqn:E1.
  2:{ rewrite (bind_throw _ _ _ _ _ E1). discriminate. }
  rewrite (bind_normal _ _ _ _ _ E1). cbn [fst snd] in Hk.
  injection Hk as Hf1 Ht1 Hl1 Hc1. rewrite Hf in Hf1. rewrite Ht in Ht1.
  rewrite Hl in Hl1.
  rewrite (bind_normal _ _ _ _ _ (startAutoScroll_spec s1 w1)).
  set (s2 := set_animation _ _). set (w2 := (requestAnimationFrame _ w1).2).
  destruct (setupDraggable_spec s2 w2) as (w3 & E3 & Hf3 & Ht3 & Hown3).
  rewrite (bind_normal _ _ _ _ _ E3).
  unfold setupResize, Browser.effect, modify. cbn [fst snd].
  intros [= <- <-]. split; [|split]; cbn [fst snd].
  - right. exists (S (next_frame w1)). cbn [frames addEventListener].
    assert (frames (addEventListener Window "resize" HandleResize false w3) = frames w3)
      as -> by (unfold addEventListener; destruct (bool_decide _); reflexivity).
    rewrite Hf3. unfold w2. cbn. rewrite Hf1. repeat split. discriminate.
  - left.
    assert (timers (addEventListener Window "resize" HandleResize false w3) = timers w3)
      as -> by (unfold addEventListener; destruct (bool_decide _); reflexivity).
    rewrite Ht3. unfold w2. cbn. exact Ht1.
  - apply add_own; [in_own|].
    apply Hown3. unfold w2. cbn. intros l Hin. rewrite Hl1 in Hin. inversion Hin.
Qed.

Lemma constructor_live selector u (w w' : World Cb) s :
  frames w = [] → timers w = [] → listeners w = [] →
  constructor id selector u w = (Normal (Ready s), w') →
  live (s, w').
Proof.
  intros Hf Ht Hl. unfold constructor.
  destruct (match selector with SelString sel => _ | SelElement e => e end) as [c|];
    [|discriminate].
  destruct (bool_decide (_ = 0%nat)); [discriminate|].
  destruct (init id _) as [[[]|e] [s1 w1]] eqn:E; [|discriminate].
  intros [= <- <-]. exact (init_live _ _ _ _ Hf Ht Hl E).
Qed.

(** X9. After [destroy()] on a slider built on a page where nothing was
    pending or registered, and run through any events since: whatever
    happens next, no frame is requested, no callback runs and the instance
    stays as it is. *)
Lemma destroyed_slider_is_silent selector u (w w1 : World Cb) s before after :
  frames w = [] → timers w = [] → listeners w = [] →
  constructor id selector u w = (Normal (Ready s), w1) →
  let st := (destroy id (steps Math_pow before (s, w1)).2).2 in
  let st' := (steps Math_pow after st).2 in
  released st ∧ st'.1 = st.1 ∧ calls st'.2 = calls st.2 ∧ released st'.
Proof.
  intros Hf Ht Hl Hc st st'.
  pose proof (constructor_live _ _ _ _ _ Hf Ht Hl Hc) as Hlive.
  apply (steps_live before) in Hlive.
  destruct (destroy_released _ Hlive) as [_ Hrel]. fold st in Hrel.
  split; [exact Hrel|]. destruct Hrel as (Hf' & Ht' & Hl').
  destruct st as [sd wd]. cbn [fst snd] in *.
  destruct (released_forever (invoke id Math_pow) after sd wd Hf' Ht' Hl')
    as (H1 & H2 & H3 & H4 & H5).
  repeat split; assumption.
Qed.

End Destroy.
End LoopSliderDestroy.

(** The constructors complete. *)
Module ConstructorFacts.
Import Js Dom Browser MethodFacts.

Section Complete.
Context {C : Type} `{EqDecision C}.

Lemma slider_init_safe (bound : LoopSlider.Cb → C) :
  safe LoopSlider.wellFormed (λ _, True) (LoopSlider.init bound).
Proof.
  unfold LoopSlider.init, LoopSlider.setupSlider, LoopSlider.startAutoScroll,
    LoopSlider.setupDraggable, LoopSlider.setupResize, LoopSlider.updateDimensions,
    LoopSlider.getGap, LoopSlider.assignStyle, LoopSlider.setCursor.
  safe_auto.
  all: try exact I.
  - match goal with
    | H : LoopSlider.wellFormed ?s, E : LoopSlider.gap (LoopSlider.options ?s) = None |- _ =>
        destruct H as [_ [g Hg]]; rewrite Hg in E; discriminate
    end.
  - match goal with
    | H : LoopSlider.wellFormed ?s |- safe _ _ (deref (head (LoopSlider.slides ?s))) =>
        apply safe_deref; destruct H as [Hne _];
        destruct (LoopSlider.slides s); [contradiction|eexists; reflexivity]
    end.
Qed.

(** With a numeric gap among the options, [new LoopSlider(...)]
    completes. *)
Lemma slider_constructor_completes (bound : LoopSlider.Cb → C) selector u (w : World C) :
  is_Some (LoopSlider.u_gap u) →
  ∃ i w', LoopSlider.constructor bound selector u w = (Normal i, w').
Proof.
  intros Hgap. unfold LoopSlider.constructor.
  destruct (match selector with
            | LoopSlider.SelString sel => _ | LoopSlider.SelElement e => e end) as [c|];
    [|eexists _, _; reflexivity].
  case_bool_decide as Hlen; [eexists _, _; reflexivity|].
  match goal with |- context [LoopSlider.init bound (?s0, w)] =>
    destruct (slider_init_safe bound s0 w) as (a & s1 & w1 & -> & _)
  end.
  - split.
    + cbn. intros Hnil. rewrite Hnil in Hlen. apply Hlen. reflexivity.
    + cbn. destruct (bool_decide _); exact Hgap.
  - exact I.
  - eexists _, _. reflexivity.
Qed.

Lemma stalker_init_safe (bound : MouseStalker.Cb → C) :
  safe (λ _, True) (λ w : World C, is_Some (body (env w))) (MouseStalker.init bound).
Proof.
  unfold MouseStalker.init, MouseStalker.createStalker, MouseStalker.bindEvents,
    MouseStalker.render, MouseStalker.setStyles.
  safe_auto.
  all: try exact I.
  all: try (unfold addEventListener; destruct (bool_decide _); assumption).
  apply safe_deref. assumption.
Qed.

(** With [document.body] in place, [new MouseStalker(...)] completes. *)
Lemma stalker_constructor_completes (bound : MouseStalker.Cb → C) u (w : World C) :
  is_Some (body (env w)) →
  ∃ i w', MouseStalker.constructor bound u w = (Normal i, w').
Proof.
  intros Hbody. unfold MouseStalker.constructor.
  destruct (negb (hasWindow (env w)) || negb (hasDocument (env w)));
    [eexists _, _; reflexivity|].
  destruct (matchMedia (env w) "(prefers-reduced-motion: reduce)");
    [eexists _, _; reflexivity|].
  destruct (negb (matchMedia (env w) "(pointer: fine)"));
    [eexists _, _; reflexivity|].
  match goal with |- context [MouseStalker.init bound (?s0, w)] =>
    destruct (stalker_init_safe bound s0 w I Hbody) as (a & s1 & w1 & -> & _)
  end.
  eexists _, _. reflexivity.
Qed.

Lemma progress_triggers_safe (bound : ScrollProgressAnimation.Cb → C) :
  safe (λ s, is_Some (ScrollProgressAnimation.container s)) (λ _ : World C, True)
    (bind (ScrollProgressAnimation.animateProgress bound)
       (λ _, ScrollProgressAnimation.animateItems bound)).
Proof.
  unfold ScrollProgressAnimation.animateProgress, ScrollProgressAnimation.animateItems,
    ScrollProgressAnimation.ScrollTrigger_create.
  safe_auto.
  all: try exact I.
  apply safe_deref. assumption.
Qed.

(** [init] of a ScrollProgressAnimation completes. *)
Lemma progress_init_completes (bound : ScrollProgressAnimation.Cb → C) s (w : World C) :
  ∃ s' w', ScrollProgressAnimation.init bound (s, w) = (Normal tt, (s', w')).
Proof.
  unfold ScrollProgressAnimation.init. rewrite bind_this. cbn [fst].
  destruct (ScrollProgressAnimation.isValid s) eqn:Hvalid; cbn [negb].
  - unfold ScrollProgressAnimation.isValid in Hvalid.
    apply andb_prop in Hvalid as [Hvalid _]. apply andb_prop in Hvalid as [Hc _].
    apply bool_decide_eq_true in Hc.
    destruct (progress_triggers_safe bound s w Hc I) as ([] & s1 & w1 & -> & _).
    eexists _, _. reflexivity.
  - eexists _, _. reflexivity.
Qed.

Lemma splitChars_safe (bound : TextReveal.Cb → C) Ps cs n :
  safe Ps (λ _ : World C, True) (TextReveal.splitChars cs n).
Proof.
  revert n. induction cs as [|c cs IH]; intros n; cbn [TextReveal.splitChars].
  - apply safe_ret.
  - apply safe_bind.
    + unfold TextReveal.splitChar, TextReveal.createCharSpan. safe_auto.
      all: try exact I.
    + intros e. apply safe_bind; [apply IH|intros r; apply safe_ret].
Qed.

Lemma splitNodes_safe (bound : TextReveal.Cb → C) Ps nodes n :
  safe Ps (λ _ : World C, True) (TextReveal.splitNodes nodes n).
Proof.
  revert n. induction nodes as [|[text|node] nodes IH]; intros n;
    cbn [TextReveal.splitNodes].
  - apply safe_ret.
  - destruct (negb _); [apply IH|].
    apply safe_bind; [apply (splitChars_safe bound)|intros r].
    apply safe_bind; [apply IH|intros rest; apply safe_ret].
  - apply safe_bind; [apply safe_call; intros; exact I|intros clone].
    apply safe_bind; [apply IH|intros rest; apply safe_ret].
Qed.

Lemma reveal_init_safe (bound : TextReveal.Cb → C) :
  safe (λ s, is_Some (TextReveal.elements s)) (λ _ : World C, True)
    (TextReveal.init bound).
Proof.
  unfold TextReveal.init. apply safe_bind_this. intros s0 Hs0.
  apply safe_bind; [apply safe_deref, Hs0|intros els].
  apply safe_forEach. intros el.
  unfold TextReveal.setupElement, TextReveal.splitText, TextReveal.observe.
  repeat lazymatch goal with
         | |- safe _ _ (bind (TextReveal.splitNodes _ _) _) =>
             apply safe_bind; [apply (splitNodes_safe bound)|intros ?]
         | |- _ => safe_step
         end.
  all: try exact I.
Qed.

(** [new TextReveal(...)] completes. *)
Lemma reveal_constructor_completes (bound : TextReveal.Cb → C) selector u (w : World C) :
  ∃ i w', TextReveal.constructor bound selector u w = (Normal i, w').
Proof.
  unfold TextReveal.constructor.
  destruct (bool_decide _); [eexists _, _; reflexivity|].
  match goal with |- context [TextReveal.init bound (?s0, w)] =>
    destruct (reveal_init_safe bound s0 w) as (a & s1 & w1 & -> & _)
  end.
  - eexists. reflexivity.
  - exact I.
  - eexists _, _. reflexivity.
Qed.

End Complete.
End ConstructorFacts.

Module MainFacts.
Import Dom Browser MethodFacts ConstructorFacts Main.

Lemma instantiate_cons {Cb I} (wrap : I → World Cb → Component) k ctor v d rest p :
  instantiate wrap k ctor v d rest = Normal p →
  ∃ c p', p = (k, c) :: p' ∧ rest = Normal p'.
Proof.
  unfold instantiate. destruct (ctor _) as [[i|e] w]; [|discriminate].
  destruct rest as [p'|e]; [|discriminate].
  intros [= <-]. eexists _, _. split; reflexivity.
Qed.

(** [main] makes the configured instantiations, one component each. *)
Lemma main_keys v d p : main v d = Normal p → map fst p = configured.
Proof.
  unfold main. intros H.
  repeat (apply instantiate_cons in H as (? & ? & -> & H)).
  injection H as <-. reflexivity.
Qed.

(** With [document.body] in place, [main] completes. *)
Lemma main_completes v d : is_Some (body v) → ∃ p, main v d = Normal p.
Proof.
  intros Hbody. unfold main, instantiate.
  destruct (slider_constructor_completes id (LoopSlider.SelString ".js-loop-slider1")
              slider1Options (pristine v d)) as (i1 & w1 & ->); [eexists; reflexivity|].
  destruct (slider_constructor_completes id (LoopSlider.SelString ".js-loop-slider2")
              slider2Options (pristine v d)) as (i2 & w2 & ->); [eexists; reflexivity|].
  destruct (stalker_constructor_completes id stalkerConfig (pristine v d) Hbody)
    as (i3 & w3 & ->).
  assert (∃ s w, newProgress v d = (Normal s, w)) as (s4 & w4 & ->).
  { unfold newProgress, ScrollProgressAnimation.constructor.
    match goal with |- context [ScrollProgressAnimation.init id (?s, ?w)] =>
      destruct (progress_init_completes id s w) as (s' & w' & ->)
    end. eexists _, _. reflexivity. }
  destruct (reveal_constructor_completes id (Some "h3") revealH3Options (pristine v d))
    as (i5 & w5 & ->).
  destruct (reveal_constructor_completes id (Some "h2") revealH2Options (pristine v d))
    as (i6 & w6 & ->).
  eexists. reflexivity.
Qed.

Lemma configured_NoDup : NoDup configured.
Proof. apply (bool_decide_unpack _). vm_compute. exact I. Qed.

Section Independence.
Variable Math_pow : Q → Q → Q.

Lemma step_length ev (p : Page) : length (step Math_pow ev p) = length p.
Proof. unfold step. apply length_map. Qed.

Lemma step_lookup ev (p : Page) j :
  step Math_pow ev p !! j
  = (λ kc : Key * Component, (kc.1, stepComponent Math_pow ev kc.2)) <$> p !! j.
Proof. unfold step. apply list_lookup_fmap. Qed.

Lemma step_agreeExcept ev k p p' :
  agreeExcept k p p' → agreeExcept k (step Math_pow ev p) (step Math_pow ev p').
Proof.
  intros [Hlen Hsame]. split.
  - rewrite !step_length. exact Hlen.
  - intros j Hj. rewrite !step_lookup, (Hsame j Hj). reflexivity.
Qed.


End Independence.
End MainFacts.
Module WpFacts.
Import Dom Browser BrowserWp MethodFacts.

Section Laws.
Context {S : Type}.

Lemma bind_assoc {A B D} (m : M S A) (f : A → M S B) (g : B → M S D) s :
  bind (bind m f) g s = bind m (λ x, bind (f x) g) s.
Proof. unfold bind. destruct (m s) as [[a|e] s']; reflexivity. Qed.

Lemma wp_elim {A} (m : M S A) Q s :
  wp m Q s → ∃ a s', m s = (Normal a, s') ∧ Q a s'.
Proof.
  unfold wp. destruct (m s) as [[a|e] s']; [|intros []].
  intros H. eexists _, _. split; [reflexivity|exact H].
Qed.

Lemma wp_intro {A} (m : M S A) (Q : A → S → Prop) s a s' :
  m s = (Normal a, s') → Q a s' → wp m Q s.
Proof. unfold wp. intros ->. trivial. Qed.

Lemma wp_conseq {A} (m : M S A) (Q Q' : A → S → Prop) s :
  wp m Q s → (∀ a s', Q a s' → Q' a s') → wp m Q' s.
Proof. unfold wp. destruct (m s) as [[a|e] s']; [|intros []]. intros H HQ. apply HQ, H. Qed.

Lemma wp_ret {A} (a : A) (Q : A → S → Prop) s : Q a s → wp (ret a) Q s.
Proof. trivial. Qed.

Lemma wp_bind {A B} (m : M S A) (k : A → M S B) Q s :
  wp m (λ a s', wp (k a) Q s') s → wp (bind m k) Q s.
Proof. unfold wp, bind. destruct (m s) as [[a|e] s']; trivial. Qed.

Lemma wp_deref {A} (o : option A) (Q : A → S → Prop) s a :
  o = Some a → Q a s → wp (deref o) Q s.
Proof. intros ->. trivial. Qed.

Lemma wp_forEach {A} (I : S → Prop) (f : A → M S unit) (l : list A) s :
  I s → (∀ x s, x ∈ l → I s → wp (f x) (λ _, I) s) →
  wp (forEach f l) (λ _, I) s.
Proof.
  revert s. induction l as [|x l IH]; intros s Hs Hf; cbn [forEach].
  - exact Hs.
  - apply wp_bind. eapply wp_conseq.
    + apply Hf; [apply elem_of_cons; left; reflexivity|exact Hs].
    + intros a s' Hs'. apply IH; [exact Hs'|].
      intros y s0 Hy. apply Hf. apply elem_of_cons. right. exact Hy.
Qed.

Lemma wp_mapM {A B} (I : S → Prop) (R : A → B → Prop) (f : A → M S B)
    (l : list A) s :
  I s → (∀ x s, x ∈ l → I s → wp (f x) (λ y s', I s' ∧ R x y) s) →
  wp (mapM f l) (λ ys s', I s' ∧ Forall2 R l ys) s.
Proof.
  revert s. induction l as [|x l IH]; intros s Hs Hf; cbn [mapM].
  - split; [exact Hs|constructor].
  - apply wp_bind. eapply wp_conseq.
    + apply Hf; [apply elem_of_cons; left; reflexivity|exact Hs].
    + intros y s' [Hs' Hy]. apply wp_bind. eapply wp_conseq.
      * apply IH; [exact Hs'|].
        intros z s0 Hz. apply Hf. apply elem_of_cons. right. exact Hz.
      * intros ys s'' [Hs'' Hys]. split; [exact Hs''|constructor; assumption].
Qed.

End Laws.

Section MethodLaws.
Context {Cb T : Type}.
Local Abbreviation St := (T * World Cb)%type.

Lemma wp_bind_this {B} (k : T → M St B) Q st :
  wp (k st.1) Q st → wp (bind this k) Q st.
Proof. trivial. Qed.

Lemma wp_bind_world {B} (k : World Cb → M St B) Q st :
  wp (k st.2) Q st → wp (bind world k) Q st.
Proof. trivial. Qed.

Lemma wp_assign (f : T → T) (Q : unit → St → Prop) st :
  Q tt (f st.1, st.2) → wp (assign f) Q st.
Proof. trivial. Qed.

Lemma wp_effect (f : World Cb → World Cb) (Q : unit → St → Prop) st :
  Q tt (st.1, f st.2) → wp (Browser.effect f) Q st.
Proof. trivial. Qed.

Lemma wp_call {A} (f : World Cb → A * World Cb) (Q : A → St → Prop) st :
  Q (f st.2).1 (st.1, (f st.2).2) → wp (call f) Q st.
Proof. trivial. Qed.

End MethodLaws.

Section SafeWp.
Context {Cb T : Type}.

(** A stretch of code that is safe under two invariants keeps them. *)
Lemma safe_wp {A} (Ps : T → Prop) (Pw : World Cb → Prop)
    (m : M (T * World Cb) A) st :
  safe Ps Pw m → Ps st.1 → Pw st.2 →
  wp m (λ _ st', Ps st'.1 ∧ Pw st'.2) st.
Proof.
  intros Hsafe Hs Hw. destruct st as [s w].
  destruct (Hsafe s w Hs Hw) as (a & s' & w' & E & Hs' & Hw').
  unfold wp. rewrite E. split; assumption.
Qed.

End SafeWp.

(** Walk through a method body towards its postcondition; loops are left
    for an invariant. *)
Ltac wp_step :=
  lazymatch goal with
  | |- wp (bind this _) _ _ => apply wp_bind_this; cbn [fst snd]
  | |- wp (bind world _) _ _ => apply wp_bind_world; cbn [fst snd]
  | |- wp (bind (assign _) _) _ _ => apply wp_bind
  | |- wp (bind (Browser.effect _) _) _ _ => apply wp_bind
  | |- wp (bind (call _) _) _ _ => apply wp_bind
  | |- wp (bind (ret _) _) _ _ => apply wp_bind
  | |- wp (ret _) _ _ => apply wp_ret
  | |- wp (assign _) _ _ => apply wp_assign; cbn [fst snd]
  | |- wp (Browser.effect _) _ _ => apply wp_effect; cbn [fst snd]
  | |- wp (call _) _ _ => apply wp_call; cbn [fst snd]
  | |- wp _ _ _ => progress cbv zeta
  end.

Ltac wp_auto := repeat wp_step.

(** Run the straight-line part of a method on a given state. *)
Ltac run_method :=
  repeat first
    [rewrite bind_assoc | rewrite bind_this | rewrite bind_world
    |rewrite bind_assign | rewrite bind_effect | rewrite bind_call
    |rewrite bind_ret | progress cbn [fst snd]].

(** Pass the stretches of a body that keep the invariants [Ps] of the
    instance and [Pw] of the world. *)
Ltac wp_pass Ps Pw :=
  lazymatch goal with |- wp (bind _ _) _ _ => idtac end;
  apply wp_bind; eapply wp_conseq;
  [apply (safe_wp Ps Pw);
   [safe_auto; try assumption
   |first [assumption | reflexivity]
   |first [assumption | reflexivity]]
  |let a := fresh "a" in let st := fresh "st" in
   let HPs := fresh "HPs" in let HPw := fresh "HPw" in
   intros a st [HPs HPw]].

End WpFacts.

Module DomFacts2.
Import Dom Browser DomSpec DomFacts MethodFacts.


Lemma classList_add_attrs k x : attrs (classList_add k x) = attrs x.
Proof. unfold classList_add. destruct (classList_contains k x); reflexivity. Qed.

Lemma classList_add_parent k x : parentNode (classList_add k x) = parentNode x.
Proof. unfold classList_add. destruct (classList_contains k x); reflexivity. Qed.

Lemma listeners_add_new {C} `{EqDecision C} t ty (cb : C) cap (w : World C) ls :
  listeners w = ls → mkListener t ty cb cap ∉ ls →
  listeners (addEventListener t ty cb cap w) = ls ++ [mkListener t ty cb cap].
Proof.
  intros <- Hnew. unfold addEventListener.
  rewrite bool_decide_eq_false_2 by exact Hnew. reflexivity.
Qed.

Ltac not_listed :=
  let Hin := fresh in
  intros Hin;
  repeat (apply elem_of_cons in Hin as [Hin|Hin]; [discriminate Hin|]);
  inversion Hin.

Lemma quiet_trans {C} (w1 w2 w3 : World C) : quiet w1 w2 → quiet w2 w3 → quiet w1 w3.
Proof.
  unfold quiet. intros (?&?&?&?&?&?&?&?&?&?) (?&?&?&?&?&?&?&?&?&?).
  repeat split; congruence.
Qed.

Lemma addEventListener_rest {C} `{EqDecision C} t ty (cb : C) cap (w : World C) :
  frames (addEventListener t ty cb cap w) = frames w
  ∧ timers (addEventListener t ty cb cap w) = timers w
  ∧ env (addEventListener t ty cb cap w) = env w.
Proof. unfold addEventListener. destruct (bool_decide _); repeat split. Qed.


Section Quiet.
Context {C : Type}.
Implicit Types (w : World C) (e : Elem) (f : Element → Element).

Lemma quiet_refl w : quiet w w.
Proof. repeat split. Qed.

Lemma quiet_env w0 w : quiet w0 w → env w = env w0.
Proof. intros H. apply H. Qed.

Lemma quiet_update f e w0 w : quiet w0 w → quiet w0 (update f e w).
Proof. intros H. exact H. Qed.

Lemma quiet_appendChild p e w0 w : quiet w0 w → quiet w0 (appendChild p e w).
Proof. intros H. exact H. Qed.

Lemma quiet_removeChild p e w0 w : quiet w0 w → quiet w0 (removeChild p e w).
Proof. intros H. exact H. Qed.

Lemma quiet_createElement w0 w : quiet w0 w → quiet w0 (createElement w).2.
Proof. intros H. exact H. Qed.

Lemma quiet_cloneNode e w0 w : quiet w0 w → quiet w0 (cloneNode e w).2.
Proof. intros H. exact H. Qed.

Lemma next_elem_update f e w : next_elem (update f e w) = next_elem w.
Proof. reflexivity. Qed.

Lemma next_elem_appendChild p e w : next_elem (appendChild p e w) = next_elem w.
Proof. reflexivity. Qed.

Lemma next_elem_removeChild p e w : next_elem (removeChild p e w) = next_elem w.
Proof. reflexivity. Qed.

Lemma next_elem_createElement w : next_elem (createElement w).2 = S (next_elem w).
Proof. reflexivity. Qed.

Lemma createElement_fst w : (createElement w).1 = S (next_elem w).
Proof. reflexivity. Qed.

End Quiet.

Section Store.
Context {C : Type}.
Implicit Types (w : World C) (e : Elem) (f : Element → Element).

Lemma elemAt_update f e e' w :
  elemAt (update f e w) e' = if decide (e' = e) then f (elemAt w e) else elemAt w e'.
Proof.
  unfold elemAt. destruct (decide (e' = e)) as [->|Hne].
  - apply getElem_update_same.
  - apply getElem_update_other, Hne.
Qed.

Lemma elemAt_create w e :
  elemAt (createElement w).2 e
  = if decide (e = S (next_elem w)) then blank else elemAt w e.
Proof.
  unfold elemAt, createElement, getElem. cbn [snd dom set_dom set_next_elem].
  destruct (decide (e = S (next_elem w))) as [->|Hne].
  - rewrite lookup_insert_eq. reflexivity.
  - rewrite lookup_insert_ne by congruence. reflexivity.
Qed.

Lemma elemAt_clone w src e :
  elemAt (cloneNode src w).2 e
  = if decide (e = S (next_elem w)) then set_parentNode None (elemAt w src)
    else elemAt w e.
Proof.
  unfold elemAt, cloneNode, getElem. cbn [snd dom set_dom set_next_elem].
  destruct (decide (e = S (next_elem w))) as [->|Hne].
  - rewrite lookup_insert_eq. reflexivity.
  - rewrite lookup_insert_ne by congruence. reflexivity.
Qed.

(** Writing styles changes the style of the one element only. *)
Lemma elemAt_styleAll e kvs w e' :
  className (elemAt (styleAll e kvs w) e') = className (elemAt w e')
  ∧ attrs (elemAt (styleAll e kvs w) e') = attrs (elemAt w e')
  ∧ textContent (elemAt (styleAll e kvs w) e') = textContent (elemAt w e')
  ∧ parentNode (elemAt (styleAll e kvs w) e') = parentNode (elemAt w e')
  ∧ (e' ≠ e → elemAt (styleAll e kvs w) e' = elemAt w e').
Proof.
  revert w. induction kvs as [|kv kvs IH]; intros w; [repeat split|].
  cbn [styleAll foldl]. fold (styleAll e kvs (update (setStyle kv.1 kv.2) e w)).
  destruct (IH (update (setStyle kv.1 kv.2) e w)) as (H1 & H2 & H3 & H4 & H5).
  rewrite H1, H2, H3, H4, elemAt_update.
  destruct (decide (e' = e)) as [->|Hne].
  - repeat split. intros Hne. contradiction.
  - repeat split. intros _. rewrite (H5 Hne), elemAt_update.
    rewrite decide_False by exact Hne. reflexivity.
Qed.

Lemma styleAll_rest e kvs w :
  env (styleAll e kvs w) = env w ∧ next_elem (styleAll e kvs w) = next_elem w
  ∧ frames (styleAll e kvs w) = frames w ∧ next_frame (styleAll e kvs w) = next_frame w
  ∧ timers (styleAll e kvs w) = timers w ∧ next_timer (styleAll e kvs w) = next_timer w
  ∧ listeners (styleAll e kvs w) = listeners w
  ∧ now (styleAll e kvs w) = now w ∧ scrollY (styleAll e kvs w) = scrollY w
  ∧ console (styleAll e kvs w) = console w ∧ calls (styleAll e kvs w) = calls w.
Proof.
  revert w. induction kvs as [|kv kvs IH]; intros w; [repeat split|].
  cbn [styleAll foldl]. fold (styleAll e kvs (update (setStyle kv.1 kv.2) e w)).
  destruct (IH (update (setStyle kv.1 kv.2) e w))
    as (H1 & H2 & H3 & H4 & H5 & H6 & H7 & H8 & H9 & H10 & H11).
  rewrite H1, H2, H3, H4, H5, H6, H7, H8, H9, H10, H11. repeat split.
Qed.

Lemma styleAll_env e kvs w : env (styleAll e kvs w) = env w.
Proof. apply styleAll_rest. Qed.
Lemma styleAll_next_elem e kvs w : next_elem (styleAll e kvs w) = next_elem w.
Proof. apply styleAll_rest. Qed.
Lemma styleAll_frames e kvs w : frames (styleAll e kvs w) = frames w.
Proof. apply styleAll_rest. Qed.
Lemma styleAll_next_frame e kvs w : next_frame (styleAll e kvs w) = next_frame w.
Proof. apply styleAll_rest. Qed.
Lemma styleAll_timers e kvs w : timers (styleAll e kvs w) = timers w.
Proof. apply styleAll_rest. Qed.
Lemma styleAll_next_timer e kvs w : next_timer (styleAll e kvs w) = next_timer w.
Proof. apply styleAll_rest. Qed.
Lemma styleAll_listeners e kvs w : listeners (styleAll e kvs w) = listeners w.
Proof. apply styleAll_rest. Qed.
Lemma styleAll_now e kvs w : now (styleAll e kvs w) = now w.
Proof. apply styleAll_rest. Qed.
Lemma styleAll_scrollY e kvs w : scrollY (styleAll e kvs w) = scrollY w.
Proof. apply styleAll_rest. Qed.
Lemma styleAll_console e kvs w : console (styleAll e kvs w) = console w.
Proof. apply styleAll_rest. Qed.
Lemma styleAll_calls e kvs w : calls (styleAll e kvs w) = calls w.
Proof. apply styleAll_rest. Qed.

Lemma quiet_styleAll e kvs w0 w : quiet w0 w → quiet w0 (styleAll e kvs w).
Proof.
  intros H. apply (quiet_trans _ w _ H).
  destruct (styleAll_rest e kvs w) as (H1 & _ & H3 & H4 & H5 & H6 & H7 & H8 & H9 & H10 & H11).
  repeat split; assumption.
Qed.

End Store.

(** A world reached from [w] by writes to the DOM store is [quiet]. *)
Ltac quiet_chain :=
  lazymatch goal with
  | H : quiet ?a ?b |- quiet ?a ?b => exact H
  | |- quiet ?a ?a => apply quiet_refl
  | |- quiet _ (update _ _ _) => apply quiet_update; quiet_chain
  | |- quiet _ (appendChild _ _ _) => apply quiet_appendChild; quiet_chain
  | |- quiet _ (removeChild _ _ _) => apply quiet_removeChild; quiet_chain
  | |- quiet _ (createElement _).2 => apply quiet_createElement; quiet_chain
  | |- quiet _ (cloneNode _ _).2 => apply quiet_cloneNode; quiet_chain
  | |- quiet _ (styleAll _ _ _) => apply quiet_styleAll; quiet_chain
  end.

(** The next element reference, read through the writes to the store. *)
Ltac next_elem_simpl :=
  repeat first
    [rewrite next_elem_update | rewrite next_elem_appendChild
    |rewrite next_elem_removeChild | rewrite next_elem_createElement
    |rewrite styleAll_next_elem | rewrite createElement_fst].

(** An element read through the writes to the store; [solve_ne] decides
    whether two references are the same. *)
Ltac dom_simpl solve_ne :=
  repeat first
    [match goal with
     | |- context [elemAt (appendChild ?p ?ch ?w) ?e'] =>
         rewrite (elemAt_update (set_parentNode (Some p)) ch e' w
                  : elemAt (appendChild p ch w) e' = _)
     | |- context [elemAt (removeChild ?p ?ch ?w) ?e'] =>
         rewrite (elemAt_update (set_parentNode None) ch e' w
                  : elemAt (removeChild p ch w) e' = _)
     | |- context [elemAt (update ?f ?e ?w) ?e'] => rewrite (elemAt_update f e e' w)
     | |- context [elemAt (createElement ?w).2 ?e'] => rewrite (elemAt_create w e')
     | |- context [className (elemAt (styleAll ?e ?k ?w) ?e')] =>
         rewrite (proj1 (elemAt_styleAll e k w e'))
     | |- context [attrs (elemAt (styleAll ?e ?k ?w) ?e')] =>
         rewrite (proj1 (proj2 (elemAt_styleAll e k w e')))
     | |- context [textContent (elemAt (styleAll ?e ?k ?w) ?e')] =>
         rewrite (proj1 (proj2 (proj2 (elemAt_styleAll e k w e'))))
     | |- context [parentNode (elemAt (styleAll ?e ?k ?w) ?e')] =>
         rewrite (proj1 (proj2 (proj2 (proj2 (elemAt_styleAll e k w e')))))
     | |- context [next_elem (styleAll ?e ?k ?w)] => rewrite (styleAll_next_elem e k w)
     | |- context [next_elem (update ?f ?e ?w)] => rewrite (next_elem_update f e w)
     | |- context [next_elem (createElement ?w).2] => rewrite (next_elem_createElement w)
     | |- context [attrs (classList_add ?k ?x)] => rewrite (classList_add_attrs k x)
     | |- context [parentNode (classList_add ?k ?x)] => rewrite (classList_add_parent k x)
     | |- context [decide (?a = ?b)] =>
         first [rewrite (decide_True (P := a = b)) by solve_ne
               |rewrite (decide_False (P := a = b)) by solve_ne]
     end
    |progress cbn [className attrs textContent parentNode Dom.style
                   set_className set_attrs set_textContent set_parentNode set_style
                   setAttribute getAttribute setStyle classList_add classList_remove
                   classList_toggle fst snd]
    ].

Section Styles.
Context {C T : Type}.

(** A loop of style assignments, as one write to the world. *)
Lemma forEach_styles e (kvs : list (string * StyleValue)) (s : T) (w : World C) :
  forEach (λ kv, Browser.effect (update (setStyle kv.1 kv.2) e)) kvs (s, w)
  = (Normal tt, (s, styleAll e kvs w)).
Proof.
  revert w. induction kvs as [|kv kvs IH]; intros w; [reflexivity|].
  cbn [forEach]. rewrite bind_effect. cbn [fst snd]. apply IH.
Qed.

End Styles.
End DomFacts2.

Module LoopSliderInit.
Import Js JsFacts Dom Browser BrowserWp MethodFacts WpFacts LoopSlider LoopSliderSpec
  DomSpec DomFacts2.
Local Open Scope Q_scope.

Section Init.
Context {C : Type} `{EqDecision C} (bound : Cb → C).

(** [updateDimensions] on a slider with a first slide, and a wrapper or a
    numeric gap: it completes, reads the layout and assigns the widths. *)
Lemma updateDimensions_spec (s : Slider) (w : World C) first :
  head (slides s) = Some first →
  is_Some (gap (options s)) ∨ is_Some (wrapper s) →
  ∃ s', updateDimensions (s, w) = (Normal tt, (s', w))
        ∧ slideWidth s' = offsetWidth (env w) first + gapOf s (env w)
        ∧ totalWidth s'
          = slideWidth s' * inject_Z (Z.of_nat (length (slides s)))
        ∧ (baseX s = 0 → baseX s' == 0)
        ∧ ∀ (X : Type) (π : Slider → X),
            (∀ v x, π (set_slideWidth v x) = π x) →
            (∀ v x, π (set_totalWidth v x) = π x) →
            (∀ v x, π (set_baseX v x) = π x) →
            π s' = π s.
Proof.
  intros Hfirst Hgap.
  assert (getGap (s, w) = (Normal (gapOf s (env w)), (s, w))) as Eg.
  { unfold getGap, gapOf. rewrite bind_this. cbn [fst].
    destruct (gap (options s)); [reflexivity|].
    destruct Hgap as [[? [=]]|[wr ->]]. reflexivity. }
  unfold updateDimensions.
  rewrite (bind_normal _ _ _ _ _ Eg), bind_this, bind_world. cbn [fst snd].
  rewrite Hfirst. cbn [deref].
  rewrite bind_ret, bind_assign, bind_this, bind_assign, bind_this.
  cbn [fst snd]. cbn [totalWidth set_totalWidth slideWidth set_slideWidth slides].
  match goal with |- context [gtb ?W 0] => destruct (gtb W 0) eqn:Hpos end.
  - eexists. split; [reflexivity|]. cbn. repeat split.
    + intros ->. unfold Qdiv. ring.
    + intros X π H1 H2 H3. rewrite H3, H2, H1. reflexivity.
  - eexists. split; [reflexivity|]. cbn. repeat split.
    + intros ->. reflexivity.
    + intros X π H1 H2 H3. rewrite H2, H1. reflexivity.
Qed.

End Init.
End LoopSliderInit.

Module LoopSliderInit2.
Import Js JsFacts Dom Browser BrowserWp MethodFacts WpFacts LoopSlider LoopSliderSpec LoopSliderInit
  DomSpec DomFacts2.
Local Open Scope Q_scope.

Section Init.
Context {C : Type} `{EqDecision C} (bound : Cb → C).

(** [setupSlider] on a slider with at least one slide: it completes; the
    wrapper is the element it has created; the widths are measured on the
    page as it is; only the DOM store of the world has changed; the other
    fields of the slider are as they were. *)
Lemma setupSlider_spec (s0 : Slider) (w : World C) first :
  head (slides s0) = Some first →
  ∃ s1 w1, setupSlider (s0, w) = (Normal tt, (s1, w1))
     ∧ wrapper s1 = Some (S (next_elem w))
     ∧ slideWidth s1 = offsetWidth (env w) first + gapOf s1 (env w)
     ∧ totalWidth s1 = slideWidth s1 * inject_Z (Z.of_nat (length (slides s0)))
     ∧ (baseX s0 = 0 → baseX s1 == 0)
     ∧ quiet w w1
     ∧ ∀ (X : Type) (π : Slider → X),
         (∀ v x, π (set_wrapper v x) = π x) →
         (∀ v x, π (set_slideWidth v x) = π x) →
         (∀ v x, π (set_totalWidth v x) = π x) →
         (∀ v x, π (set_baseX v x) = π x) →
         π s1 = π s0.
Proof.
  intros Hfirst.
  set (sA := set_wrapper (Some (S (next_elem w))) s0).
  enough (wp setupSlider
            (λ _ st, wrapper st.1 = Some (S (next_elem w))
               ∧ slideWidth st.1 = offsetWidth (env w) first + gapOf st.1 (env w)
               ∧ totalWidth st.1
                 = slideWidth st.1 * inject_Z (Z.of_nat (length (slides s0)))
               ∧ (baseX s0 = 0 → baseX st.1 == 0)
               ∧ quiet w st.2
               ∧ ∀ (X : Type) (π : Slider → X),
                   (∀ v x, π (set_wrapper v x) = π x) →
                   (∀ v x, π (set_slideWidth v x) = π x) →
                   (∀ v x, π (set_totalWidth v x) = π x) →
                   (∀ v x, π (set_baseX v x) = π x) →
                   π st.1 = π s0) (s0, w)) as Hwp.
  { apply wp_elim in Hwp as ([] & [s1 w1] & E & H1). eexists _, _.
    split; [exact E|exact H1]. }
  unfold setupSlider. wp_auto.
  assert (quiet w (update (set_className ["c-loop-slider__wrapper"%string])
                     (createElement w).1 (createElement w).2)) as HPw
    by (repeat split).
  revert HPw. generalize (update (set_className ["c-loop-slider__wrapper"%string])
                     (createElement w).1 (createElement w).2).
  intros w0 HPw.
  change (set_wrapper (Some (createElement w).1) s0) with sA.
  unfold assignStyle.
  repeat wp_pass (λ s : Slider, s = sA) (quiet (C := C) w).
  match goal with
  | HPs : ?st.1 = sA, HQ : quiet w ?st.2 |- wp updateDimensions _ ?st =>
      destruct st as [s1 w1]; cbn [fst snd] in HPs, HQ; subst s1;
      rename HQ into Hquiet
  end.
  destruct (updateDimensions_spec sA w1 first Hfirst) as (s' & E & Hsw & Htw & Hb & Hπ).
  { right. eexists. reflexivity. }
  apply (wp_intro _ _ _ _ _ E). cbn [fst snd].
  assert (env w1 = env w) as Henv by apply Hquiet.
  rewrite Henv in Hsw.
  split; [rewrite (Hπ _ wrapper) by reflexivity; reflexivity|].
  split; [rewrite (Hπ _ (λ s, gapOf s (env w))) by reflexivity; exact Hsw|].
  split; [exact Htw|]. split; [exact Hb|]. split; [exact Hquiet|].
  intros X π H1 H2 H3 H4. rewrite (Hπ _ π H2 H3 H4). apply H1.
Qed.

End Init.
End LoopSliderInit2.

Module LoopSliderInit3.
Import Js JsFacts Dom Browser BrowserWp MethodFacts WpFacts LoopSlider LoopSliderSpec
  LoopSliderInit LoopSliderInit2
  DomSpec DomFacts2.
Local Open Scope Q_scope.

(** What [setupDraggable] registers on a page with no listener yet. *)
Lemma registered_listeners (c : Elem) (w : World Cb) :
  listeners w = [] →
  listeners
    (addEventListener Document "touchend" OnPointerUp false
      (addEventListener Document "mouseup" OnPointerUp false
        (addEventListener Document "touchmove" OnPointerMove false
          (addEventListener Document "mousemove" OnPointerMove false
            (addEventListener (Node c) "touchstart" OnPointerDown false
              (addEventListener (Node c) "mousedown" OnPointerDown false w))))))
  = dragListeners c.
Proof.
  intros Hl.
  apply (listeners_add_new (Node c) "mousedown" OnPointerDown false) in Hl; [|not_listed].
  apply (listeners_add_new (Node c) "touchstart" OnPointerDown false) in Hl; [|not_listed].
  apply (listeners_add_new Document "mousemove" OnPointerMove false) in Hl; [|not_listed].
  apply (listeners_add_new Document "touchmove" OnPointerMove false) in Hl; [|not_listed].
  apply (listeners_add_new Document "mouseup" OnPointerUp false) in Hl; [|not_listed].
  apply (listeners_add_new Document "touchend" OnPointerUp false) in Hl; [|not_listed].
  exact Hl.
Qed.

Lemma setupDraggable_eq (s : Slider) (w : World Cb) :
  setupDraggable id (s, w)
  = (Normal tt,
     (s, if draggable (options s) then
           addEventListener Document "touchend" OnPointerUp false
            (addEventListener Document "mouseup" OnPointerUp false
              (addEventListener Document "touchmove" OnPointerMove false
                (addEventListener Document "mousemove" OnPointerMove false
                  (addEventListener (Node (container s)) "touchstart" OnPointerDown false
                    (addEventListener (Node (container s)) "mousedown" OnPointerDown false
                      (update (setStyle "cursor" (Css "grab")) (container s) w))))))
         else update (setStyle "cursor" (Css "")) (container s) w)).
Proof.
  unfold setupDraggable. rewrite bind_this. cbn [fst snd].
  destruct (draggable (options s)); reflexivity.
Qed.

(** [init] on a slider with at least one slide. *)
Lemma init_spec (s0 : Slider) (w : World Cb) first :
  head (slides s0) = Some first →
  ∃ s w', init id (s0, w) = (Normal tt, (s, w'))
     ∧ wrapper s = Some (S (next_elem w))
     ∧ slideWidth s = offsetWidth (env w) first + gapOf s (env w)
     ∧ totalWidth s = slideWidth s * inject_Z (Z.of_nat (length (slides s0)))
     ∧ baseX s = - totalWidth s
     ∧ animation s = Some (S (next_frame w))
     ∧ lastFrameTime s = None
     ∧ frames w' = frames w ++ [(S (next_frame w), UpdatePosition)]
     ∧ timers w' = timers w
     ∧ env w' = env w
     ∧ (listeners w = [] →
        listeners w'
        = (if draggable (options s0) then dragListeners (container s0) else [])
          ++ [resizeListener])
     ∧ ∀ (X : Type) (π : Slider → X),
         (∀ v x, π (set_wrapper v x) = π x) →
         (∀ v x, π (set_slideWidth v x) = π x) →
         (∀ v x, π (set_totalWidth v x) = π x) →
         (∀ v x, π (set_baseX v x) = π x) →
         (∀ v x, π (set_animation v x) = π x) →
         (∀ v x, π (set_lastFrameTime v x) = π x) →
         π s = π s0.
Proof.
  intros Hfirst.
  destruct (setupSlider_spec s0 w first Hfirst)
    as (s1 & w1 & E1 & Hwr & Hsw & Htw & _ & Hq & Hπ).
  unfold init. rewrite (bind_normal _ _ _ _ _ E1).
  rewrite (bind_normal _ _ _ _ _ (LoopSliderDestroy.startAutoScroll_spec s1 w1)).
  set (s2 := set_animation _ _). set (w2 := (requestAnimationFrame _ w1).2).
  destruct Hq as (Henv & _ & _ & Hf & Hnf & Ht & _ & Hl & _).
  assert (container s2 = container s0) as Hc by (apply (Hπ _ container); reflexivity).
  assert (options s2 = options s0) as Ho by (apply (Hπ _ options); reflexivity).
  rewrite (bind_normal _ _ _ _ _ (setupDraggable_eq s2 w2)). rewrite Ho, Hc.
  unfold setupResize, Browser.effect, modify. cbn [fst snd].
  eexists _, _. split; [reflexivity|].
  split; [exact Hwr|]. split; [exact Hsw|]. split; [exact Htw|].
  split; [reflexivity|]. split; [cbn; rewrite Hnf; reflexivity|].
  split; [reflexivity|].
  split.
  { rewrite (proj1 (addEventListener_rest _ _ _ _ _)).
    destruct (draggable (options s0));
      rewrite ?(proj1 (addEventListener_rest _ _ _ _ _)); cbn; rewrite Hf, Hnf; reflexivity. }
  split.
  { rewrite (proj1 (proj2 (addEventListener_rest _ _ _ _ _))).
    destruct (draggable (options s0));
      rewrite ?(proj1 (proj2 (addEventListener_rest _ _ _ _ _))); cbn; exact Ht. }
  split.
  { rewrite (proj2 (proj2 (addEventListener_rest _ _ _ _ _))).
    destruct (draggable (options s0));
      rewrite ?(proj2 (proj2 (addEventListener_rest _ _ _ _ _))); cbn; exact Henv. }
  split.
  - intros Hl0. destruct (draggable (options s0)).
    + apply listeners_add_new; [|not_listed].
      apply registered_listeners. cbn. rewrite Hl. exact Hl0.
    + apply listeners_add_new; [|not_listed].
      cbn. rewrite Hl. exact Hl0.
  - intros X π H1 H2 H3 H4 H5 H6. unfold s2. rewrite H5, H4, H6.
    apply Hπ; assumption.
Qed.

End LoopSliderInit3.

Module LoopSliderConstructor.
Import Js JsFacts Dom Browser BrowserWp MethodFacts WpFacts LoopSlider LoopSliderSpec
  LoopSliderSpec2 LoopSliderInit LoopSliderInit2 LoopSliderInit3
  DomSpec DomFacts2.
Local Open Scope Q_scope.

(** The three ways the constructor ends. *)
Lemma constructor_cases selector u (w : World Cb) :
  (containerOf (env w) selector = None
   ∧ constructor id selector u w = (Normal NoContainer, w))
  ∨ (∃ c, containerOf (env w) selector = Some c ∧ children (env w) c = []
          ∧ constructor id selector u w = (Normal (NoSlides c), w))
  ∨ (∃ c first s w',
       containerOf (env w) selector = Some c
       ∧ head (children (env w) c) = Some first
       ∧ init id (fresh c (children (env w) c) (effective u) w, w)
         = (Normal tt, (s, w'))
       ∧ constructor id selector u w = (Normal (Ready s), w')).
Proof.
  unfold constructor. fold (containerOf (env w) selector).
  destruct (containerOf (env w) selector) as [c|]; [|left; split; reflexivity].
  right. destruct (children (env w) c) as [|first rest] eqn:Hch.
  - left. exists c. repeat split. exact Hch.
  - right. cbn [length]. rewrite bool_decide_eq_false_2 by discriminate.
    fold (effective u).
    destruct (init_spec (fresh c (first :: rest) (effective u) w) w first eq_refl)
      as (s & w' & E & _).
    exists c, first, s, w'. rewrite E, Hch. repeat split. exact E.
Qed.


(** What the constructor leaves when it has built a slider. *)
Lemma constructor_ready selector u (w w' : World Cb) s :
  constructor id selector u w = (Normal (Ready s), w') →
  ∃ c first,
    containerOf (env w) selector = Some c
    ∧ head (children (env w) c) = Some first
    ∧ init id (fresh c (children (env w) c) (effective u) w, w) = (Normal tt, (s, w')).
Proof.
  intros E.
  destruct (constructor_cases selector u w)
    as [[_ E']|[(c & _ & _ & E')|(c & first & s1 & w1 & Hc & Hch & Ei & E')]];
    rewrite E' in E; try discriminate.
  injection E as <- <-. exists c, first. repeat split; assumption.
Qed.

(** The instance the constructor has built. *)
Lemma constructor_start selector u (w w' : World Cb) s :
  constructor id selector u w = (Normal (Ready s), w') →
  ∃ c first,
    containerOf (env w) selector = Some c
    ∧ head (children (env w) c) = Some first
    ∧ container s = c ∧ slides s = children (env w) c
    ∧ slideWidth s = offsetWidth (env w) first + gapOf s (env w)
    ∧ totalWidth s = slideWidth s * inject_Z (Z.of_nat (length (slides s)))
    ∧ baseX s = - totalWidth s ∧ dragX s = 0
    ∧ isDragging s = false ∧ velocity s = 0
    ∧ (0 <= totalWidth s → inLoopRange s).
Proof.
  intros E. destruct (constructor_ready _ _ _ _ _ E) as (c & first & Hc & Hch & Ei).
  destruct (init_spec (fresh c (children (env w) c) (effective u) w) w first Hch)
    as (s1 & w1 & Ei' & _ & Hsw & Htw & Hb & _ & _ & _ & _ & _ & _ & Hπ).
  rewrite Ei in Ei'. injection Ei' as <- <-.
  assert (slides s = children (env w) c) as Hs by (apply (Hπ _ slides); reflexivity).
  assert (dragX s = 0) as Hd by (apply (Hπ _ dragX); reflexivity).
  exists c, first. split; [exact Hc|]. split; [exact Hch|].
  split; [apply (Hπ _ container); reflexivity|]. split; [exact Hs|].
  split; [exact Hsw|]. split; [rewrite Hs; exact Htw|].
  split; [exact Hb|]. split; [exact Hd|].
  split; [apply (Hπ _ isDragging); reflexivity|].
  split; [apply (Hπ _ velocity); reflexivity|].
  intros Hw. unfold inLoopRange, position. rewrite Hb, Hd. lra.
Qed.

(** The listeners the constructor has registered. *)
Lemma constructor_listeners selector u (w w' : World Cb) s :
  constructor id selector u w = (Normal (Ready s), w') →
  listeners w = [] →
  options s = effective u
  ∧ listeners w'
    = (if draggable (effective u) then dragListeners (container s) else [])
      ++ [resizeListener]
  ∧ (effect (merge u) = "scroll"%string → listeners w' = [resizeListener]).
Proof.
  intros E Hl. destruct (constructor_ready _ _ _ _ _ E) as (c & first & Hc & Hch & Ei).
  destruct (init_spec (fresh c (children (env w) c) (effective u) w) w first Hch)
    as (s1 & w1 & Ei' & _ & _ & _ & _ & _ & _ & _ & _ & _ & Hls & Hπ).
  rewrite Ei in Ei'. injection Ei' as <- <-.
  assert (options s = effective u) as Ho by (apply (Hπ _ options); reflexivity).
  assert (container s = c) as Hcs by (apply (Hπ _ container); reflexivity).
  specialize (Hls Hl). cbn [options container fresh] in Hls.
  split; [exact Ho|]. split; [rewrite Hcs; exact Hls|].
  intros Hscroll. rewrite Hls. unfold effective.
  rewrite bool_decide_eq_true_2 by exact Hscroll. reflexivity.
Qed.

(** X2. A slider just built stands at the upper edge of its loop range:
    the widths are measured from the first slide and the gap, [baseX] is
    [-totalWidth], nothing is dragged. *)
Theorem slider_starts_at_loop_edge selector u (w w' : World Cb) s :
  constructor id selector u w = (Normal (Ready s), w') →
  ∃ c first,
    containerOf (env w) selector = Some c
    ∧ head (children (env w) c) = Some first
    ∧ container s = c ∧ slides s = children (env w) c
    ∧ slideWidth s = offsetWidth (env w) first + gapOf s (env w)
    ∧ totalWidth s = slideWidth s * inject_Z (Z.of_nat (length (slides s)))
    ∧ baseX s = - totalWidth s ∧ dragX s = 0
    ∧ isDragging s = false ∧ velocity s = 0
    ∧ (0 <= totalWidth s → inLoopRange s).
Proof. apply constructor_start. Qed.

(** X3. On a page with no listener yet, a slider registers the resize
    listener of the window and, when it can be dragged, the six pointer
    listeners, in this order; under the scroll effect it registers the
    resize listener only, whatever [draggable] was given. *)
Theorem slider_listeners selector u (w w' : World Cb) s :
  constructor id selector u w = (Normal (Ready s), w') →
  listeners w = [] →
  options s = effective u
  ∧ listeners w'
    = (if draggable (effective u) then dragListeners (container s) else [])
      ++ [resizeListener]
  ∧ (effect (merge u) = "scroll"%string → listeners w' = [resizeListener]).
Proof. apply constructor_listeners. Qed.

End LoopSliderConstructor.

Module LoopSliderLoop.
Import Js JsFacts Dom Browser BrowserWp MethodFacts WpFacts LoopFacts LoopSlider
  LoopSliderSpec LoopSliderSpec2 LoopSliderSpec3 LoopSliderFacts LoopSliderFrame
  LoopSliderSchedule LoopSliderDestroy LoopSliderInit3 LoopSliderConstructor
  DomSpec DomFacts2.
Local Open Scope Q_scope.

Section Loop.
Variable Math_pow : Q → Q → Q.

Lemma frameMotion_keeps t :
  keeps (λ st : State, (frames st.2, next_frame st.2, wrapper st.1, isDragging st.1))
    (frameMotion Math_pow t).
Proof.
  unfold frameMotion, scrollFollow. keeps_auto.
  all: unfold autoScroll, inertiaStep; cbn [fst snd];
    repeat match goal with
           | |- context [if ?b then _ else _] => destruct b
           end; reflexivity.
Qed.

(** A frame of a slider whose wrapper exists completes and requests the
    next frame. *)
Lemma updatePosition_requests t (s : Slider) (w : World Cb) :
  is_Some (wrapper s) →
  ∃ s' w', updatePosition id Math_pow t (s, w) = (Normal tt, (s', w'))
    ∧ frames w' = frames w ++ [(S (next_frame w), UpdatePosition)]
    ∧ animation s' = Some (S (next_frame w))
    ∧ wrapper s' = wrapper s ∧ isDragging s' = isDragging s.
Proof.
  intros [wr Hwr]. destruct (falsy_opt (lastFrameTime s)) eqn:Hfirst.
  - unfold updatePosition. rewrite bind_world, bind_this. cbn [fst snd].
    rewrite Hfirst, bind_assign, bind_call. cbn.
    eexists _, _. repeat split.
  - rewrite (updatePosition_later id Math_pow t s w Hfirst).
    pose proof (frameMotion_keeps (frameTime t w) (s, w)) as Hk.
    destruct (frameMotion _ _ _) as [r [s1 w1]]. cbn [fst snd] in *.
    injection Hk as Hf Hn Hw Hd.
    unfold frameRender. rewrite bind_assign, bind_this. cbn [fst snd].
    rewrite loopCorrection_wrapper, Hw, Hwr. cbn [deref].
    rewrite bind_ret, bind_effect, bind_call. cbn.
    eexists _, _. split; [reflexivity|]. cbn. rewrite Hf, Hn.
    repeat split.
    + rewrite loopCorrection_wrapper, Hw, Hwr. reflexivity.
    + rewrite <- Hd. unfold loopCorrection.
      destruct (ltb _ _); [reflexivity|]. destruct (gtb _ _); reflexivity.
Qed.

(** The callbacks other than the frame leave the pending frames and the
    wrapper alone. *)
Lemma other_keeps cb a :
  cb ≠ UpdatePosition →
  keeps (λ st : State, (frames st.2, wrapper st.1)) (invoke id Math_pow cb a).
Proof.
  intros Hcb. destruct cb, a; cbn [invoke]; try contradiction;
    unfold resizeTimer, updateDimensions, getGap, handleResize, onPointerDown,
      onPointerMove, onPointerUp, pointerX, setCursor;
    keeps_auto.
Qed.

Lemma run_other_keeps cb a (st : State) :
  cb ≠ UpdatePosition →
  frames (run (invoke id Math_pow) cb a st).2.2 = frames st.2
  ∧ wrapper (run (invoke id Math_pow) cb a st).2.1 = wrapper st.1.
Proof.
  intros Hcb.
  pose proof (run_keeps (invoke id Math_pow)
                (λ st : State, (frames st.2, wrapper st.1)) cb a
                ltac:(reflexivity) ltac:(reflexivity) (other_keeps cb a Hcb) st) as Hk.
  cbn beta in Hk. injection Hk as Hf Hw. split; assumption.
Qed.

Lemma running_frame f t (s : Slider) (w : World Cb) :
  running (s, w) → f ∈ frames w →
  running (run (invoke id Math_pow) f.2 (Timestamp t) (s, cancelAnimationFrame f.1 w)).2.
Proof.
  intros (Hlive & Hne & Hwr) Hin. split; [apply live_frame; assumption|].
  destruct Hlive as (Hf & _). cbn [fst snd] in *.
  destruct Hf as [Hf|(i & Hf & Ha & Hi)]; [contradiction|].
  rewrite Hf in Hin. apply list_elem_of_singleton in Hin. subst f. cbn [fst snd].
  unfold run. cbn [fst snd invoke].
  match goal with |- context [updatePosition id Math_pow t (s, ?w0)] =>
    destruct (updatePosition_requests t s w0 Hwr) as (s' & w' & -> & Hf' & _ & Hw' & _)
  end.
  cbn [fst snd]. split.
  - rewrite Hf'. intros Hnil. apply app_eq_nil in Hnil as [_ [=]].
  - rewrite Hw'. exact Hwr.
Qed.

Lemma running_timer tm (s : Slider) (w : World Cb) :
  running (s, w) → tm ∈ timers w →
  running (run (invoke id Math_pow) tm.2.2 NoArg (s, clearTimeout tm.1 w)).2.
Proof.
  intros (Hlive & Hne & Hwr) Hin. split; [apply live_timer; assumption|].
  destruct Hlive as (_ & Ht & _). cbn [fst snd] in *.
  destruct Ht as [Ht|(i & due & Ht & _)]; [rewrite Ht in Hin; inversion Hin|].
  rewrite Ht in Hin. apply list_elem_of_singleton in Hin. subst tm. cbn [fst snd].
  destruct (run_other_keeps ResizeTimer NoArg (s, clearTimeout i w) ltac:(discriminate))
    as [-> ->].
  split; assumption.
Qed.

Lemma own_not_frame c l : l ∈ ownListeners c → l_cb l ≠ UpdatePosition.
Proof.
  unfold ownListeners. intros Hin.
  repeat (apply elem_of_cons in Hin as [->|Hin]; [discriminate|]).
  inversion Hin.
Qed.

Lemma running_listener l e (s : Slider) (w : World Cb) :
  running (s, w) → l ∈ listeners w →
  running (run (invoke id Math_pow) (l_cb l) (EventArg e) (s, w)).2.
Proof.
  intros (Hlive & Hne & Hwr) Hin. split; [apply live_listener; assumption|].
  destruct Hlive as (_ & _ & Hl). cbn [fst snd] in *.
  destruct (run_other_keeps (l_cb l) (EventArg e) (s, w)
              (own_not_frame _ _ (Hl l Hin))) as [-> ->].
  split; assumption.
Qed.

(** The loop goes on after every event. *)
Lemma steps_running evs : maintains running (steps Math_pow evs).
Proof.
  apply steps_pending.
  - apply running_frame.
  - apply running_timer.
  - apply running_listener.
  - intros v s w H. exact H.
  - intros v s w H. exact H.
  - intros v s w H. exact H.
Qed.

Lemma constructor_running selector u (w w' : World Cb) s :
  frames w = [] → timers w = [] → listeners w = [] →
  constructor id selector u w = (Normal (Ready s), w') →
  running (s, w').
Proof.
  intros Hf Ht Hl E. split; [exact (constructor_live _ _ _ _ _ Hf Ht Hl E)|].
  destruct (constructor_ready _ _ _ _ _ E) as (c & first & Hc & Hch & Ei).
  destruct (init_spec (fresh c (children (env w) c) (effective u) w) w first Hch)
    as (s1 & w1 & Ei' & Hwr & _ & _ & _ & _ & _ & Hfr & _).
  rewrite Ei in Ei'. injection Ei' as <- <-. cbn [fst snd]. split.
  - rewrite Hfr. intros Hnil. apply app_eq_nil in Hnil as [_ [=]].
  - rewrite Hwr. eexists. reflexivity.
Qed.

(** X4. From its construction on, whatever events arrive, a slider has
    exactly one animation frame pending, the one [animation] names, and at
    most one timeout: the loop neither stops nor doubles. *)
Theorem slider_loop_never_stops selector u (w w' : World Cb) s evs :
  frames w = [] → timers w = [] → listeners w = [] →
  constructor id selector u w = (Normal (Ready s), w') →
  let st := (steps Math_pow evs (s, w')).2 in
  (∃ i, frames st.2 = [(i, UpdatePosition)] ∧ animation st.1 = Some i)
  ∧ (length (timers st.2) ≤ 1)%nat.
Proof.
  intros Hf Ht Hl E st.
  pose proof (steps_running evs _ (constructor_running _ _ _ _ _ Hf Ht Hl E))
    as ((Hfr & Htm & _) & Hne & _).
  fold st in Hfr, Htm, Hne. split.
  - destruct Hfr as [Hfr|(i & Hfr & Ha & _)]; [contradiction|].
    exists i. split; assumption.
  - destruct Htm as [->|(i & due & -> & _)]; cbn; lia.
Qed.

End Loop.
End LoopSliderLoop.

Module LoopSliderScroll.
Import Js JsFacts Dom Browser BrowserWp MethodFacts WpFacts LoopFacts LoopSlider
  LoopSliderSpec LoopSliderSpec2 LoopSliderSpec3 LoopSliderFacts LoopSliderFrame
  LoopSliderSchedule LoopSliderDestroy LoopSliderInit3 LoopSliderConstructor
  DomSpec DomFacts2.
Local Open Scope Q_scope.

Section Scroll.
Variable Math_pow : Q → Q → Q.

Local Abbreviation still :=
  (λ st : State, (listeners st.2, isDragging st.1, dragX st.1, velocity st.1)).

(** With nothing dragged and no velocity left, the inertia step does
    nothing. *)
Lemma inertiaStep_rest dt (s : Slider) :
  isDragging s = false → dragX s = 0 → velocity s = 0 →
  inertiaStep Math_pow dt s = s.
Proof.
  intros Hd Hx Hv. unfold inertiaStep. rewrite Hd, Hx, Hv. reflexivity.
Qed.

Lemma updatePosition_still t (s : Slider) (w : World Cb) :
  isDragging s = false → dragX s = 0 → velocity s = 0 →
  still (updatePosition id Math_pow t (s, w)).2 = (listeners w, false, 0, 0).
Proof.
  intros Hd Hx Hv. cbn beta.
  pose proof (updatePosition_rest Math_pow t (s, w)) as Hrest.
  cbn [fst snd] in Hrest. injection Hrest as _ _ _ Hl. rewrite Hl.
  destruct (falsy_opt (lastFrameTime s)) eqn:Hfirst.
  - unfold updatePosition. rewrite bind_world, bind_this. cbn [fst snd].
    rewrite Hfirst, bind_assign, bind_call. cbn. rewrite Hd, Hx, Hv. reflexivity.
  - rewrite (updatePosition_later id Math_pow t s w Hfirst).
    assert (∃ s1 w1, (frameMotion Math_pow (frameTime t w) (s, w)).2 = (s1, w1)
                     ∧ isDragging s1 = false ∧ dragX s1 = 0 ∧ velocity s1 = 0)
      as (s1 & w1 & -> & Hd1 & Hx1 & Hv1).
    { unfold frameMotion, scrollFollow, bind, assign, modify, this, world, ret.
      cbn [fst snd].
      destruct (isScroll _); cbn [fst snd]; eexists _, _; (split; [reflexivity|]);
        rewrite inertiaStep_rest; unfold autoScroll; cbn; rewrite ?Hd; cbn;
        repeat split; assumption. }
    destruct (frameRender_slider id s1 w1) as [a Ha].
    rewrite Ha. cbn [isDragging dragX velocity set_animation].
    rewrite loopCorrection_dragX, Hx1.
    assert (isDragging (loopCorrection s1) = isDragging s1
            ∧ velocity (loopCorrection s1) = velocity s1) as [-> ->].
    { unfold loopCorrection. destruct (ltb _ _); [split; reflexivity|].
      destruct (gtb _ _); split; reflexivity. }
    rewrite Hd1, Hv1. reflexivity.
Qed.

Lemma run_result cb a (st : State) :
  let r := invoke id Math_pow cb a (st.1, set_calls (calls st.2 ++ [cb]) st.2) in
  (run (invoke id Math_pow) cb a st).2.1 = r.2.1
  ∧ listeners (run (invoke id Math_pow) cb a st).2.2 = listeners r.2.2.
Proof.
  cbv zeta. unfold run.
  destruct (invoke id Math_pow cb a _) as [[[]|e] st']; split; reflexivity.
Qed.

Lemma resize_keeps_still cb a :
  cb = ResizeTimer ∨ cb = HandleResize →
  keeps still (invoke id Math_pow cb a).
Proof.
  intros [->| ->]; destruct a; cbn [invoke];
    unfold resizeTimer, updateDimensions, getGap, handleResize; keeps_auto.
Qed.

Lemma run_resize_still cb a (st : State) :
  cb = ResizeTimer ∨ cb = HandleResize →
  still (run (invoke id Math_pow) cb a st).2 = still st.
Proof.
  intros Hcb. destruct (run_result cb a st) as [Hs Hl]. cbn beta.
  rewrite Hs, Hl.
  exact (resize_keeps_still cb a Hcb (st.1, set_calls (calls st.2 ++ [cb]) st.2)).
Qed.

Lemma undraggable_still (st st' : State) :
  live st' → undraggable st → still st' = still st → undraggable st'.
Proof.
  intros Hlive (_ & Hl & Hd & Hx & Hv) Hstill. cbn beta in Hstill.
  injection Hstill as H1 H2 H3 H4.
  split; [exact Hlive|]. rewrite H1, H2, H3, H4. repeat split; assumption.
Qed.

Lemma undraggable_frame f t (s : Slider) (w : World Cb) :
  undraggable (s, w) → f ∈ frames w →
  undraggable
    (run (invoke id Math_pow) f.2 (Timestamp t) (s, cancelAnimationFrame f.1 w)).2.
Proof.
  intros Hun Hin. pose proof Hun as (Hlive & Hl & Hd & Hx & Hv).
  apply (undraggable_still (s, w)); [apply live_frame; assumption|exact Hun|].
  destruct Hlive as (Hf & _). cbn [fst snd] in *.
  destruct Hf as [Hf|(i & Hf & _)]; [rewrite Hf in Hin; inversion Hin|].
  rewrite Hf in Hin. apply list_elem_of_singleton in Hin. subst f. cbn [fst snd].
  destruct (run_result UpdatePosition (Timestamp t) (s, cancelAnimationFrame i w))
    as [Hs' Hl'].
  rewrite Hs', Hl', Hd, Hx, Hv.
  exact (updatePosition_still t s
           (set_calls (calls (cancelAnimationFrame i w) ++ [UpdatePosition])
              (cancelAnimationFrame i w)) Hd Hx Hv).
Qed.

Lemma undraggable_timer tm (s : Slider) (w : World Cb) :
  undraggable (s, w) → tm ∈ timers w →
  undraggable (run (invoke id Math_pow) tm.2.2 NoArg (s, clearTimeout tm.1 w)).2.
Proof.
  intros Hun Hin. pose proof Hun as (Hlive & _).
  apply (undraggable_still (s, w)); [apply live_timer; assumption|exact Hun|].
  destruct Hlive as (_ & Ht & _). cbn [fst snd] in *.
  destruct Ht as [Ht|(i & due & Ht & _)]; [rewrite Ht in Hin; inversion Hin|].
  rewrite Ht in Hin. apply list_elem_of_singleton in Hin. subst tm. cbn [fst snd].
  exact (run_resize_still ResizeTimer NoArg (s, clearTimeout i w)
           ltac:(left; reflexivity)).
Qed.

Lemma undraggable_listener l e (s : Slider) (w : World Cb) :
  undraggable (s, w) → l ∈ listeners w →
  undraggable (run (invoke id Math_pow) (l_cb l) (EventArg e) (s, w)).2.
Proof.
  intros Hun Hin. pose proof Hun as (Hlive & Hl & _).
  apply (undraggable_still (s, w)); [apply live_listener; assumption|exact Hun|].
  cbn [fst snd] in *. rewrite Hl in Hin. apply list_elem_of_singleton in Hin. subst l.
  exact (run_resize_still HandleResize (EventArg e) (s, w) ltac:(right; reflexivity)).
Qed.

Lemma steps_undraggable evs : maintains undraggable (steps Math_pow evs).
Proof.
  apply steps_pending.
  - apply undraggable_frame.
  - apply undraggable_timer.
  - apply undraggable_listener.
  - intros v s w H. exact H.
  - intros v s w H. exact H.
  - intros v s w H. exact H.
Qed.

(** X5. Under the scroll effect a slider cannot be dragged: whatever
    events arrive (pointer events on the container and the document
    included) and whatever [draggable] was given, no pointer handler is
    registered, [isDragging] stays false and the drag offset stays zero, so
    the position is [baseX]. *)
Theorem scroll_slider_is_never_dragged selector u (w w' : World Cb) s evs :
  frames w = [] → timers w = [] → listeners w = [] →
  effect (merge u) = "scroll"%string →
  constructor id selector u w = (Normal (Ready s), w') →
  let st := (steps Math_pow evs (s, w')).2 in
  listeners st.2 = [resizeListener]
  ∧ isDragging st.1 = false ∧ dragX st.1 = 0
  ∧ position st.1 == baseX st.1.
Proof.
  intros Hf Ht Hl Hscroll E st.
  assert (undraggable (s, w')) as Hinit.
  { split; [exact (constructor_live _ _ _ _ _ Hf Ht Hl E)|].
    destruct (constructor_listeners _ _ _ _ _ E Hl) as (_ & _ & Hls).
    destruct (constructor_start _ _ _ _ _ E)
      as (c & first & _ & _ & _ & _ & _ & _ & _ & Hx & Hd & Hv & _).
    cbn [fst snd]. repeat split; auto. }
  pose proof (steps_undraggable evs _ Hinit) as (_ & Hl' & Hd' & Hx' & _).
  fold st in Hl', Hd', Hx'.
  split; [exact Hl'|]. split; [exact Hd'|]. split; [exact Hx'|].
  unfold position. rewrite Hx'. ring.
Qed.

End Scroll.
End LoopSliderScroll.

Module LoopSliderRelayout.
Import Js JsFacts Dom Browser BrowserWp MethodFacts WpFacts LoopFacts LoopSlider
  LoopSliderSpec LoopSliderSpec2 LoopSliderSpec3 LoopSliderFacts LoopSliderFrame
  LoopSliderSchedule LoopSliderDestroy LoopSliderInit LoopSliderInit3 LoopSliderConstructor
  LoopSliderScroll
  DomSpec DomFacts2.
Local Open Scope Q_scope.

Section Relayout.
Variable Math_pow : Q → Q → Q.

(** Time passes until the one pending recomputation is due: the browser
    takes it off the list and runs it. *)
Lemma tick_runs_recomputation d i due (st : State) :
  timers st.2 = [(i, (due, ResizeTimer))] → due <= now st.2 + d →
  (step Math_pow (Tick d) st).2
  = (run (invoke id Math_pow) ResizeTimer NoArg
       (st.1, clearTimeout i (set_now (now st.2 + d) st.2))).2.
Proof.
  intros Ht Hd. unfold step. cbn [Browser.step]. unfold tick.
  rewrite bind_effect, bind_world. cbn [fst snd timers set_now].
  rewrite Ht. cbn [length runTimers]. rewrite bind_world.
  cbn [snd timers set_now now]. rewrite Ht. cbn [earliest fst snd].
  apply Qle_bool_iff in Hd. rewrite Hd.
  rewrite bind_effect. cbn [fst snd].
  rewrite bind_ret_tt. reflexivity.
Qed.

Lemma step_relayout v (st : State) :
  (step Math_pow (Relayout v) st).2 = (st.1, set_env v st.2).
Proof. reflexivity. Qed.

(** A resize event on a scheduled slider: the browser runs the one
    resize handler. *)
Lemma step_resize_runs (st : State) :
  scheduled st →
  (step Math_pow resizeEvent st).2
  = (run (invoke id Math_pow) HandleResize (EventArg (mkPointerEvent "resize" 0 None)) st).2.
Proof.
  intros [_ Hl].
  unfold step, resizeEvent. cbn [Browser.step]. unfold dispatch.
  rewrite bind_world. cbn [snd]. rewrite Hl. cbn [forEach].
  rewrite bind_ret_tt, bind_world. cbn [snd].
  rewrite bool_decide_eq_true_2; [reflexivity|].
  apply (list_elem_of_filter (λ l : Listener Cb,
           l_target l = Window ∧ l_type l = "resize"%string) (listeners st.2)).
  rewrite Hl. apply list_elem_of_singleton. reflexivity.
Qed.

Lemma handleResize_keeps :
  keeps (λ st : State, (slides st.1, options st.1, wrapper st.1, baseX st.1, env st.2))
    (handleResize id).
Proof. unfold handleResize. keeps_auto. Qed.


End Relayout.
End LoopSliderRelayout.

Module LoopFacts2.
Import Dom Browser MethodFacts LoopFacts.

Section Loop.
Context {Cb T P : Type} `{EqDecision Cb}.
Variable invoke : Cb → Arg P → Method (Cb := Cb) (T := T) unit.
Local Abbreviation St := (T * World Cb)%type.

(** One event: an invariant is kept when the callbacks that this event can
    reach keep it. *)
Section Event.
Variable I : St → Prop.
Variable ev : Event P.
Hypothesis I_frame : ∀ f t s w,
  I (s, w) → f ∈ frames w →
  I (run invoke f.2 (Timestamp t) (s, cancelAnimationFrame f.1 w)).2.
Hypothesis I_timer : ∀ tm s w,
  I (s, w) → tm ∈ timers w →
  I (run invoke tm.2.2 NoArg (s, clearTimeout tm.1 w)).2.
Hypothesis I_listener : ∀ target type e l s w,
  ev = Dispatch target type e →
  I (s, w) → l ∈ listeners w → l_target l = target → l_type l = type →
  I (run invoke (l_cb l) (EventArg e) (s, w)).2.
Hypothesis I_now : ∀ v s w, I (s, w) → I (s, set_now v w).
Hypothesis I_scroll : ∀ v s w, I (s, w) → I (s, set_scrollY v w).
Hypothesis I_env : ∀ v s w, I (s, w) → I (s, set_env v w).

Lemma runTimers_reached fuel : maintains I (runTimers invoke fuel).
Proof using I_timer.
  induction fuel as [|fuel IH]; cbn [runTimers]; [apply maintains_ret|].
  intros [s w] Hs. rewrite bind_world. cbn [snd].
  destruct (earliest _ _) as [t|] eqn:E; [|exact Hs].
  apply earliest_elem in E. rewrite bind_effect. cbn [fst snd].
  rewrite (bind_total (run invoke t.2.2 NoArg) (λ _, runTimers invoke fuel) _
             (run_total _ _ _)).
  apply IH, I_timer; assumption.
Qed.

Lemma step_reached : maintains I (step invoke ev).
Proof using All.
  destruct ev as [d|y|v|t|target type e] eqn:Eev; cbn [step].
  - unfold tick. intros [s w] Hs. rewrite bind_effect, bind_world.
    apply runTimers_reached. apply I_now, Hs.
  - intros [s w] Hs. apply I_scroll, Hs.
  - intros [s w] Hs. apply I_env, Hs.
  - unfold runFrame. intros st Hs. rewrite bind_world. revert Hs.
    apply maintains_forEach. intros f [s w] Hs'. rewrite bind_world. cbn [snd].
    case_bool_decide as Hin; [|exact Hs'].
    rewrite bind_effect. apply I_frame; assumption.
  - unfold dispatch. intros st Hs. rewrite bind_world.
    set (ls := filter _ _).
    assert (∀ l, l ∈ ls → l_target l = target ∧ l_type l = type) as Hls
      by (intros l Hl; apply list_elem_of_filter in Hl as [Hl _]; exact Hl).
    clearbody ls. revert st Hs.
    induction ls as [|l ls IH]; intros st Hs; cbn [forEach]; [exact Hs|].
    assert (l_target l = target ∧ l_type l = type) as [Htg Hty]
      by (apply Hls, elem_of_cons; left; reflexivity).
    assert (I (bind world (λ w', if bool_decide (l ∈ listeners w')
                                 then run invoke (l_cb l) (EventArg e)
                                 else ret tt) st).2) as Hs1.
    { destruct st as [s w]. rewrite bind_world. cbn [snd].
      case_bool_decide as Hin; [|exact Hs].
      apply (I_listener target type e); auto. }
    assert ((bind world (λ w', if bool_decide (l ∈ listeners w')
                               then run invoke (l_cb l) (EventArg e)
                               else ret tt) st).1 = Normal tt) as Hn.
    { destruct st as [s w]. rewrite bind_world. cbn [snd].
      case_bool_decide; [apply run_total|reflexivity]. }
    destruct (bind world _ st) as [r st1] eqn:E1. cbn [fst snd] in *. subst r.
    rewrite (bind_normal _ _ _ _ _ E1).
    apply IH; [|exact Hs1].
    intros l' Hl'. apply Hls, elem_of_cons. right. exact Hl'.
Qed.

End Event.

(** An event for which one listener is registered: the browser runs that
    listener. *)
Lemma dispatch_single target type e l (st : St) :
  filter (λ l, l_target l = target ∧ l_type l = type) (listeners st.2) = [l] →
  (step invoke (Dispatch target type e) st).2
  = (run invoke (l_cb l) (EventArg e) st).2.
Proof.
  intros Hl. cbn [step]. unfold dispatch.
  rewrite bind_world. cbn [snd]. rewrite Hl. cbn [forEach].
  rewrite bind_ret_tt, bind_world. cbn [snd].
  rewrite bool_decide_eq_true_2; [reflexivity|].
  apply (list_elem_of_filter (λ l, l_target l = target ∧ l_type l = type)
           (listeners st.2)).
  rewrite Hl. apply list_elem_of_singleton. reflexivity.
Qed.

(** An event for which no listener is registered changes nothing. *)
Lemma dispatch_none target type e (st : St) :
  filter (λ l, l_target l = target ∧ l_type l = type) (listeners st.2) = [] →
  step invoke (Dispatch target type e) st = (Normal tt, st).
Proof.
  intros Hl. cbn [step]. unfold dispatch.
  rewrite bind_world. cbn [snd]. rewrite Hl. reflexivity.
Qed.

End Loop.
End LoopFacts2.

Module LoopSliderDragFacts.
Import Js JsFacts Dom Browser BrowserWp MethodFacts WpFacts LoopFacts LoopFacts2 LoopSlider
  LoopSliderSpec LoopSliderSpec2 LoopSliderSpec3 LoopSliderDrag LoopSliderFacts
  LoopSliderFrame LoopSliderSchedule LoopSliderDestroy LoopSliderInit3
  LoopSliderConstructor LoopSliderScroll
  DomSpec DomFacts2.
Local Open Scope Q_scope.

Section Drag.
Variable Math_pow : Q → Q → Q.

Local Abbreviation held :=
  (λ st : State,
     (listeners st.2, isDragging st.1, startX st.1, startDragX st.1, dragX st.1)).

(** While the button is held a frame moves nothing but [baseX]. *)
Lemma updatePosition_held t (s : Slider) (w : World Cb) :
  isDragging s = true →
  held (updatePosition id Math_pow t (s, w)).2 = held (s, w).
Proof.
  intros Hd. cbn beta. cbn [fst snd].
  pose proof (updatePosition_rest Math_pow t (s, w)) as Hrest.
  cbn [fst snd] in Hrest. injection Hrest as _ _ _ Hl. rewrite Hl.
  destruct (falsy_opt (lastFrameTime s)) eqn:Hfirst.
  - unfold updatePosition. rewrite bind_world, bind_this. cbn [fst snd].
    rewrite Hfirst, bind_assign, bind_call. reflexivity.
  - rewrite (updatePosition_later id Math_pow t s w Hfirst).
    assert (∃ s1 w1, (frameMotion Math_pow (frameTime t w) (s, w)).2 = (s1, w1)
                     ∧ isDragging s1 = isDragging s ∧ startX s1 = startX s
                     ∧ startDragX s1 = startDragX s ∧ dragX s1 = dragX s)
      as (s1 & w1 & -> & Hd1 & Hx1 & Hs1 & Hg1).
    { unfold frameMotion, scrollFollow, bind, assign, modify, this, world, ret.
      cbn [fst snd].
      destruct (isScroll _); cbn [fst snd]; eexists _, _; (split; [reflexivity|]);
        unfold inertiaStep, autoScroll; cbn; rewrite ?Hd; cbn; rewrite ?Hd; cbn;
        repeat split; exact Hd. }
    destruct (frameRender_slider id s1 w1) as [a Ha].
    rewrite Ha. cbn [isDragging dragX startX startDragX set_animation].
    rewrite loopCorrection_dragX, Hg1.
    assert (isDragging (loopCorrection s1) = isDragging s1
            ∧ startX (loopCorrection s1) = startX s1
            ∧ startDragX (loopCorrection s1) = startDragX s1) as (-> & -> & ->).
    { unfold loopCorrection. destruct (ltb _ _); [repeat split|].
      destruct (gtb _ _); repeat split. }
    rewrite Hd1, Hx1, Hs1. reflexivity.
Qed.

Lemma resize_keeps_held cb a :
  cb = ResizeTimer ∨ cb = HandleResize →
  keeps held (invoke id Math_pow cb a).
Proof.
  intros [->| ->]; destruct a; cbn [invoke];
    unfold resizeTimer, updateDimensions, getGap, handleResize; keeps_auto.
Qed.

Lemma dragging_held c x0 d0 x (st st' : State) :
  live st' → dragging c x0 d0 x st → held st' = held st → dragging c x0 d0 x st'.
Proof.
  intros Hlive (_ & Hl & Hd & Hx & Hs & Hg) Hheld. cbn beta in Hheld.
  injection Hheld as H1 H2 H3 H4 H5.
  split; [exact Hlive|]. rewrite H1, H2, H3, H4, H5. repeat split; assumption.
Qed.

Lemma dragging_frame c x0 d0 x f t (s : Slider) (w : World Cb) :
  dragging c x0 d0 x (s, w) → f ∈ frames w →
  dragging c x0 d0 x
    (run (invoke id Math_pow) f.2 (Timestamp t) (s, cancelAnimationFrame f.1 w)).2.
Proof.
  intros Hun Hin. pose proof Hun as (Hlive & Hl & Hd & _).
  apply (dragging_held c x0 d0 x (s, w)); [apply live_frame; assumption|exact Hun|].
  destruct Hlive as (Hf & _). cbn [fst snd] in *.
  destruct Hf as [Hf|(i & Hf & _)]; [rewrite Hf in Hin; inversion Hin|].
  rewrite Hf in Hin. apply list_elem_of_singleton in Hin. subst f. cbn [fst snd].
  destruct (run_result Math_pow UpdatePosition (Timestamp t) (s, cancelAnimationFrame i w))
    as [Hs' Hl'].
  rewrite Hs', Hl'.
  exact (updatePosition_held t s
           (set_calls (calls (cancelAnimationFrame i w) ++ [UpdatePosition])
              (cancelAnimationFrame i w)) Hd).
Qed.

Lemma dragging_timer c x0 d0 x tm (s : Slider) (w : World Cb) :
  dragging c x0 d0 x (s, w) → tm ∈ timers w →
  dragging c x0 d0 x
    (run (invoke id Math_pow) tm.2.2 NoArg (s, clearTimeout tm.1 w)).2.
Proof.
  intros Hun Hin. pose proof Hun as (Hlive & _).
  apply (dragging_held c x0 d0 x (s, w)); [apply live_timer; assumption|exact Hun|].
  destruct Hlive as (_ & Ht & _). cbn [fst snd] in *.
  destruct Ht as [Ht|(i & due & Ht & _)]; [rewrite Ht in Hin; inversion Hin|].
  rewrite Ht in Hin. apply list_elem_of_singleton in Hin. subst tm. cbn [fst snd].
  destruct (run_result Math_pow ResizeTimer NoArg (s, clearTimeout i w)) as [Hs' Hl'].
  rewrite Hs', Hl'.
  exact (resize_keeps_held ResizeTimer NoArg ltac:(left; reflexivity)
           (s, set_calls (calls (clearTimeout i w) ++ [ResizeTimer]) (clearTimeout i w))).
Qed.

Ltac pick_listeners :=
  unfold dragListeners, resizeListener; cbn [app];
  repeat first [rewrite filter_cons_True by (split; reflexivity)
               |rewrite filter_cons_False by (intros [? ?]; discriminate)];
  rewrite filter_nil.

Lemma onPointerDown_mouse e (s : Slider) (w : World Cb) :
  e_touches e = None →
  ∃ s' w', onPointerDown e (s, w) = (Normal tt, (s', w'))
    ∧ listeners w' = listeners w
    ∧ isDragging s' = true ∧ startX s' = e_clientX e
    ∧ startDragX s' = dragX s ∧ dragX s' = dragX s.
Proof.
  intros He. unfold onPointerDown, pointerX, setCursor. rewrite He.
  rewrite bind_assign, bind_ret, bind_assign, bind_this, !bind_assign, bind_world,
    bind_assign, bind_this.
  cbn [fst snd]. eexists _, _. split; [reflexivity|]. repeat split.
Qed.

Lemma onPointerMove_mouse e (s : Slider) (w : World Cb) :
  e_touches e = None → isDragging s = true →
  ∃ s', onPointerMove e (s, w) = (Normal tt, (s', w))
    ∧ isDragging s' = true ∧ startX s' = startX s
    ∧ startDragX s' = startDragX s
    ∧ dragX s' = startDragX s + (e_clientX e - startX s).
Proof.
  intros He Hd. unfold onPointerMove, pointerX. rewrite He.
  rewrite bind_this. cbn [fst snd]. rewrite Hd. cbn [negb].
  rewrite bind_ret, bind_assign, bind_this, bind_assign, bind_world, bind_this.
  cbn [fst snd]. cbv zeta.
  match goal with |- context [gtb ?a 0] => destruct (gtb a 0) end.
  - rewrite !bind_assign. cbn [fst snd]. unfold assign, modify. cbn [fst snd].
    eexists. split; [reflexivity|]. cbn. rewrite Hd. repeat split.
  - rewrite bind_ret, bind_assign. cbn [fst snd]. unfold assign, modify. cbn [fst snd].
    eexists. split; [reflexivity|]. cbn. rewrite Hd. repeat split.
Qed.

Lemma onPointerUp_held (s : Slider) (w : World Cb) :
  isDragging s = true →
  ∃ s' w', onPointerUp (s, w) = (Normal tt, (s', w'))
    ∧ isDragging s' = false ∧ dragX s' = dragX s ∧ baseX s' = baseX s.
Proof.
  intros Hd. unfold onPointerUp, setCursor.
  rewrite bind_this. cbn [fst snd]. rewrite Hd. cbn [negb].
  rewrite bind_assign, bind_this. cbn [fst snd].
  eexists _, _. split; [reflexivity|]. repeat split.
Qed.

Lemma run_normal cb a (st st' : State) :
  invoke id Math_pow cb a (st.1, set_calls (calls st.2 ++ [cb]) st.2) = (Normal tt, st') →
  (run (invoke id Math_pow) cb a st).2 = st'.
Proof. intros E. unfold run. rewrite E. reflexivity. Qed.

(** The button goes down on the container. *)
Lemma press c x0 (st : State) :
  live st → listeners st.2 = dragListeners c ++ [resizeListener] →
  dragging c x0 (dragX st.1) x0 (step Math_pow (mouseDown c x0) st).2.
Proof.
  intros Hlive Hl. unfold step, mouseDown.
  rewrite (dispatch_single _ _ _ _ (mkListener (Node c) "mousedown" OnPointerDown false))
    by (rewrite Hl; pick_listeners; reflexivity).
  cbn [l_cb].
  assert (live (run (invoke id Math_pow) OnPointerDown
                  (EventArg (mkPointerEvent "mousedown" x0 None)) st).2) as Hlive'.
  { destruct st as [s w].
    apply (live_listener Math_pow
             (mkListener (Node c) "mousedown" OnPointerDown false)); [exact Hlive|].
    cbn [snd] in Hl. rewrite Hl. apply elem_of_app. left.
    apply elem_of_cons. left. reflexivity. }
  destruct (onPointerDown_mouse (mkPointerEvent "mousedown" x0 None) st.1
              (set_calls (calls st.2 ++ [OnPointerDown]) st.2) eq_refl)
    as (s' & w' & E & Hl' & Hd & Hx & Hs & Hg).
  rewrite (run_normal OnPointerDown (EventArg (mkPointerEvent "mousedown" x0 None))
             st _ E) in *.
  split; [exact Hlive'|]. cbn [fst snd]. rewrite Hl', Hd, Hx, Hs, Hg.
  repeat split; [exact Hl|]. cbn. ring.
Qed.

(** What may happen while the button is held keeps the drag going and
    the offset on the pointer. *)
Lemma held_step c x0 d0 x ev (st : State) :
  whileHeld ev → dragging c x0 d0 x st →
  dragging c x0 d0 (pointerAfter x ev) (step Math_pow ev st).2.
Proof.
  intros Hev Hdrag.
  destruct ev as [d|y|v|t|target type e] eqn:Eev.
  1-4: cbn [pointerAfter]; revert st Hdrag; unfold step;
    apply (step_reached (invoke id Math_pow) (dragging c x0 d0 x));
    [intros f t' s w; apply dragging_frame
    |intros tm s w; apply dragging_timer
    |intros ? ? ? ? ? ? [=]
    |intros ? s w H; exact H
    |intros ? s w H; exact H
    |intros ? s w H; exact H].
  destruct Hev as (-> & -> & He). cbn [pointerAfter].
  destruct Hdrag as (Hlive & Hl & Hd & Hx & Hs & Hg).
  unfold step.
  rewrite (dispatch_single _ _ _ _ (mkListener Document "mousemove" OnPointerMove false))
    by (rewrite Hl; pick_listeners; reflexivity).
  cbn [l_cb].
  assert (live (run (invoke id Math_pow) OnPointerMove (EventArg e) st).2) as Hlive'.
  { destruct st as [s w].
    apply (live_listener Math_pow
             (mkListener Document "mousemove" OnPointerMove false)); [exact Hlive|].
    cbn [snd] in Hl. rewrite Hl. apply elem_of_app. left.
    do 2 (apply elem_of_cons; right). apply elem_of_cons. left. reflexivity. }
  destruct (onPointerMove_mouse e st.1
              (set_calls (calls st.2 ++ [OnPointerMove]) st.2) He Hd)
    as (s' & E & Hd' & Hx' & Hs' & Hg').
  rewrite (run_normal OnPointerMove (EventArg e) st _ E) in *.
  split; [exact Hlive'|]. cbn [fst snd]. rewrite Hd', Hx', Hs', Hg', Hx, Hs.
  repeat split; try exact Hl; reflexivity.
Qed.

Lemma held_steps c x0 d0 evs : ∀ x (st : State),
  Forall whileHeld evs → dragging c x0 d0 x st →
  dragging c x0 d0 (foldl pointerAfter x evs) (steps Math_pow evs st).2.
Proof.
  induction evs as [|ev evs IH]; intros x st Hevs Hdrag; [exact Hdrag|].
  rewrite slider_steps_cons. cbn [foldl].
  apply Forall_cons in Hevs as [Hev Hevs].
  apply IH; [exact Hevs|]. apply held_step; assumption.
Qed.

(** The button comes up. *)
Lemma release c x0 d0 x xup (st : State) :
  dragging c x0 d0 x st →
  let st' := (step Math_pow (mouseUp xup) st).2 in
  isDragging st'.1 = false ∧ dragX st'.1 = dragX st.1 ∧ baseX st'.1 = baseX st.1.
Proof.
  intros (Hlive & Hl & Hd & _). cbv zeta. unfold step, mouseUp.
  rewrite (dispatch_single _ _ _ _ (mkListener Document "mouseup" OnPointerUp false))
    by (rewrite Hl; pick_listeners; reflexivity).
  cbn [l_cb].
  destruct (onPointerUp_held st.1 (set_calls (calls st.2 ++ [OnPointerUp]) st.2) Hd)
    as (s' & w' & E & Hd' & Hg' & Hb').
  rewrite (run_normal OnPointerUp (EventArg (mkPointerEvent "mouseup" xup None)) st _ E).
  repeat split; assumption.
Qed.

(** X7. A drag follows the pointer.  After the button has gone down at
    [x0], and whatever frames, timeouts, scrolling, layout changes and
    mouse moves have happened since, the slider is being dragged and its
    drag offset is the one it had when the button went down plus the
    distance from [x0] to where the pointer is now; when the button comes
    up the offset stays. *)
Theorem drag_follows_pointer c x0 xup evs (st : State) :
  live st →
  listeners st.2 = dragListeners c ++ [resizeListener] →
  Forall whileHeld evs →
  let st1 := (steps Math_pow (mouseDown c x0 :: evs) st).2 in
  let st2 := (step Math_pow (mouseUp xup) st1).2 in
  isDragging st1.1 = true
  ∧ dragX st1.1 == dragX st.1 + (foldl pointerAfter x0 evs - x0)
  ∧ isDragging st2.1 = false
  ∧ dragX st2.1 = dragX st1.1.
Proof.
  intros Hlive Hl Hevs st1 st2.
  pose proof (held_steps c x0 (dragX st.1) evs x0 _ Hevs (press c x0 st Hlive Hl))
    as Hdrag.
  rewrite <- slider_steps_cons in Hdrag. fold st1 in Hdrag.
  destruct (release c x0 _ _ xup st1 Hdrag) as (Hup & Hkeep & _).
  destruct Hdrag as (_ & _ & Hd & _ & _ & Hg).
  repeat split; assumption.
Qed.

End Drag.
End LoopSliderDragFacts.

Module LoopSliderMotion.
Import Js JsFacts Dom Browser MethodFacts LoopSlider LoopSliderFacts LoopSliderFrame
  DomSpec DomFacts2.
Local Open Scope Q_scope.

Section Motion.
Context {C : Type} `{EqDecision C} (Math_pow : Q → Q → Q).

(** The time step of a frame, capped at a tenth of a second. *)
Lemma frame_dt_capped (delta : Q) :
  0 <= delta →
  0 <= (if gtb delta (1 # 10) then 1 # 10 else delta)
  ∧ (if gtb delta (1 # 10) then 1 # 10 else delta) <= 1 # 10.
Proof.
  intros Hd. unfold gtb. destruct (ltb (1 # 10) delta) eqn:E.
  - split; lra.
  - apply ltb_ge in E. split; lra.
Qed.

(** The motion of a frame of a slider that does not follow the scroll. *)
Lemma frameMotion_plain t (s : Slider) (w : World C) :
  isScroll s = false →
  let delta := (t - default 0 (lastFrameTime s)) / 1000 in
  let dt := if gtb delta (1 # 10) then 1 # 10 else delta in
  frameMotion Math_pow t (s, w)
  = (Normal tt,
     (inertiaStep Math_pow dt (autoScroll dt 0 (set_lastFrameTime (Some t) s)), w)).
Proof.
  intros Hscroll delta dt. unfold frameMotion.
  rewrite bind_this. cbn [fst snd]. cbv zeta. fold delta. fold dt.
  rewrite bind_assign. cbn [fst snd].
  assert (scrollFollow (set_lastFrameTime (Some t) s, w)
          = (Normal 0, (set_lastFrameTime (Some t) s, w))) as Hsf.
  { unfold scrollFollow. rewrite bind_this. cbn [fst snd].
    change (isScroll (set_lastFrameTime (Some t) s)) with (isScroll s).
    rewrite Hscroll. reflexivity. }
  rewrite (bind_normal _ _ _ _ _ Hsf), bind_assign. reflexivity.
Qed.


End Motion.
End LoopSliderMotion.

Module MouseStalkerUpdate.
Import Js JsFacts Dom Browser BrowserWp MethodFacts WpFacts MouseStalker MouseStalkerSpec
  DomSpec DomFacts2.
Local Open Scope Q_scope.

(** One call of [update] on an enabled stalker: within [minSpeed] of the
    target it snaps onto it and stops; otherwise it closes the fraction
    [ease] of the distance and asks for the next frame. *)
Lemma update_step (s : Stalker) (w : World Cb) c :
  isEnabled s = true → container s = Some c →
  ∃ s' w', update id (s, w) = (Normal tt, (s', w'))
    ∧ isEnabled s' = true ∧ container s' = Some c ∧ config s' = config s
    ∧ targetX s' = targetX s ∧ targetY s' = targetY s
    ∧ timers w' = timers w ∧ listeners w' = listeners w
    ∧ (if near s
       then atRest s' ∧ frames w' = frames w
       else posX s' = posX s + (targetX s - posX s) * ease (config s)
            ∧ posY s' = posY s + (targetY s - posY s) * ease (config s)
            ∧ isMoving s' = isMoving s
            ∧ frames w' = frames w ++ [(S (next_frame w), Update)]
            ∧ rafId s' = Some (S (next_frame w))).
Proof.
  intros He Hc. unfold update. rewrite bind_this. cbn [fst snd].
  rewrite He. cbn [negb]. cbv zeta. fold (near s).
  destruct (near s).
  - rewrite !bind_assign, bind_this. cbn [fst snd].
    cbn [container set_posX set_posY]. rewrite Hc. cbn [deref].
    rewrite bind_ret, bind_effect. cbn [fst snd].
    eexists _, _. split; [reflexivity|]. cbn. repeat split; assumption.
  - rewrite !bind_assign, bind_this. cbn [fst snd].
    cbn [container set_posX set_posY]. rewrite Hc. cbn [deref].
    rewrite bind_ret, bind_effect, bind_call. cbn [fst snd].
    eexists _, _. split; [reflexivity|]. cbn. repeat split; assumption.
Qed.

Lemma updates_S n (st : State) :
  updates (S n) st = (update id (updates n st)).2.
Proof. reflexivity. Qed.

(** [1 - e] to the power [k] is at most [1 / (1 + k e)], one step at a
    time. *)
Lemma contraction (e : Q) (k : nat) :
  0 < e → e <= 1 →
  (1 - e) * (1 + inject_Z (Z.of_nat (S k)) * e) <= 1 + inject_Z (Z.of_nat k) * e.
Proof.
  intros H0 H1. rewrite Nat2Z.inj_succ. unfold Z.succ. rewrite inject_Z_plus.
  assert (0 <= inject_Z (Z.of_nat k)) as Hk
    by (change 0 with (inject_Z 0); rewrite <- Zle_Qle; lia).
  set (n := inject_Z (Z.of_nat k)) in *.
  assert (0 <= (n + 1) * (e * e)) as Hsq.
  { apply Qmult_le_0_compat; [lra|]. apply Qmult_le_0_compat; lra. }
  change (inject_Z 1) with 1.
  assert ((1 - e) * (1 + (n + 1) * e) == 1 + n * e - (n + 1) * (e * e)) as -> by ring.
  lra.
Qed.

Section Rest.
Variables (c : Elem) (cfg : Config) (tx ty D : Q).
Hypothesis ease_pos : 0 < ease cfg.
Hypothesis ease_le : ease cfg <= 1.
Hypothesis min_pos : 0 < minSpeed cfg.

Local Abbreviation closing := (MouseStalkerSpec.closing c cfg tx ty D).

Lemma atRest_near (s : Stalker) :
  config s = cfg → atRest s → near s = true.
Proof using min_pos.
  intros Hcfg (Hx & Hy & _). unfold near. rewrite Hx, Hy, Hcfg.
  assert (∀ a, ltb (Math_abs (a - a)) (minSpeed cfg) = true) as Hz.
  { intros a. apply ltb_lt. unfold Math_abs.
    assert (a - a == 0) as -> by ring. exact min_pos. }
  rewrite !Hz. reflexivity.
Qed.

Lemma scaled (a p : Q) (k : nat) :
  Qabs (a - p) * (1 + inject_Z (Z.of_nat k) * ease cfg) <= D →
  Qabs (a - (p + (a - p) * ease cfg))
  * (1 + inject_Z (Z.of_nat (S k)) * ease cfg) <= D.
Proof using ease_pos ease_le.
  intros Hk.
  assert (a - (p + (a - p) * ease cfg) == (1 - ease cfg) * (a - p)) as -> by ring.
  rewrite Qabs_Qmult, (Qabs_pos (1 - ease cfg)) by lra.
  pose proof (contraction (ease cfg) k ease_pos ease_le) as Hc.
  pose proof (Qabs_nonneg (a - p)) as Ha.
  assert ((1 - ease cfg) * Qabs (a - p) * (1 + inject_Z (Z.of_nat (S k)) * ease cfg)
          == Qabs (a - p)
             * ((1 - ease cfg) * (1 + inject_Z (Z.of_nat (S k)) * ease cfg))) as -> by ring.
  apply Qle_trans with (Qabs (a - p) * (1 + inject_Z (Z.of_nat k) * ease cfg));
    [|exact Hk].
  assert (0 <= inject_Z (Z.of_nat (S k))) as Hk'
    by (change 0 with (inject_Z 0); rewrite <- Zle_Qle; lia).
  apply Qmult_le_compat_nonneg; split; try lra.
  apply Qmult_le_0_compat; [lra|].
  assert (0 <= inject_Z (Z.of_nat (S k)) * ease cfg)
    by (apply Qmult_le_0_compat; lra).
  lra.
Qed.

Lemma closing_step k (st : State) :
  closing k st → closing (S k) (update id st).2.
Proof using All.
  destruct st as [s w]. intros (He & Hc & Hcfg & Htx & Hty & Hd). cbn [fst snd] in *.
  destruct (update_step s w c He Hc)
    as (s' & w' & -> & He' & Hc' & Hcfg' & Htx' & Hty' & _ & _ & Hcase).
  unfold closing. cbn [fst snd]. rewrite He', Hc', Hcfg', Htx', Hty'.
  repeat (split; [first [assumption|reflexivity]|]).
  destruct (near s) eqn:Hnear; [left; apply Hcase|].
  destruct Hd as [Hrest|[Hx Hy]].
  { rewrite (atRest_near s Hcfg Hrest) in Hnear. discriminate. }
  destruct Hcase as (Hpx & Hpy & _). right. rewrite Hpx, Hpy, Htx, Hty, Hcfg.
  split; apply scaled; assumption.
Qed.

Lemma closing_updates n (st : State) :
  closing 0 st → closing n (updates n st).
Proof using All.
  intros H0. induction n as [|n IH]; [exact H0|].
  rewrite updates_S. apply closing_step, IH.
Qed.

(** Once within reach, the next frame brings the stalker to rest. *)
Lemma closing_rest k (st : State) :
  D < minSpeed cfg * (1 + inject_Z (Z.of_nat k) * ease cfg) →
  closing k st → atRest (update id st).2.1 ∧ frames (update id st).2.2 = frames st.2.
Proof using All.
  destruct st as [s w]. intros HD (He & Hc & Hcfg & Htx & Hty & Hd). cbn [fst snd] in *.
  destruct (update_step s w c He Hc) as (s' & w' & -> & _ & _ & _ & _ & _ & _ & _ & Hcase).
  cbn [fst snd].
  assert (near s = true) as Hnear.
  { destruct Hd as [Hrest|[Hx Hy]]; [exact (atRest_near s Hcfg Hrest)|].
    assert (0 <= inject_Z (Z.of_nat k)) as Hk
      by (change 0 with (inject_Z 0); rewrite <- Zle_Qle; lia).
    assert (0 < 1 + inject_Z (Z.of_nat k) * ease cfg) as Hpos.
    { assert (0 <= inject_Z (Z.of_nat k) * ease cfg)
        by (apply Qmult_le_0_compat; lra). lra. }
    unfold near. rewrite Htx, Hty, Hcfg.
    apply andb_true_intro. split; apply ltb_lt; unfold Math_abs;
      apply (Qmult_lt_r _ _ _ Hpos); lra. }
  rewrite Hnear in Hcase. exact Hcase.
Qed.

(** At rest, a frame changes nothing that matters: the stalker stays at
    rest and asks for no further frame. *)
Lemma rest_stays k (st : State) :
  closing k st → atRest st.1 →
  atRest (update id st).2.1 ∧ frames (update id st).2.2 = frames st.2.
Proof using min_pos.
  destruct st as [s w]. intros (He & Hc & Hcfg & _) Hrest. cbn [fst snd] in *.
  destruct (update_step s w c He Hc) as (s' & w' & -> & _ & _ & _ & _ & _ & _ & _ & Hcase).
  rewrite (atRest_near s Hcfg Hrest) in Hcase. exact Hcase.
Qed.

End Rest.


End MouseStalkerUpdate.

Module MouseStalkerInit.
Import Js JsFacts Dom Browser BrowserWp MethodFacts WpFacts DomSpec DomFacts DomFacts2
  MouseStalker MouseStalkerSpec.
Local Open Scope Q_scope.

Lemma setStyles_eq e kvs (s : Stalker) (w : World Cb) :
  setStyles e kvs (s, w) = (Normal tt, (s, styleAll e kvs w)).
Proof. apply forEach_styles. Qed.

Lemma createStalker_fresh (s : Stalker) (w : World Cb) :
  container s = None →
  let c := S (next_elem w) in
  let t := S (S (next_elem w)) in
  ∃ w1,
    createStalker (s, w)
    = (match body (env w) with Some _ => Normal tt | None => Throw "TypeError" end,
       ((if alwaysVisible (config s) && truthy_string (defaultText (config s))
         then set_currentText (defaultText (config s)) else λ x, x)
          (set_textEl (Some t) (set_container (Some c) s)), w1))
    ∧ quiet w w1
    ∧ next_elem w1 = t
    ∧ getAttribute "aria-hidden" (elemAt w1 c) = Some "true"%string
    ∧ className (elemAt w1 t) = String.words (textClass (config s))
    ∧ parentNode (elemAt w1 t) = Some c
    ∧ parentNode (elemAt w1 c) = body (env w).
Proof.
  intros Hc c t. unfold createStalker.
  set (k1 := "aria-hidden"%string). set (v1 := "true"%string).
  rewrite bind_this, bind_world. cbn [fst snd]. rewrite Hc.
  rewrite bind_ret, bind_call, bind_assign, !bind_effect. cbn [fst snd].
  match goal with |- context [setStyles _ ?kvs] => set (base := kvs) end.
  match goal with |- context [setStyles _ (?kv :: ?kvs)] => set (fade := kv :: kvs) end.
  set (k2 := "has-text"%string). set (k3 := "opacity"%string). set (v3 := Css "1").
  rewrite (bind_normal _ _ _ _ _ (setStyles_eq _ _ _ _)).
  rewrite bind_call, bind_assign, bind_effect. cbn [fst snd].
  rewrite (bind_normal _ _ _ _ _ (setStyles_eq _ _ _ _)).
  rewrite !(createElement_fst w). fold c.
  match goal with |- context [(createElement ?w0).1] =>
    assert ((createElement w0).1 = t) as Ht by (next_elem_simpl; reflexivity); rewrite !Ht
  end.
  destruct (alwaysVisible (config s) && truthy_string (defaultText (config s))) eqn:Hav;
    run_method;
    match goal with |- context [deref (body (env ?W))] =>
      assert (quiet w W) as Hq by quiet_chain;
      rewrite (quiet_env w W Hq)
    end;
    destruct (body (env w)) as [b|]; cbn [deref]; run_method;
    (eexists; split; [reflexivity|]); cbn [fst snd];
    (split; [quiet_chain|]);
    (split; [next_elem_simpl; reflexivity|]).
  all: unfold getAttribute.
  all: dom_simpl ltac:(unfold c, t; first [reflexivity | lia]).
  all: (split; [apply lookup_insert_eq|]); repeat split; reflexivity.
Qed.

Lemma bindEvents_eq (s : Stalker) (w : World Cb) :
  bindEvents id (s, w)
  = (Normal tt,
     (s, addEventListener Window "blur" HandleWindowBlur false
          (addEventListener Document "pointerleave" HandlePointerLeave false
            (addEventListener Document "pointerout" HandlePointerOut true
              (addEventListener Document "pointerover" HandlePointerOver true
                (addEventListener Document "pointermove" HandlePointerMove false w)))))).
Proof. unfold bindEvents. run_method. reflexivity. Qed.

Lemma bound_listeners (w : World Cb) ls :
  listeners w = ls → (∀ l, l ∈ boundListeners → l ∉ ls) →
  listeners
    (addEventListener Window "blur" HandleWindowBlur false
      (addEventListener Document "pointerleave" HandlePointerLeave false
        (addEventListener Document "pointerout" HandlePointerOut true
          (addEventListener Document "pointerover" HandlePointerOver true
            (addEventListener Document "pointermove" HandlePointerMove false w)))))
  = ls ++ boundListeners.
Proof.
  intros Hl Hnew.
  assert (∀ l pre, l ∈ boundListeners → l ∉ pre → l ∉ ls ++ pre) as Hout.
  { intros l pre Hin Hpre [H|H]%elem_of_app; [exact (Hnew l Hin H)|exact (Hpre H)]. }
  apply (listeners_add_new Document "pointermove" HandlePointerMove false) in Hl;
    [|apply Hnew; unfold boundListeners; set_solver].
  apply (listeners_add_new Document "pointerover" HandlePointerOver true) in Hl;
    [|apply Hout; [unfold boundListeners; set_solver|not_listed]].
  rewrite <- app_assoc in Hl.
  apply (listeners_add_new Document "pointerout" HandlePointerOut true) in Hl;
    [|apply Hout; [unfold boundListeners; set_solver|not_listed]].
  rewrite <- app_assoc in Hl.
  apply (listeners_add_new Document "pointerleave" HandlePointerLeave false) in Hl;
    [|apply Hout; [unfold boundListeners; set_solver|not_listed]].
  rewrite <- app_assoc in Hl.
  apply (listeners_add_new Window "blur" HandleWindowBlur false) in Hl;
    [|apply Hout; [unfold boundListeners; set_solver|not_listed]].
  rewrite <- app_assoc in Hl. exact Hl.
Qed.

Lemma addEventListener_set {C} `{EqDecision C} tg ty (cb : C) cap (w W : World C) :
  (∃ ls, W = set_listeners ls w) →
  ∃ ls, addEventListener tg ty cb cap W = set_listeners ls w.
Proof.
  intros [ls ->]. unfold addEventListener. destruct (bool_decide _); eexists; reflexivity.
Qed.

(** [bindEvents] on a page that has none of the five listeners yet. *)
Lemma bindEvents_spec (s : Stalker) (w : World Cb) :
  (∀ l, l ∈ boundListeners → l ∉ listeners w) →
  bindEvents id (s, w)
  = (Normal tt, (s, set_listeners (listeners w ++ boundListeners) w)).
Proof.
  intros Hnew. rewrite bindEvents_eq.
  pose proof (bound_listeners w (listeners w) eq_refl Hnew) as Hb.
  assert (∃ ls, w = set_listeners ls w) as H0
    by (exists (listeners w); destruct w; reflexivity).
  apply (addEventListener_set Document "pointermove" HandlePointerMove false) in H0.
  apply (addEventListener_set Document "pointerover" HandlePointerOver true) in H0.
  apply (addEventListener_set Document "pointerout" HandlePointerOut true) in H0.
  apply (addEventListener_set Document "pointerleave" HandlePointerLeave false) in H0.
  apply (addEventListener_set Window "blur" HandleWindowBlur false) in H0.
  destruct H0 as [ls E]. rewrite E in Hb |- *. cbn [listeners set_listeners] in Hb.
  rewrite Hb. reflexivity.
Qed.

(** What [init] does to an instance that has not been initialised. *)
Lemma stalker_init_spec (s : Stalker) (w : World Cb) :
  isEnabled s = false → container s = None →
  (∀ l, l ∈ boundListeners → l ∉ listeners w) →
  let c := S (next_elem w) in
  let t := S (S (next_elem w)) in
  let f := S (next_frame w) in
  let s0 := (if alwaysVisible (config s) && truthy_string (defaultText (config s))
             then set_currentText (defaultText (config s)) else λ x, x)
              (set_textEl (Some t) (set_container (Some c) s)) in
  ∃ w1,
    init id (s, w)
    = (match body (env w) with Some _ => Normal tt | None => Throw "TypeError" end,
       (match body (env w) with
        | Some _ => set_rafId (Some f) (set_isEnabled true s0)
        | None => s0
        end, w1))
    ∧ env w1 = env w ∧ timers w1 = timers w ∧ next_elem w1 = t
    ∧ frames w1 = match body (env w) with
                  | Some _ => frames w ++ [(f, Update)]
                  | None => frames w
                  end
    ∧ listeners w1 = match body (env w) with
                     | Some _ => listeners w ++ boundListeners
                     | None => listeners w
                     end
    ∧ getAttribute "aria-hidden" (elemAt w1 c) = Some "true"%string
    ∧ className (elemAt w1 t) = String.words (textClass (config s))
    ∧ parentNode (elemAt w1 t) = Some c
    ∧ parentNode (elemAt w1 c) = body (env w).
Proof.
  intros He Hc Hnew c t f s0. unfold init.
  rewrite bind_this. cbn [fst]. rewrite He.
  destruct (createStalker_fresh s w Hc) as (w1 & E & Hq & Hn & Hdom).
  fold c t s0 in E, Hn, Hdom.
  destruct Hq as (Henv & _ & _ & Hfr & Hnf & Htm & _ & Hls & _).
  destruct (body (env w)) as [b|] eqn:Hb.
  - rewrite (bind_normal _ _ _ _ _ E).
    rewrite (bind_normal _ _ _ _ _ (bindEvents_spec _ _ ltac:(rewrite Hls; exact Hnew))).
    unfold render. run_method.
    eexists. split; [unfold f; rewrite <- Hnf; reflexivity|].
    cbn [env timers next_elem frames listeners requestAnimationFrame
         set_next_frame set_frames set_listeners next_frame fst snd].
    rewrite ?Hfr, ?Hls, ?Hnf.
    repeat (split; [first [assumption|reflexivity]|]).
    exact Hdom.
  - rewrite (bind_throw _ _ _ _ _ E).
    eexists. split; [reflexivity|].
    repeat (split; [first [assumption|reflexivity]|]).
    exact Hdom.
Qed.

Lemma constructor_supported u (w : World Cb) :
  supported (env w) →
  constructor id u w
  = match init id (fresh (merge u) w, w) with
    | (Normal _, (s, w')) => (Normal (Ready s), w')
    | (Throw e, (_, w')) => (Throw e, w')
    end.
Proof.
  intros (Hw & Hd & Hr & Hp). unfold constructor. rewrite Hw, Hd, Hr, Hp. reflexivity.
Qed.

(** X11. Without [document.body] the constructor throws.  When the
    guards let it through (window and document exist, no reduced motion, a
    fine pointer) and the document has no body, [new MouseStalker(...)]
    throws a TypeError at the last line of [createStalker]: no listener,
    frame or timeout has been registered, and the two elements it has made
    are left detached, the text element inside the container. *)
Theorem stalker_needs_body u (w : World Cb) :
  supported (env w) → body (env w) = None →
  ∃ w',
    constructor id u w = (Throw "TypeError", w')
    ∧ listeners w' = listeners w ∧ frames w' = frames w ∧ timers w' = timers w
    ∧ next_elem w' = S (S (next_elem w))
    ∧ parentNode (elemAt w' (S (next_elem w))) = None
    ∧ parentNode (elemAt w' (S (S (next_elem w)))) = Some (S (next_elem w)).
Proof.
  intros Hs Hb. rewrite (constructor_supported u w Hs).
  unfold init. rewrite bind_this. cbn [fst fresh isEnabled].
  destruct (createStalker_fresh (fresh (merge u) w) w eq_refl)
    as (w1 & E & Hq & Hn & _ & _ & Ht & Hc).
  rewrite Hb in E, Hc. rewrite (bind_throw _ _ _ _ _ E).
  destruct Hq as (_ & _ & _ & Hfr & _ & Htm & _ & Hls & _).
  exists w1. repeat split; assumption.
Qed.

(** X12. With [document.body] in place and the guards passed, on a page
    that has none of the five listeners yet, the constructor completes with
    an enabled stalker: position and target at the centre of the window,
    hidden, not moving, no text timer; its container is a child of the
    body and carries [aria-hidden = true], the text element is the
    container's child; the five listeners of [bindEvents] are registered
    after those of the page, and one frame for [update] is requested,
    which [rafId] names. *)
Theorem stalker_constructor_ready u (w : World Cb) b :
  supported (env w) → body (env w) = Some b →
  (∀ l, l ∈ boundListeners → l ∉ listeners w) →
  ∃ s w',
    constructor id u w = (Normal (Ready s), w')
    ∧ config s = merge u ∧ isEnabled s = true
    ∧ isVisible s = false ∧ isMoving s = false ∧ activeTarget s = None
    ∧ textTimer s = None
    ∧ posX s = innerWidth (env w) / 2 ∧ posY s = innerHeight (env w) / 2
    ∧ targetX s = posX s ∧ targetY s = posY s
    ∧ currentText s
      = (if alwaysVisible (merge u) && truthy_string (defaultText (merge u))
         then defaultText (merge u) else "")
    ∧ container s = Some (S (next_elem w))
    ∧ textEl s = Some (S (S (next_elem w)))
    ∧ rafId s = Some (S (next_frame w))
    ∧ frames w' = frames w ++ [(S (next_frame w), Update)]
    ∧ listeners w' = listeners w ++ boundListeners
    ∧ timers w' = timers w
    ∧ getAttribute "aria-hidden" (elemAt w' (S (next_elem w))) = Some "true"%string
    ∧ parentNode (elemAt w' (S (next_elem w))) = Some b
    ∧ parentNode (elemAt w' (S (S (next_elem w)))) = Some (S (next_elem w)).
Proof.
  intros Hs Hb Hnew. rewrite (constructor_supported u w Hs).
  destruct (stalker_init_spec (fresh (merge u) w) w eq_refl eq_refl Hnew)
    as (w1 & E & _ & Htm & _ & Hfr & Hls & Ha & _ & Ht & Hc).
  rewrite Hb in E, Hfr, Hls, Hc. rewrite E.
  eexists _, w1. split; [reflexivity|].
  cbn [fresh config].
  destruct (alwaysVisible (merge u) && truthy_string (defaultText (merge u)));
    repeat split; assumption.
Qed.

End MouseStalkerInit.

Module MouseStalkerGone.
Import Js JsFacts Dom Browser BrowserWp MethodFacts WpFacts LoopFacts DomSpec DomFacts
  DomFacts2 MouseStalker MouseStalkerSpec MouseStalkerSpec2.
Local Open Scope Q_scope.

Lemma bind_deref_none {S A B} (k : A → M S B) s :
  bind (deref None) k s = (Throw "TypeError", s).
Proof. reflexivity. Qed.

Lemma bind_throw_now {S A B} e (k : A → M S B) s :
  bind (throw e) k s = (Throw e, s).
Proof. reflexivity. Qed.

(** No callback of a destroyed instance writes to the page. *)
Lemma invoke_gone d cb a : maintains (gone d) (invoke id cb a).
Proof.
  intros [s w] (He & Hc & Ht & Hl & Hd). cbn [fst snd] in He, Hc, Ht, Hl, Hd.
  destruct cb, a; cbn [invoke];
    unfold handlePointerMove, handlePointerOver, handlePointerOut, handlePointerLeave,
      handleWindowBlur, update, textTimerFired, clearTextTimerFired, hoverTimerFired,
      clearMouseStalker, setText, clearText, cancelTextTimer, showStyles, hideStyles.
  all: repeat first
    [progress run_method
    |progress cbn [isEnabled container textEl config isVisible isMoving activeTarget
                   currentText textTimer rafId posX posY targetX targetY
                   set_isEnabled set_container set_textEl set_activeTarget
                   set_currentText set_posX set_posY set_targetX set_targetY
                   set_isVisible set_rafId set_isMoving set_textTimer negb andb]
    |rewrite He | rewrite Hc | rewrite Ht
    |rewrite bind_deref_none | rewrite bind_throw_now
    |match goal with
     | |- context [if ?b then _ else _] => destruct b eqn:?
     | |- context [match ?o with Some _ => _ | None => _ end] => destruct o eqn:?
     end].
  all: repeat split; cbn; assumption.
Qed.

Lemma run_gone d cb a : maintains (gone d) (run (invoke id) cb a).
Proof.
  intros [s w] Hg. unfold run. cbn [fst snd].
  pose proof (invoke_gone d cb a (s, set_calls (calls w ++ [cb]) w) Hg) as H.
  destruct (invoke id cb a _) as [[[]|e] [s' w']]; exact H.
Qed.

Lemma steps_gone d evs : maintains (gone d) (steps evs).
Proof.
  apply steps_maintains.
  - apply run_gone.
  - intros v s w H. exact H.
  - intros v s w H. exact H.
  - intros v s w H. exact H.
  - intros i s w H. exact H.
  - intros i s w H. exact H.
Qed.

(** [unbindEvents] removes whatever [bindEvents] has added. *)
Lemma unbound_all (L : list (Listener Cb)) :
  (∀ l, l ∈ L → l ∈ boundListeners) →
  filter (λ l, l ≠ mkListener Window "blur" HandleWindowBlur false)
    (filter (λ l, l ≠ mkListener Document "pointerleave" HandlePointerLeave false)
      (filter (λ l, l ≠ mkListener Document "pointerout" HandlePointerOut true)
        (filter (λ l, l ≠ mkListener Document "pointerover" HandlePointerOver true)
          (filter (λ l, l ≠ mkListener Document "pointermove" HandlePointerMove false)
             L)))) = [].
Proof.
  induction L as [|l L IH]; intros Hin; [reflexivity|].
  assert (l ∈ boundListeners) as Hl by (apply Hin; left).
  specialize (IH (λ x Hx, Hin x (proj2 (elem_of_cons _ _ _) (or_intror Hx)))).
  unfold boundListeners in Hl.
  repeat (apply elem_of_cons in Hl as [->|Hl]);
    [..|inversion Hl];
    repeat first [rewrite filter_cons_True by discriminate
                 |rewrite filter_cons_False by (intros H; apply H; reflexivity)];
    exact IH.
Qed.

(** What [destroy] leaves of an instance: nothing throws, the container is
    taken out of the document, and the instance is [gone]. *)
Lemma destroy_gone (s : Stalker) (w : World Cb) :
  (∀ l, l ∈ listeners w → l ∈ boundListeners) →
  ∃ s' w', destroy id (s, w) = (Normal tt, (s', w'))
    ∧ gone (dom w') (s', w')
    ∧ (∀ c, container s = Some c → parentNode (elemAt w' c) = None)
    ∧ (∀ e, container s ≠ Some e → elemAt w' e = elemAt w e).
Proof.
  intros Hin. unfold destroy, unbindEvents. run_method.
  cbn [rafId textTimer container set_isEnabled].
  set (w1 := if truthy_handle (rafId s)
             then cancelAnimationFrame (default O (rafId s)) w else w).
  set (w2 := if truthy_handle (textTimer s)
             then clearTimeout (default O (textTimer s)) w1 else w1).
  assert (listeners w2 = listeners w ∧ dom w2 = dom w) as [Hl2 Hd2].
  { unfold w2, w1. destruct (truthy_handle (rafId s)), (truthy_handle (textTimer s));
      split; reflexivity. }
  set (w3 := removeEventListener Window "blur" HandleWindowBlur false
               (removeEventListener Document "pointerleave" HandlePointerLeave false
                 (removeEventListener Document "pointerout" HandlePointerOut true
                   (removeEventListener Document "pointerover" HandlePointerOver true
                     (removeEventListener Document "pointermove" HandlePointerMove false
                        w2))))).
  assert (listeners w3 = [] ∧ dom w3 = dom w) as [Hl3 Hd3].
  { split; [|exact Hd2]. unfold w3, removeEventListener. cbn [listeners set_listeners].
    apply unbound_all. rewrite Hl2. exact Hin. }
  set (w4 := match container s with
             | Some c => match parentNode (getElem (dom w3) c) with
                         | Some p => removeChild p c w3
                         | None => w3
                         end
             | None => w3
             end).
  exists (set_textEl None (set_container None (set_isEnabled false s))), w4.
  split.
  { unfold w4, w3, w2, w1.
    destruct (truthy_handle (rafId s)), (truthy_handle (textTimer s)); run_method;
      destruct (container s) as [c|]; run_method;
      try destruct (parentNode (getElem (dom _) c)); run_method; reflexivity. }
  split.
  { repeat split; try reflexivity. unfold w4.
    destruct (container s) as [c|]; [|exact Hl3].
    destruct (parentNode (getElem (dom w3) c)); exact Hl3. }
  split.
  - intros c Hc. unfold w4. rewrite Hc.
    destruct (parentNode (getElem (dom w3) c)) as [p|] eqn:Hp.
    + dom_simpl ltac:(reflexivity). reflexivity.
    + exact Hp.
  - intros e Hne. unfold w4.
    assert (elemAt w3 e = elemAt w e) as H3 by (unfold elemAt; rewrite Hd3; reflexivity).
    destruct (container s) as [c|]; [|exact H3].
    destruct (parentNode (getElem (dom w3) c)) as [p|]; [|exact H3].
    dom_simpl ltac:(congruence). exact H3.
Qed.

(** X13. [destroy()] completes on a page that holds no listeners but
    those of [bindEvents], whatever state the instance is in: the container
    is taken out of the document and every other element is left as it
    was.  From then on, whatever events arrive (frames and timeouts that
    were still pending included), the DOM store does not change, no
    listener is registered and the instance stays disabled. *)
Theorem destroyed_stalker_leaves_page_alone (st : State) :
  (∀ l, l ∈ listeners st.2 → l ∈ boundListeners) →
  ∃ st',
    destroy id st = (Normal tt, st')
    ∧ container st'.1 = None ∧ textEl st'.1 = None
    ∧ (∀ c, container st.1 = Some c → parentNode (elemAt st'.2 c) = None)
    ∧ (∀ e, container st.1 ≠ Some e → elemAt st'.2 e = elemAt st.2 e)
    ∧ ∀ evs,
        dom (steps evs st').2.2 = dom st'.2
        ∧ listeners (steps evs st').2.2 = []
        ∧ isEnabled (steps evs st').2.1 = false.
Proof.
  destruct st as [s w]. intros Hin.
  destruct (destroy_gone s w Hin) as (s' & w' & E & Hg & Hc & Hrest).
  exists (s', w'). split; [exact E|].
  split; [apply Hg|]. split; [apply Hg|].
  split; [exact Hc|]. split; [exact Hrest|].
  intros evs. destruct (steps_gone (dom w') evs (s', w') Hg) as (He & _ & _ & Hl & Hd).
  repeat split; assumption.
Qed.

End MouseStalkerGone.

Module AccordionToggle.
Import Dom Browser MethodFacts DomSpec DomFacts DomFacts2 Accordion AccordionFacts.

Section Toggle.
Context {C : Type} `{EqDecision C}.
Implicit Types (s : Accordion) (w : World C) (e item : Elem).

(** [toggle] completes and keeps the instance. *)
Lemma toggle_cases item allItems s w :
  let ac := activeClass (options s) in
  ∃ w', toggle item allItems (s, w) = (Normal tt, (s, w'))
    ∧ (active ac w' item ↔ ¬ active ac w item)
    ∧ (active ac w item → ∀ e, e ≠ item → (active ac w' e ↔ active ac w e))
    ∧ (shouldOpenAll (options s) = false → ¬ active ac w item →
       ∀ e, e ∈ allItems → e ≠ item → ¬ active ac w' e)
    ∧ (shouldOpenAll (options s) = true →
       ∀ e, e ≠ item → className (elemAt w' e) = className (elemAt w e)).
Proof.
  intros ac.
  destruct (active_dec ac w item) as [Ha|Hn].
  - destruct (toggle_closing item allItems s w Ha) as (w' & E & Hitem & Hothers).
    exists w'. split; [exact E|]. split; [tauto|]. split; [intros _; exact Hothers|].
    split; [intros _ Hn; contradiction|].
    intros Hall e Hne. revert E. rewrite toggle_unfold. cbv zeta. fold ac.
    unfold active in Ha. rewrite Ha, andb_false_r, bind_ret, bind_effect. cbn [fst snd].
    destruct (close_spec item s (update (classList_remove ac) item w)) as (w2 & -> & Hs & _).
    intros [= <-]. unfold elemAt. rewrite Hs. rewrite getElem_update_other by exact Hne.
    reflexivity.
  - pose proof Hn as Hn'. apply not_true_is_false in Hn'. unfold active in Hn'.
    destruct (shouldOpenAll (options s)) eqn:Hall.
    + rewrite toggle_unfold. cbv zeta. fold ac. rewrite Hn', Hall. cbn [negb andb].
      rewrite bind_ret, bind_effect. cbn [fst snd].
      destruct (open_spec item s (update (classList_add ac) item w)) as (w' & -> & Hs & _).
      exists w'. split; [reflexivity|].
      assert (active ac w' item) as Hitem.
      { apply (sameClasses_active ac _ _ _ Hs). unfold active.
        rewrite getElem_update_same. apply contains_add. }
      split; [tauto|]. split; [intros Ha; contradiction|].
      split; [discriminate|].
      intros _ e Hne. unfold elemAt. rewrite Hs. rewrite getElem_update_other by exact Hne.
      reflexivity.
    + destruct (toggle_opening item allItems s w Hall Hn) as (w' & E & Hitem & Hothers).
      exists w'. split; [exact E|]. split; [tauto|]. split; [intros Ha; contradiction|].
      split; [intros _ _; exact Hothers|discriminate].
Qed.



End Toggle.
End AccordionToggle.

Module MainStart.
Import Dom Browser MethodFacts ConstructorFacts DomSpec DomFacts2 Main MainFacts
  MouseStalkerSpec MouseStalkerInit.

(** What [new MouseStalker(...)] comes to: it throws exactly when the
    guards let it through and there is no [document.body]. *)
Lemma stalker_constructor_outcome u (w : World MouseStalker.Cb) :
  (supported (env w) ∧ body (env w) = None
   ∧ ∃ w', MouseStalker.constructor id u w = (Throw "TypeError", w'))
  ∨ (¬ (supported (env w) ∧ body (env w) = None)
     ∧ ∃ i w', MouseStalker.constructor id u w = (Normal i, w')).
Proof.
  destruct (body (env w)) as [b|] eqn:Hb.
  - right. split; [intros [_ H]; discriminate|].
    apply stalker_constructor_completes. rewrite Hb. eexists. reflexivity.
  - destruct (hasWindow (env w)) eqn:H1; [destruct (hasDocument (env w)) eqn:H2|];
      [destruct (matchMedia (env w) "(prefers-reduced-motion: reduce)") eqn:H3;
       [|destruct (matchMedia (env w) "(pointer: fine)") eqn:H4]|..].
    2: { left. assert (supported (env w)) as Hs by (repeat split; assumption).
         split; [exact Hs|]. split; [reflexivity|].
         rewrite (constructor_supported u w Hs).
         unfold MouseStalker.init. rewrite bind_this. cbn [fst].
         destruct (createStalker_fresh (MouseStalker.fresh (MouseStalker.merge u) w) w eq_refl)
           as (w1 & E & _).
         rewrite Hb in E. cbn [MouseStalker.fresh MouseStalker.isEnabled].
         rewrite (bind_throw _ _ _ _ _ E). eexists. reflexivity. }
    all: right; split;
      [intros [(G1 & G2 & G3 & G4) _]; congruence
      |unfold MouseStalker.constructor; rewrite ?H1, ?H2, ?H3, ?H4; cbn [negb orb];
       eexists _, _; reflexivity].
Qed.


End MainStart.

Module TextRevealView.
Import Js JsFacts Dom Browser BrowserWp MethodFacts WpFacts LoopFacts DomSpec DomFacts
  DomFacts2 TextReveal TextRevealSpec.

Lemma contains_add_other c c' el :
  classList_contains c el = true → classList_contains c (classList_add c' el) = true.
Proof.
  unfold classList_add. destruct (classList_contains c' el); [auto|].
  unfold classList_contains. cbn [className set_className].
  intros H%bool_decide_eq_true. apply bool_decide_eq_true, elem_of_app. left. exact H.
Qed.

Lemma invoke_once e cb a :
  maintains (λ st : Reveal * World Cb, once (options st.1) = true ∧ inview st.2 e)
    (invoke id cb a).
Proof.
  intros [s w] [Ho Hv]. cbn [fst snd] in Ho, Hv.
  destruct cb, a as [|t|entry]; cbn [invoke]; [split; assumption..|].
  unfold handleIntersect. cbn [forEach]. rewrite bind_ret_tt.
  destruct (isIntersecting entry).
  - unfold animateIn. rewrite bind_world. cbn [snd].
    destruct (classList_contains _ _); [split; assumption|].
    rewrite bind_effect, bind_this. cbn [fst snd]. rewrite Ho.
    unfold unobserve, inview. cbn [Browser.effect modify fst snd]. split; [exact Ho|].
    change (elemAt (removeEventListener ?t ?ty ?c ?cap ?W) e) with (elemAt W e).
    rewrite elemAt_update. destruct (decide (e = target entry)) as [<-|_]; [|exact Hv].
    apply contains_add_other, Hv.
  - unfold animateOut. rewrite bind_this, bind_world. cbn [fst snd]. rewrite Ho.
    split; assumption.
Qed.

(** X18. With [once] set, an element that carries [is-inview] carries it
    after any events: the handlers never take the class off, and they
    never change the options. *)
Theorem once_keeps_in_view (s : Reveal) (w : World Cb) e evs :
  once (options s) = true → inview w e →
  inview (steps evs (s, w)).2.2 e ∧ options (steps evs (s, w)).2.1 = options s.
Proof.
  intros Ho Hv.
  assert (maintains (λ st : Reveal * World Cb,
            (once (options st.1) = true ∧ inview st.2 e) ∧ options st.1 = options s)
            (steps evs)) as H.
  { apply steps_maintains.
    - intros cb a [s0 w0] [H1 H2]. unfold run. cbn [fst snd].
      pose proof (invoke_once e cb a (s0, set_calls (calls w0 ++ [cb]) w0) H1) as H.
      assert (options (invoke id cb a (s0, set_calls (calls w0 ++ [cb]) w0)).2.1
              = options s0) as Hopt.
      { destruct cb, a as [|t|entry]; cbn [invoke]; try reflexivity.
        apply (keeps_forEach (λ st : Reveal * World Cb, options st.1)).
        intros entry'. unfold animateIn, animateOut, unobserve. keeps_auto. }
      destruct (invoke id cb a _) as [[[]|err] [s' w']]; cbn [fst snd] in *;
        (split; [exact H|congruence]).
    - intros v s0 w0 H. exact H.
    - intros v s0 w0 H. exact H.
    - intros v s0 w0 H. exact H.
    - intros i s0 w0 H. exact H.
    - intros i s0 w0 H. exact H. }
  destruct (H (s, w)) as [[_ H1] H2]; [repeat split; assumption|].
  split; assumption.
Qed.

End TextRevealView.

Module ScrollProgressInit.
Import Js Dom Browser BrowserWp MethodFacts WpFacts DomSpec DomFacts DomFacts2
  ScrollProgressAnimation ScrollProgressSpec.

Section Init.
Context {C : Type} `{EqDecision C}.
Variable bound : Cb → C.
Implicit Types (s : Animation (C := C)) (w : World C).

Lemma create_spec el st en cbs s w :
  ∃ w', ScrollTrigger_create bound el st en cbs (s, w)
        = (Normal (mkTrigger el st en cbs), (s, w'))
        ∧ dom w' = dom w.
Proof.
  unfold ScrollTrigger_create.
  assert (∃ w', forEach (λ kc : string * Cb,
                  Browser.effect (T := Animation)
                    (addEventListener (Node el) kc.1 (bound kc.2) false)) cbs (s, w)
                = (Normal tt, (s, w')) ∧ dom w' = dom w) as (w' & E & Hd).
  { revert w. induction cbs as [|kc cbs IH]; intros w.
    - exists w. split; reflexivity.
    - cbn [forEach]. rewrite bind_effect. cbn [fst snd].
      destruct (IH (addEventListener (Node el) kc.1 (bound kc.2) false w)) as (w' & E & Hd).
      exists w'. split; [exact E|]. rewrite Hd.
      unfold addEventListener. destruct (bool_decide _); reflexivity. }
  exists w'. rewrite (bind_normal _ _ _ _ _ E). split; [reflexivity|exact Hd].
Qed.

Lemma animateItems_spec its s w :
  ∃ w', forEach (λ item,
          bind this (λ s0,
            bind (ScrollTrigger_create bound item (start (config s0)) (end_ (config s0))
                    [("ScrollTrigger.onEnter", OnEnter item);
                     ("ScrollTrigger.onLeaveBack", OnLeaveBack item)])
              (λ trigger, bind this (λ s1,
                 assign (set_scrollTriggers (scrollTriggers s1 ++ [trigger])))))) its (s, w)
        = (Normal tt,
           (set_scrollTriggers (scrollTriggers s ++ map (itemTrigger s) its) s, w'))
        ∧ dom w' = dom w.
Proof.
  revert s w. induction its as [|item its IH]; intros s w.
  - exists w. cbn [forEach map]. rewrite app_nil_r. destruct s. split; reflexivity.
  - cbn [forEach]. rewrite bind_assoc, bind_this. cbn [fst].
    destruct (create_spec item (start (config s)) (end_ (config s))
                [("ScrollTrigger.onEnter", OnEnter item);
                 ("ScrollTrigger.onLeaveBack", OnLeaveBack item)] s w) as (w1 & E1 & Hd1).
    rewrite bind_assoc, (bind_normal _ _ _ _ _ E1), bind_assoc, bind_this, bind_assign.
    cbn [fst snd].
    destruct (IH (set_scrollTriggers
                    (scrollTriggers s ++
                     [mkTrigger item (start (config s)) (end_ (config s))
                        [("ScrollTrigger.onEnter", OnEnter item);
                         ("ScrollTrigger.onLeaveBack", OnLeaveBack item)]]) s) w1)
      as (w' & E & Hd).
    exists w'. split; [|congruence].
    rewrite E. cbn [map scrollTriggers set_scrollTriggers config].
    rewrite <- app_assoc. reflexivity.
Qed.


End Init.
End ScrollProgressInit.

Module MainCallbacks.
Import Dom Browser MethodFacts DomSpec DomFacts DomFacts2 Main.

Lemma className_remove_add c x :
  className (classList_remove c (classList_add c x)) = filter (λ y, y ≠ c) (className x).
Proof.
  unfold classList_remove, classList_add.
  destruct (classList_contains c x); cbn [className set_className]; [reflexivity|].
  rewrite filter_app, filter_cons_False by (intros H; apply H; reflexivity).
  rewrite filter_nil, app_nil_r. reflexivity.
Qed.

Lemma className_remove_remove c x :
  className (classList_remove c (classList_remove c x))
  = className (classList_remove c x).
Proof.
  unfold classList_remove. cbn [className set_className].
  rewrite list_filter_filter. apply list_filter_iff. intros y. tauto.
Qed.

Lemma contains_add_ne c c' x :
  c ≠ c' → classList_contains c (classList_add c' x) = classList_contains c x.
Proof.
  intros Hne. unfold classList_add. destruct (classList_contains c' x); [reflexivity|].
  unfold classList_contains. cbn [className set_className].
  apply bool_decide_ext. rewrite elem_of_app, list_elem_of_singleton. tauto.
Qed.

Lemma contains_remove_ne c c' x :
  c ≠ c' → classList_contains c (classList_remove c' x) = classList_contains c x.
Proof.
  intros Hne. unfold classList_remove, classList_contains. cbn [className set_className].
  apply bool_decide_ext. rewrite list_elem_of_filter. tauto.
Qed.

Section Mark.
Context {C : Type}.
Implicit Types (w : World C) (e item : Elem).

(** The enclosing scroll item of a dot. *)
Local Abbreviation parentOf w item :=
  (if classList_contains "c-scroll-dot" (elemAt w item)
   then closest (env w) item ".c-scroll-item" else None).

Lemma markItem_spec (change : string → Element → Element) item w :
  (∀ x, classList_contains "c-scroll-dot" (change "is-active" x)
        = classList_contains "c-scroll-dot" x) →
  env (markItem change item w) = env w
  ∧ parentOf (markItem change item w) item = parentOf w item
  ∧ ∀ e, elemAt (markItem change item w) e
         = match parentOf w item with
           | Some parent =>
               if decide (e = parent) then
                 change "is-active"
                   (if decide (parent = item) then change "is-active" (elemAt w item)
                    else elemAt w parent)
               else if decide (e = item) then change "is-active" (elemAt w item)
               else elemAt w e
           | None =>
               if decide (e = item) then change "is-active" (elemAt w item)
               else elemAt w e
           end.
Proof.
  intros Hdot. unfold markItem. cbv zeta.
  fold (elemAt (update (change "is-active") item w) item).
  rewrite elemAt_update, decide_True by reflexivity. rewrite Hdot.
  change (env (update (change "is-active") item w)) with (env w).
  destruct (classList_contains "c-scroll-dot" (elemAt w item)) eqn:Hd.
  - destruct (closest (env w) item ".c-scroll-item") as [parent|] eqn:Hcl.
    + split; [reflexivity|]. split.
      * change (env (update (change "is-active") parent
                      (update (change "is-active") item w))) with (env w).
        rewrite !elemAt_update, (decide_True (P := item = item)) by reflexivity.
        destruct (decide (item = parent)) as [<-|Hne];
          rewrite ?(decide_True (P := item = item)) by reflexivity;
          rewrite ?Hdot, Hd; exact Hcl.
      * intros e. rewrite !elemAt_update.
        destruct (decide (e = parent)); [|reflexivity].
        destruct (decide (parent = item)); reflexivity.
    + split; [reflexivity|]. split.
      * rewrite elemAt_update, decide_True by reflexivity. rewrite Hdot, Hd.
        change (env (update (change "is-active") item w)) with (env w). exact Hcl.
      * intros e. apply elemAt_update.
  - split; [reflexivity|]. split.
    + rewrite elemAt_update, decide_True by reflexivity. rewrite Hdot, Hd. reflexivity.
    + intros e. apply elemAt_update.
Qed.

(** X17. [onItemInactive] after [onItemActive], the callbacks [main]
    gives to ScrollProgressAnimation: the item, and the enclosing scroll
    item when the item is a dot, end without the class [is-active] and
    with their other classes in the order they had; every other element
    is left as it was. *)
Theorem leave_back_undoes_enter item w :
  let w' := markItem classList_remove item (markItem classList_add item w) in
  let marked e :=
    e = item
    ∨ (classList_contains "c-scroll-dot" (elemAt w item) = true
       ∧ closest (env w) item ".c-scroll-item" = Some e) in
  ∀ e,
    (marked e →
     className (elemAt w' e) = filter (λ y, y ≠ "is-active"%string) (className (elemAt w e)))
    ∧ (¬ marked e → elemAt w' e = elemAt w e).
Proof.
  intros w' marked e. subst w' marked.
  destruct (markItem_spec classList_add item w) as (Henv1 & Hp1 & H1);
    [intros x; apply contains_add_ne; discriminate|].
  destruct (markItem_spec classList_remove item (markItem classList_add item w))
    as (_ & _ & H2); [intros x; apply contains_remove_ne; discriminate|].
  rewrite H2, Hp1. clear H2 Hp1 Henv1.
  destruct (classList_contains "c-scroll-dot" (elemAt w item)).
  - destruct (closest (env w) item ".c-scroll-item") as [parent|]; rewrite !H1.
    + rewrite ?(decide_True (P := item = item)), ?(decide_True (P := parent = parent))
        by reflexivity.
      destruct (decide (parent = item)) as [->|Hne].
      * rewrite ?(decide_True (P := item = item)) by reflexivity.
        destruct (decide (e = item)) as [->|Hne'].
        -- split; [intros _|intros Hn; exfalso; apply Hn; left; reflexivity].
           rewrite className_remove_remove.
           replace (classList_add "is-active" (classList_add "is-active" (elemAt w item)))
             with (classList_add "is-active" (elemAt w item))
             by (unfold classList_add at 2; rewrite contains_add; reflexivity).
           apply className_remove_add.
        -- split; [intros [->|[_ [= ->]]]; contradiction|reflexivity].
      * rewrite ?(decide_False (P := item = parent)) by congruence.
        destruct (decide (e = parent)) as [->|Hne1].
        -- split; [intros _; apply className_remove_add|].
           intros Hn. exfalso. apply Hn. right. split; reflexivity.
        -- destruct (decide (e = item)) as [->|Hne2].
           ++ split; [intros _; apply className_remove_add|].
              intros Hn. exfalso. apply Hn. left. reflexivity.
           ++ split; [intros [->|[_ [= ->]]]; contradiction|reflexivity].
    + rewrite ?(decide_True (P := item = item)) by reflexivity.
      destruct (decide (e = item)) as [->|Hne].
      * split; [intros _; apply className_remove_add|].
        intros Hn. exfalso. apply Hn. left. reflexivity.
      * split; [intros [->|[_ [=]]]; contradiction|reflexivity].
  - rewrite !H1, ?(decide_True (P := item = item)) by reflexivity.
    destruct (decide (e = item)) as [->|Hne].
    + split; [intros _; apply className_remove_add|].
      intros Hn. exfalso. apply Hn. left. reflexivity.
    + split; [intros [->|[[=] _]]; contradiction|reflexivity].
Qed.

End Mark.
End MainCallbacks.


(** The theorems at the sample page. *)
Module Witnesses.
Import Js Dom Browser Samples.




Lemma asset_paths_by_extension_at_samples :
  ViteConfig.assetFileNames (Some "logo.png") = "assets/image/[name][extname]"
  ∧ ViteConfig.assetFileNames (Some "photo.jpeg") = "assets/image/[name][extname]"
  ∧ ViteConfig.assetFileNames (Some "style.css") = "assets/scss/[name][extname]"
  ∧ ViteConfig.assetFileNames (Some "font.woff2") = "assets/[name][extname]".
Proof.
  destruct ViteConfigFacts.asset_paths_by_extension as (Himg & Hcss & Hother & _).
  split; [|split; [|split]].
  - apply Himg. exists ".png". split; [|exists "logo"; reflexivity].
    unfold ViteConfig.imageExtensions.
    repeat (apply elem_of_cons; first [left; reflexivity | right]).
  - apply Himg. exists ".jpeg". split; [|exists "photo"; reflexivity].
    unfold ViteConfig.imageExtensions.
    repeat (apply elem_of_cons; first [left; reflexivity | right]).
  - apply Hcss. exists "style". reflexivity.
  - apply Hother.
    + intros H. apply ViteConfigFacts.test_image in H. vm_compute in H. discriminate H.
    + intros H. apply ViteConfigFacts.test_css in H. vm_compute in H. discriminate H.
Defined.



Lemma stalker_constructor_guarded_at_sample :
  matchMedia reducedMotionEnv "(prefers-reduced-motion: reduce)" = true
  ∧ (MouseStalker.constructor id stalkerConfig
       (set_env reducedMotionEnv (page (Cb := MouseStalker.Cb)))).2
    = set_env reducedMotionEnv page.
Proof.
  split; [reflexivity|].
  apply (EarlyReturn.stalker_constructor_guarded id stalkerConfig
           (set_env reducedMotionEnv (page (Cb := MouseStalker.Cb)))).
  left. reflexivity.
Defined.




End Witnesses.
(** The further theorems at the sample page. *)
Module SampleRuns.
Import Js Dom Browser DomSpec Samples Scenarios.

Lemma slider_starts_at_loop_edge_at_sample :
  LoopSlider.constructor id (LoopSlider.SelString ".js-loop-slider1") sliderOptions page
  = (Normal (LoopSlider.Ready sliderLoaded.1), sliderLoaded.2)
  ∧ LoopSlider.baseX sliderLoaded.1 = (- LoopSlider.totalWidth sliderLoaded.1)%Q
  ∧ LoopSlider.dragX sliderLoaded.1 = 0%Q
  ∧ LoopSlider.isDragging sliderLoaded.1 = false.
Proof.
  assert (LoopSlider.constructor id (LoopSlider.SelString ".js-loop-slider1")
            sliderOptions page
          = (Normal (LoopSlider.Ready sliderLoaded.1), sliderLoaded.2)) as E
    by (vm_compute; reflexivity).
  destruct (LoopSliderConstructor.slider_starts_at_loop_edge _ _ _ _ _ E)
    as (c & first & _ & _ & _ & _ & _ & _ & Hb & Hd & Hg & _).
  split; [exact E|]. split; [exact Hb|]. split; [exact Hd|exact Hg].
Defined.

Lemma slider_listeners_at_sample :
  LoopSlider.constructor id (LoopSlider.SelString ".js-loop-slider1") sliderOptions page
  = (Normal (LoopSlider.Ready sliderLoaded.1), sliderLoaded.2)
  ∧ listeners (page (Cb := LoopSlider.Cb)) = []
  ∧ listeners sliderLoaded.2
    = (if LoopSlider.draggable (LoopSliderSpec2.effective sliderOptions)
       then LoopSliderSpec.dragListeners (LoopSlider.container sliderLoaded.1) else [])
      ++ [LoopSliderSpec.resizeListener].
Proof.
  assert (LoopSlider.constructor id (LoopSlider.SelString ".js-loop-slider1")
            sliderOptions page
          = (Normal (LoopSlider.Ready sliderLoaded.1), sliderLoaded.2)) as E
    by (vm_compute; reflexivity).
  destruct (LoopSliderConstructor.slider_listeners _ _ _ _ _ E eq_refl) as (_ & Hl & _).
  split; [exact E|]. split; [reflexivity|exact Hl].
Defined.

Lemma slider_loop_never_stops_at_sample :
  LoopSlider.constructor id (LoopSlider.SelString ".js-loop-slider1") sliderOptions page
  = (Normal (LoopSlider.Ready sliderLoaded.1), sliderLoaded.2)
  ∧ ∃ i,
      frames (LoopSlider.steps pow
                [Frame (Some 16%Q); LoopSlider.resizeEvent; Tick 150%Q;
                 Frame (Some 32%Q)] sliderLoaded).2.2
      = [(i, LoopSlider.UpdatePosition)].
Proof.
  assert (LoopSlider.constructor id (LoopSlider.SelString ".js-loop-slider1")
            sliderOptions page
          = (Normal (LoopSlider.Ready sliderLoaded.1), sliderLoaded.2)) as E
    by (vm_compute; reflexivity).
  destruct (LoopSliderLoop.slider_loop_never_stops pow _ sliderOptions page _ _
              [Frame (Some 16%Q); LoopSlider.resizeEvent; Tick 150%Q; Frame (Some 32%Q)]
              eq_refl eq_refl eq_refl E) as ((i & Hf & _) & _).
  split; [exact E|]. exists i. exact Hf.
Defined.

Lemma scroll_slider_is_never_dragged_at_sample :
  LoopSlider.effect (LoopSlider.merge Main.slider1Options) = "scroll"%string
  ∧ LoopSlider.constructor id (LoopSlider.SelString ".js-loop-slider1")
      Main.slider1Options page
    = (Normal (LoopSlider.Ready scrollSliderLoaded.1), scrollSliderLoaded.2)
  ∧ LoopSlider.dragX
      (LoopSlider.steps pow
         [LoopSliderDrag.mouseDown 10 5; LoopSliderDrag.mouseMove 60;
          Frame (Some 16%Q)] scrollSliderLoaded).2.1 = 0%Q.
Proof.
  assert (LoopSlider.constructor id (LoopSlider.SelString ".js-loop-slider1")
            Main.slider1Options page
          = (Normal (LoopSlider.Ready scrollSliderLoaded.1), scrollSliderLoaded.2)) as E
    by (vm_compute; reflexivity).
  destruct (LoopSliderScroll.scroll_slider_is_never_dragged pow _ Main.slider1Options
              page _ _
              [LoopSliderDrag.mouseDown 10 5; LoopSliderDrag.mouseMove 60;
               Frame (Some 16%Q)]
              eq_refl eq_refl eq_refl eq_refl E) as (_ & _ & Hd & _).
  split; [reflexivity|]. split; [exact E|exact Hd].
Defined.


Lemma drag_follows_pointer_at_sample :
  LoopSlider.live sliderLoaded
  ∧ listeners sliderLoaded.2
    = LoopSliderSpec.dragListeners 10 ++ [LoopSliderSpec.resizeListener]
  ∧ Forall LoopSliderDrag.whileHeld
      [LoopSliderDrag.mouseMove 30; Frame (Some 16%Q); LoopSliderDrag.mouseMove 50]
  ∧ (LoopSlider.dragX
       (LoopSlider.steps pow
          (LoopSliderDrag.mouseDown 10%nat 5
           :: [LoopSliderDrag.mouseMove 30; Frame (Some 16%Q);
               LoopSliderDrag.mouseMove 50]) sliderLoaded).2.1
     == LoopSlider.dragX sliderLoaded.1 + (50 - 5))%Q.
Proof.
  assert (LoopSlider.live sliderLoaded) as Hlive.
  { apply (LoopSliderDestroy.constructor_live
             (LoopSlider.SelString ".js-loop-slider1") sliderOptions page);
      [reflexivity..|vm_compute; reflexivity]. }
  assert (listeners sliderLoaded.2
          = LoopSliderSpec.dragListeners 10 ++ [LoopSliderSpec.resizeListener]) as Hl
    by reflexivity.
  assert (Forall LoopSliderDrag.whileHeld
            [LoopSliderDrag.mouseMove 30; Frame (Some 16%Q); LoopSliderDrag.mouseMove 50])
    as Hevs by (repeat constructor).
  destruct (LoopSliderDragFacts.drag_follows_pointer pow 10 5%Q 70%Q _ sliderLoaded
              Hlive Hl Hevs) as (_ & Hd & _).
  split; [exact Hlive|]. split; [exact Hl|]. split; [exact Hevs|exact Hd].
Defined.


Lemma destroyed_slider_is_silent_at_sample :
  LoopSlider.constructor id (LoopSlider.SelString ".js-loop-slider1") sliderOptions page
  = (Normal (LoopSlider.Ready sliderLoaded.1), sliderLoaded.2)
  ∧ LoopSlider.released
      (LoopSlider.destroy id
         (LoopSlider.steps pow [Frame (Some 16%Q); LoopSlider.resizeEvent]
            sliderLoaded).2).2.
Proof.
  assert (LoopSlider.constructor id (LoopSlider.SelString ".js-loop-slider1")
            sliderOptions page
          = (Normal (LoopSlider.Ready sliderLoaded.1), sliderLoaded.2)) as E
    by (vm_compute; reflexivity).
  destruct (LoopSliderDestroy.destroyed_slider_is_silent pow _ sliderOptions page _ _
              [Frame (Some 16%Q); LoopSlider.resizeEvent] [Frame (Some 32%Q)]
              eq_refl eq_refl eq_refl E) as (Hr & _).
  split; [exact E|exact Hr].
Defined.


Lemma stalker_needs_body_at_sample :
  MouseStalkerSpec.supported (Browser.env (headPage (Cb := MouseStalker.Cb)))
  ∧ body (Browser.env (headPage (Cb := MouseStalker.Cb))) = None
  ∧ ∃ w', MouseStalker.constructor id stalkerConfig headPage = (Throw "TypeError", w')
          ∧ listeners w' = [].
Proof.
  assert (MouseStalkerSpec.supported (Browser.env (headPage (Cb := MouseStalker.Cb)))) as Hs
    by (repeat split; reflexivity).
  destruct (MouseStalkerInit.stalker_needs_body stalkerConfig headPage Hs eq_refl)
    as (w' & E & Hl & _).
  split; [exact Hs|]. split; [reflexivity|]. exists w'. split; [exact E|exact Hl].
Defined.

Lemma stalker_constructor_ready_at_sample :
  MouseStalkerSpec.supported (Browser.env (page (Cb := MouseStalker.Cb)))
  ∧ body (Browser.env (page (Cb := MouseStalker.Cb))) = Some 1
  ∧ (∀ l, l ∈ MouseStalkerSpec.boundListeners →
          l ∉ listeners (page (Cb := MouseStalker.Cb)))
  ∧ ∃ s w', MouseStalker.constructor id stalkerConfig page
            = (Normal (MouseStalker.Ready s), w')
            ∧ listeners w' = MouseStalkerSpec.boundListeners
            ∧ parentNode (elemAt w' 101) = Some 1.
Proof.
  assert (MouseStalkerSpec.supported (Browser.env (page (Cb := MouseStalker.Cb)))) as Hs
    by (repeat split; reflexivity).
  assert (∀ l, l ∈ MouseStalkerSpec.boundListeners →
               l ∉ listeners (page (Cb := MouseStalker.Cb))) as Hnew
    by (intros l _ H; inversion H).
  destruct (MouseStalkerInit.stalker_constructor_ready stalkerConfig page 1
              Hs eq_refl Hnew)
    as (s & w' & E & _ & _ & _ & _ & _ & _ & _ & _ & _ & _ & _ & _ & _ & _ & _ & Hl & _
        & _ & Hp & _).
  split; [exact Hs|]. split; [reflexivity|]. split; [exact Hnew|].
  exists s, w'. split; [exact E|]. split; [exact Hl|exact Hp].
Defined.

Lemma destroyed_stalker_leaves_page_alone_at_sample :
  (∀ l, l ∈ listeners stalkerLoaded.2 → l ∈ MouseStalkerSpec.boundListeners)
  ∧ ∃ st', MouseStalker.destroy id stalkerLoaded = (Normal tt, st')
           ∧ dom (MouseStalker.steps [Frame (Some 16%Q); Tick 300%Q] st').2.2
             = dom st'.2.
Proof.
  assert (∀ l, l ∈ listeners stalkerLoaded.2 → l ∈ MouseStalkerSpec.boundListeners)
    as Hin by (intros l H; exact H).
  destruct (MouseStalkerGone.destroyed_stalker_leaves_page_alone stalkerLoaded Hin)
    as (st' & E & _ & _ & _ & _ & Hevs).
  split; [exact Hin|]. exists st'. split; [exact E|].
  exact (proj1 (Hevs [Frame (Some 16%Q); Tick 300%Q])).
Defined.


Lemma once_keeps_in_view_at_sample :
  TextReveal.once (TextReveal.options onceReveal) = true
  ∧ TextRevealSpec.inview inviewPage 60
  ∧ TextRevealSpec.inview
      (TextRevealSpec.steps
         [Dispatch (Node 60) "IntersectionObserver" (TextReveal.mkEntry 60 false 10)]
         (onceReveal, inviewPage)).2.2 60.
Proof.
  assert (TextRevealSpec.inview inviewPage 60) as Hv by (vm_compute; reflexivity).
  split; [reflexivity|]. split; [exact Hv|].
  exact (proj1 (TextRevealView.once_keeps_in_view onceReveal inviewPage 60
                  [Dispatch (Node 60) "IntersectionObserver"
                     (TextReveal.mkEntry 60 false 10)] eq_refl Hv)).
Defined.


End SampleRuns.
